(** * ProdBy: a shallow embedding of the commit monitor, the path validator
      and the streaming backup pipeline, with the properties of its
      specification.

    The Go sources embedded here are
    - [gitutil]   (GetCurrentCommitHash, GetChangedFilesInCommit, CheckFileExists),
    - [validator] (Validate),
    - [backup]    (GzipPipe, RunBackup; the io.Pipe based revision),
    - [monitor]   (Start, its event loop and debounce timer, addRecursiveWatch,
                   handleCommitCheck).

    Go strings are byte strings: they are [string]s of the Standard Library.
    Paths use the Unix separator, so [filepath.ToSlash] is the identity.
    External commands, files and the object store are oracles gathered in
    records ([world], [startWorld]); log lines are structured events. *)

From Stdlib Require Import String Ascii List Bool Arith Lia NArith ZArith.
Import ListNotations.
Open Scope string_scope.
Open Scope list_scope.

(* ================================================================== *)
(** ** Go values shared by all packages *)

(** Go's [error] values.  [EOF], [ErrClosedPipe], [ErrShortWrite] and
    [ErrTooLong] are the sentinels of [io] and [bufio]; [Errorf msg] is
    [fmt.Errorf] without a wrapped cause and [Wrapf msg e] is
    [fmt.Errorf(msg ++ ": %w", e)]. *)
Inductive error : Type :=
| EOF
| ErrClosedPipe
| ErrShortWrite
| ErrTooLong
| Errorf (msg : string)
| Wrapf (msg : string) (cause : error).

(** A Go pair [(value, error)]. *)
Inductive result (A : Type) : Type :=
| Ok (a : A)
| Err (e : error).
Arguments Ok {A} a.
Arguments Err {A} e.

(** What becomes of a call: it returns, with its results, or it waits for
    ever for something that does not come. *)
Inductive completion (A : Type) : Type :=
| Returns (a : A)
| Blocks.
Arguments Returns {A} a.
Arguments Blocks {A}.

Definition byte := ascii.

Definition tab : ascii := "009"%char.
Definition nl : ascii := "010"%char.
Definition vtab : ascii := "011"%char.
Definition formfeed : ascii := "012"%char.
Definition cr : ascii := "013"%char.
Definition space : ascii := " "%char.
Definition slash : ascii := "/"%char.
Definition dot : ascii := "."%char.
Definition dash : ascii := "-"%char.

(** One-byte string. *)
Definition str1 (c : ascii) : string := String c EmptyString.

Definition isEmpty (s : string) : bool :=
  match s with EmptyString => true | String _ _ => false end.

(* ================================================================== *)
(** ** Package [strings] *)

Module Strings.

(** [strings.HasPrefix(s, p)]. *)
Fixpoint HasPrefix (s p : string) {struct p} : bool :=
  match p with
  | EmptyString => true
  | String b p' =>
      match s with
      | EmptyString => false
      | String a s' => Ascii.eqb a b && HasPrefix s' p'
      end
  end.

(** [s[n:]]. *)
Fixpoint drop (n : nat) (s : string) : string :=
  match n with
  | 0 => s
  | S n' => match s with EmptyString => EmptyString | String _ s' => drop n' s' end
  end.

(** [s[:n]]. *)
Fixpoint take (n : nat) (s : string) : string :=
  match n with
  | 0 => EmptyString
  | S n' => match s with EmptyString => EmptyString | String a s' => String a (take n' s') end
  end.

(** [strings.TrimPrefix(s, p)]. *)
Definition TrimPrefix (s p : string) : string :=
  if HasPrefix s p then drop (String.length p) s else s.

(** [strings.HasSuffix(s, p)]. *)
Definition HasSuffix (s p : string) : bool :=
  Nat.leb (String.length p) (String.length s)
  && String.eqb (drop (String.length s - String.length p) s) p.

(** [strings.TrimSuffix(s, p)]. *)
Definition TrimSuffix (s p : string) : string :=
  if HasSuffix s p then take (String.length s - String.length p) s else s.

(** [strings.Contains(s, sub)]. *)
Fixpoint Contains (s sub : string) : bool :=
  HasPrefix s sub
  || match s with
     | EmptyString => false
     | String _ s' => Contains s' sub
     end.

(** [strings.IndexByte(s, c) >= 0]. *)
Fixpoint hasByte (c : ascii) (s : string) : bool :=
  match s with
  | EmptyString => false
  | String a s' => Ascii.eqb a c || hasByte c s'
  end.

(** [strings.Cut(s, sep)] for a one-byte separator: the text before and
    after the first occurrence of the separator. *)
Fixpoint Cut (sep : ascii) (s : string) : option (string * string) :=
  match s with
  | EmptyString => None
  | String a s' =>
      if Ascii.eqb a sep then Some (EmptyString, s')
      else match Cut sep s' with
           | Some (x, y) => Some (String a x, y)
           | None => None
           end
  end.

(** [strings.SplitN(s, sep, n)] for a one-byte separator and [n >= 0]:
    at most [n] substrings, the last one being the unsplit remainder. *)
Fixpoint SplitN (s : string) (sep : ascii) (n : nat) : list string :=
  match n with
  | 0 => []
  | S n' =>
      match n' with
      | 0 => [s]
      | S _ =>
          match Cut sep s with
          | None => [s]
          | Some (x, y) => x :: SplitN y sep n'
          end
      end
  end.

(** [strings.Split(s, sep)] for a one-byte separator; the result is never
    empty ([Split] of the empty string is one empty string). *)
Fixpoint Split (s : string) (sep : ascii) : list string :=
  match s with
  | EmptyString => [EmptyString]
  | String a s' =>
      if Ascii.eqb a sep then EmptyString :: Split s' sep
      else match Split s' sep with
           | h :: t => String a h :: t
           | [] => [str1 a]
           end
  end.

(** [strings.Join(elems, sep)]. *)
Fixpoint Join (elems : list string) (sep : string) : string :=
  match elems with
  | [] => EmptyString
  | [x] => x
  | x :: rest => x ++ sep ++ Join rest sep
  end.

(** [strings.ToLower], as far as a match against ASCII text can tell: the
    ASCII capitals are lowered, and so are the two other runes whose lower
    case is an ASCII letter, U+0130 (bytes 196 176, lowered to [i]) and
    U+212A (bytes 226 132 170, lowered to [k]).  The bytes of all other
    runes are left as they are. *)
Definition lowerByte (c : ascii) : ascii :=
  let n := nat_of_ascii c in
  if Nat.leb 65 n && Nat.leb n 90 then ascii_of_nat (n + 32) else c.

Definition isByte (n : nat) (c : ascii) : bool := Nat.eqb (nat_of_ascii c) n.

Fixpoint ToLower (s : string) : string :=
  match s with
  | EmptyString => EmptyString
  | String a s1 =>
      match s1 with
      | EmptyString => String (lowerByte a) EmptyString
      | String b s2 =>
          if isByte 196 a && isByte 176 b then String "i" (ToLower s2)
          else
            match s2 with
            | EmptyString => String (lowerByte a) (ToLower s1)
            | String c s3 =>
                if isByte 226 a && isByte 132 b && isByte 170 c
                then String "k" (ToLower s3)
                else String (lowerByte a) (ToLower s1)
            end
      end
  end.

(** [strings.Trim(s, cutset)] for a one-byte cutset. *)
Fixpoint trimLeftByte (c : ascii) (s : string) : string :=
  match s with
  | EmptyString => EmptyString
  | String a s' => if Ascii.eqb a c then trimLeftByte c s' else s
  end.

Fixpoint trimRightByte (c : ascii) (s : string) : string :=
  match s with
  | EmptyString => EmptyString
  | String a s' =>
      let r := trimRightByte c s' in
      if isEmpty r && Ascii.eqb a c then EmptyString else String a r
  end.

Definition Trim (s : string) (c : ascii) : string :=
  trimRightByte c (trimLeftByte c s).

(** The white space of [unicode.IsSpace], as UTF-8 byte sequences: the six
    ASCII characters, U+0085, U+00A0, U+1680, U+2000..U+200A, U+2028,
    U+2029, U+202F, U+205F and U+3000. *)
Definition bytes2 (a b : nat) : string :=
  String (ascii_of_nat a) (str1 (ascii_of_nat b)).
Definition bytes3 (a b c : nat) : string :=
  String (ascii_of_nat a) (bytes2 b c).

Definition spaceRunes : list string :=
  [ str1 tab; str1 nl; str1 vtab; str1 formfeed; str1 cr; str1 space;
    bytes2 194 133; bytes2 194 160;
    bytes3 225 154 128;
    bytes3 226 128 128; bytes3 226 128 129; bytes3 226 128 130;
    bytes3 226 128 131; bytes3 226 128 132; bytes3 226 128 133;
    bytes3 226 128 134; bytes3 226 128 135; bytes3 226 128 136;
    bytes3 226 128 137; bytes3 226 128 138;
    bytes3 226 128 168; bytes3 226 128 169; bytes3 226 128 175;
    bytes3 226 129 159;
    bytes3 227 128 128 ].

(** The string starts with a white-space rune: what is left after it. *)
Definition stripSpaceRune (s : string) : option string :=
  match find (fun w => HasPrefix s w) spaceRunes with
  | Some w => Some (drop (String.length w) s)
  | None => None
  end.

Fixpoint trimLeftSpaceFuel (fuel : nat) (s : string) : string :=
  match fuel with
  | 0 => s
  | S fuel' =>
      match stripSpaceRune s with
      | Some s' => trimLeftSpaceFuel fuel' s'
      | None => s
      end
  end.

(** Leading white-space runes removed (every rune takes a byte at least, so
    the length of the string is fuel enough). *)
Definition trimLeftSpace (s : string) : string :=
  trimLeftSpaceFuel (String.length s) s.

(** The string is exactly one white-space rune. *)
Definition isSpaceRune (s : string) : bool :=
  existsb (String.eqb s) spaceRunes.

(** Trailing white-space runes removed, from the right end. *)
Fixpoint trimRightSpace (s : string) : string :=
  match s with
  | EmptyString => EmptyString
  | String a s' =>
      let r := String a (trimRightSpace s') in
      if isSpaceRune r then EmptyString else r
  end.

(** [strings.TrimSpace(s)]. *)
Definition TrimSpace (s : string) : string :=
  trimRightSpace (trimLeftSpace s).

End Strings.

(* ================================================================== *)
(** ** Package [path/filepath], Unix flavour *)

Module Filepath.

(** [filepath.ToSlash]: the separator is already a slash. *)
Definition ToSlash (path : string) : string := path.

(** The loop of [Clean] over the path elements: empty and [.] elements are
    dropped, a [..] element removes the element before it when there is one
    that is not itself [..]; otherwise it is dropped in a rooted path and
    kept in a relative one.  [out] is the output so far, last element
    first. *)
Fixpoint cleanElems (rooted : bool) (elems out : list string) : list string :=
  match elems with
  | [] => rev out
  | e :: rest =>
      if isEmpty e || String.eqb e "." then cleanElems rooted rest out
      else if String.eqb e ".." then
        match out with
        | top :: out' =>
            if String.eqb top ".." then cleanElems rooted rest (e :: out)
            else cleanElems rooted rest out'
        | [] =>
            if rooted then cleanElems rooted rest []
            else cleanElems rooted rest [e]
        end
      else cleanElems rooted rest (e :: out)
  end.

(** [filepath.Clean(path)]. *)
Definition Clean (path : string) : string :=
  match path with
  | EmptyString => "."
  | String c _ =>
      let rooted := Ascii.eqb c slash in
      let out := cleanElems rooted (Strings.Split path slash) [] in
      let s := ((if rooted then "/" else EmptyString) ++ Strings.Join out "/")%string in
      if isEmpty s then "." else s
  end.

(** [path[:i+1]] where [i] is the index of the last separator ([-1] when
    there is none). *)
Fixpoint throughLastSlash (path : string) : string :=
  match path with
  | EmptyString => EmptyString
  | String a s' =>
      let r := throughLastSlash s' in
      if isEmpty r && negb (Ascii.eqb a slash) then EmptyString else String a r
  end.

(** [path[i+1:]] for the same [i]. *)
Fixpoint afterLastSlash (path : string) : string :=
  match path with
  | EmptyString => EmptyString
  | String a s' =>
      if Strings.hasByte slash s' then afterLastSlash s'
      else if Ascii.eqb a slash then s' else path
  end.

(** [filepath.Dir(path)]. *)
Definition Dir (path : string) : string := Clean (throughLastSlash path).

(** [filepath.Base(path)]. *)
Definition Base (path : string) : string :=
  match path with
  | EmptyString => "."
  | _ =>
      let p := afterLastSlash (Strings.trimRightByte slash path) in
      if isEmpty p then "/" else p
  end.

(** [filepath.Ext(path)]: the suffix of the last element that starts at its
    last dot, empty when it has no dot. *)
Fixpoint Ext (path : string) : string :=
  match path with
  | EmptyString => EmptyString
  | String a s' =>
      if Strings.hasByte slash s' || Ascii.eqb a slash then Ext s'
      else
        let e := Ext s' in
        if isEmpty e then (if Ascii.eqb a dot then path else EmptyString) else e
  end.

(** [filepath.Join(elem...)]: leading empty elements are skipped, the rest is
    joined with the separator and cleaned. *)
Fixpoint Join (elem : list string) : string :=
  match elem with
  | [] => EmptyString
  | e :: rest => if isEmpty e then Join rest else Clean (Strings.Join elem "/")
  end.

End Filepath.

(* ================================================================== *)
(** ** Package [regexp]: the fragment the validator uses *)

Module Regexp.

(** Regular expressions over bytes.  A class is a list of inclusive byte
    ranges, possibly negated. *)
Inductive re : Type :=
| Void
| Eps
| Cls (neg : bool) (ranges : list (ascii * ascii))
| Cat (r1 r2 : re)
| Alt (r1 r2 : re)
| Star (r : re).

Definition inRange (c : ascii) (rg : ascii * ascii) : bool :=
  (N_of_ascii (fst rg) <=? N_of_ascii c)%N && (N_of_ascii c <=? N_of_ascii (snd rg))%N.

Definition inClass (neg : bool) (ranges : list (ascii * ascii)) (c : ascii) : bool :=
  xorb neg (existsb (inRange c) ranges).

Definition rangeEqb (a b : ascii * ascii) : bool :=
  Ascii.eqb (fst a) (fst b) && Ascii.eqb (snd a) (snd b).

Fixpoint rangesEqb (a b : list (ascii * ascii)) : bool :=
  match a, b with
  | [], [] => true
  | x :: a', y :: b' => rangeEqb x y && rangesEqb a' b'
  | _, _ => false
  end.

Fixpoint re_eqb (a b : re) : bool :=
  match a, b with
  | Void, Void => true
  | Eps, Eps => true
  | Cls n1 r1, Cls n2 r2 => Bool.eqb n1 n2 && rangesEqb r1 r2
  | Cat a1 a2, Cat b1 b2 => re_eqb a1 b1 && re_eqb a2 b2
  | Alt a1 a2, Alt b1 b2 => re_eqb a1 b1 && re_eqb a2 b2
  | Star a1, Star b1 => re_eqb a1 b1
  | _, _ => false
  end.

Fixpoint nullable (r : re) : bool :=
  match r with
  | Void => false
  | Eps => true
  | Cls _ _ => false
  | Cat r1 r2 => nullable r1 && nullable r2
  | Alt r1 r2 => nullable r1 || nullable r2
  | Star _ => true
  end.

(** Concatenation and alternation that simplify the trivial cases, to keep
    derivatives small. *)
Definition cat (r1 r2 : re) : re :=
  match r1, r2 with
  | Void, _ => Void
  | _, Void => Void
  | Eps, _ => r2
  | _, Eps => r1
  | _, _ => Cat r1 r2
  end.

Definition alt (r1 r2 : re) : re :=
  match r1, r2 with
  | Void, _ => r2
  | _, Void => r1
  | _, _ => if re_eqb r1 r2 then r1 else Alt r1 r2
  end.

(** Brzozowski derivative. *)
Fixpoint deriv (c : ascii) (r : re) : re :=
  match r with
  | Void => Void
  | Eps => Void
  | Cls neg ranges => if inClass neg ranges c then Eps else Void
  | Cat r1 r2 =>
      alt (cat (deriv c r1) r2) (if nullable r1 then deriv c r2 else Void)
  | Alt r1 r2 => alt (deriv c r1) (deriv c r2)
  | Star r1 => cat (deriv c r1) (Star r1)
  end.

(** The whole string is in the language of [r]. *)
Fixpoint matches (r : re) (s : string) : bool :=
  match s with
  | EmptyString => nullable r
  | String c s' => matches (deriv c r) s'
  end.

(** Pattern syntax. *)
Definition chr (c : ascii) : re := Cls false [(c, c)].
Definition anyByte : re := Cls true [].
Definition plus (r : re) : re := Cat r (Star r).
Definition opt (r : re) : re := Alt Eps r.

Fixpoint lit (s : string) : re :=
  match s with
  | EmptyString => Eps
  | String c s' => match s' with EmptyString => chr c | _ => Cat (chr c) (lit s') end
  end.

Fixpoint alts (rs : list re) : re :=
  match rs with
  | [] => Void
  | [r] => r
  | r :: rest => Alt r (alts rest)
  end.

Fixpoint cats (rs : list re) : re :=
  match rs with
  | [] => Eps
  | [r] => r
  | r :: rest => Cat r (cats rest)
  end.

(** A compiled pattern: its source text, its body and whether it starts
    with [^] and ends with [$] (no multi-line flag: they anchor at the ends
    of the text). *)
Record Regexp : Type := MustCompile {
  source : string;
  anchoredStart : bool;
  body : re;
  anchoredEnd : bool
}.

(** [re.MatchString(s)]: some substring matches, at the anchored positions. *)
Definition MatchString (p : Regexp) (s : string) : bool :=
  matches
    (Cat (if anchoredStart p then Eps else Star anyByte)
         (Cat (body p) (if anchoredEnd p then Eps else Star anyByte)))
    s.

End Regexp.

(* ================================================================== *)
(** ** The environment of the [git] collaborator *)

(** What [exec.Command(...).Output()] gives: the standard output, or an
    [*exec.ExitError] (the command ran and failed), or another error (the
    command could not be run). *)
Inductive cmdResult : Type :=
| CmdOut (stdout : string)
| CmdExit (e : error)
| CmdFail (e : error).

(** The files and the [git] commands the program consults.
    - [readFile path] is [os.ReadFile];
    - [gitRevParse repo rev] is [git -C repo rev-parse rev];
    - [gitShow repo commit] is
      [git -C repo show --pretty= --name-status commit];
    - [gitLsFiles repo file] tells whether
      [git -C repo ls-files --error-unmatch file] exits with status 0. *)
Record gitWorld : Type := {
  readFile : string -> result string;
  gitRevParse : string -> string -> cmdResult;
  gitShow : string -> string -> cmdResult;
  gitLsFiles : string -> string -> bool
}.

(* ================================================================== *)
(** ** Package [gitutil] *)

Module Gitutil.

Import Strings.

(** [runGitRevParse]. *)
Definition runGitRevParse (g : gitWorld) (repoPath revision : string) : result string :=
  match gitRevParse g repoPath revision with
  | CmdOut out => Ok (TrimSpace out)
  | CmdExit e => Err (Wrapf ("git rev-parse " ++ revision ++ " failed") e)
  | CmdFail e => Err (Wrapf "failed to execute git rev-parse" e)
  end.

(** [GetCurrentCommitHash]: the hash [HEAD] points to, read from the
    metadata files, with [git rev-parse] as the fallback. *)
Definition GetCurrentCommitHash (g : gitWorld) (repoPath : string) : result string :=
  let gitDir := Filepath.Join [repoPath; ".git"] in
  let headFile := Filepath.Join [gitDir; "HEAD"] in
  match readFile g headFile with
  | Err _ => runGitRevParse g repoPath "HEAD"
  | Ok contentBytes =>
      let content := TrimSpace contentBytes in
      if HasPrefix content "ref: " then
        let refPath := TrimPrefix content "ref: " in
        let refFile := Filepath.Join [gitDir; refPath] in
        match readFile g refFile with
        | Ok hashBytes => Ok (TrimSpace hashBytes)
        | Err _ => runGitRevParse g repoPath refPath
        end
      else if Nat.eqb (String.length content) 40 then Ok content
      else runGitRevParse g repoPath "HEAD"
  end.

(** [bufio.MaxScanTokenSize - 1], with [MaxScanTokenSize = 64 * 1024]: the
    longest line a [bufio.Scanner] with its default buffer returns; a longer
    one stops the scan with [ErrTooLong]. *)
Definition maxLineLength : nat := 64 * 1024 - 1.

(** The lines of a text, cut at the newlines; the text after the last
    newline is a line when it is not empty. *)
Fixpoint rawLines (s : string) : list string :=
  match s with
  | EmptyString => []
  | String a s' =>
      if Ascii.eqb a nl then EmptyString :: rawLines s'
      else match rawLines s' with
           | [] => [str1 a]
           | h :: t => String a h :: t
           end
  end.

(** [dropCR] of [bufio.ScanLines]: one trailing carriage return removed. *)
Fixpoint dropCR (line : string) : string :=
  match line with
  | EmptyString => EmptyString
  | String a s' =>
      match s' with
      | EmptyString => if Ascii.eqb a cr then EmptyString else line
      | String _ _ => String a (dropCR s')
      end
  end.

(** The body of the scanning loop of [GetChangedFilesInCommit] for one line
    of text: the paths it appends to [files]. *)
Definition lineFiles (text : string) : list string :=
  let line := TrimSpace text in
  if negb (isEmpty line) then
    match SplitN line tab 2 with
    | [status; fileName] =>
        if HasPrefix status "R" then
          match SplitN line tab 3 with
          | [_; _; newPath] => [newPath]
          | _ => []
          end
        else if HasPrefix status "C" then
          match SplitN line tab 3 with
          | [_; _; newPath] => [newPath]
          | _ => []
          end
        else if negb (String.eqb status "D") then [fileName]
        else []
    | _ => []
    end
  else [].

(** The scan of the output of [git show --name-status]: the paths of all
    lines in order, or the scanner's error when a line is too long. *)
Definition scanNameStatus (out : string) : result (list string) :=
  let lines := rawLines out in
  if existsb (fun l => Nat.ltb maxLineLength (String.length l)) lines
  then Err (Wrapf "error scanning git show output" ErrTooLong)
  else Ok (flat_map (fun l => lineFiles (dropCR l)) lines).

(** [GetChangedFilesInCommit]. *)
Definition GetChangedFilesInCommit (g : gitWorld) (repoPath commitHash : string)
  : result (list string) :=
  match gitShow g repoPath commitHash with
  | CmdOut out => scanNameStatus out
  | CmdExit e | CmdFail e =>
      Err (Wrapf ("git show failed for commit " ++ commitHash) e)
  end.

(** [CheckFileExists]: the file is in the index. *)
Definition CheckFileExists (g : gitWorld) (repoPath filePath : string) : bool :=
  gitLsFiles g repoPath filePath.

End Gitutil.

(* ================================================================== *)
(** ** Package [validator] *)

Module Validator.

Import Strings Regexp.

(** [[a-zA-Z0-9_.,-]] *)
Definition nameClass : re :=
  Cls false [("a"%char, "z"%char); ("A"%char, "Z"%char); ("0"%char, "9"%char);
             ("_"%char, "_"%char); ("."%char, "."%char); (","%char, ","%char);
             ("-"%char, "-"%char)].

(** [[0-9]] *)
Definition digitClass : re := Cls false [("0"%char, "9"%char)].

Definition projectExtRegex : Regexp :=
  MustCompile "\.(flp|rpp|song|project|cpr|ptx|logicx|als)$" false
    (Cat (chr ".")
         (alts [lit "flp"; lit "rpp"; lit "song"; lit "project"; lit "cpr";
                lit "ptx"; lit "logicx"; lit "als"]))
    true.

Definition exportExtRegex : Regexp :=
  MustCompile "\.(mp3|wav|flac)$" false
    (Cat (chr ".") (alts [lit "mp3"; lit "wav"; lit "flac"]))
    true.

Definition exportStatusRegex : Regexp :=
  MustCompile "^(progress|unmixed|rough|mixed|finalmix|roughmaster|mastered|finalmaster)$" true
    (alts [lit "progress"; lit "unmixed"; lit "rough"; lit "mixed";
           lit "finalmix"; lit "roughmaster"; lit "mastered"; lit "finalmaster"])
    true.

Definition projectFolderRegex : Regexp :=
  MustCompile
    "^([a-zA-Z0-9_.,-]+)-([a-zA-Z0-9_.,-]+(?:,[a-zA-Z0-9_.,-]+)*)-([a-zA-Z0-9_.,-]+)-([0-9]{2,3})bpm-prodby\.([a-zA-Z0-9_.,-]+)$"
    true
    (cats [plus nameClass; chr "-";
           Cat (plus nameClass) (Star (Cat (chr ",") (plus nameClass)));
           chr "-"; plus nameClass; chr "-";
           cats [digitClass; digitClass; opt digitClass];
           lit "bpm-prodby"; chr "."; plus nameClass])
    true.

(** The pattern compiled in the loop for the export file names; its dot is
    any byte but the newline. *)
Definition exportNameRegex : Regexp :=
  MustCompile "^(.*)-([^-]+)$" true
    (cats [Star (Cls true [(nl, nl)]); chr "-"; plus (Cls true [(dash, dash)])])
    true.

(** The text before and after the last occurrence of a byte. *)
Fixpoint cutLast (sep : ascii) (s : string) : option (string * string) :=
  match s with
  | EmptyString => None
  | String a s' =>
      match cutLast sep s' with
      | Some (x, y) => Some (String a x, y)
      | None => if Ascii.eqb a sep then Some (EmptyString, s') else None
      end
  end.

(** [exportNameRegex.FindStringSubmatch(s)]: the two groups when the
    pattern matches.  The second group has no dash and ends the text, so
    the dash between the groups is the last one of the text; the first
    group has no newline and the second is not empty. *)
Definition exportNameSubmatch (s : string) : option (string * string) :=
  match cutLast dash s with
  | Some (x, y) => if hasByte nl x || isEmpty y then None else Some (x, y)
  | None => None
  end.

Definition allowedRootFiles (base : string) : bool :=
  existsb (String.eqb base) ["README.md"; ".gitignore"; "config.toml"].

Definition requiredRootFiles : list string := ["README.md"; ".gitignore"].

(** The two variables [Validate] returns, which its closure [addError]
    updates. *)
Record vstate : Type := {
  errors : list string;
  isValid : bool
}.

Definition addError (msg : string) (st : vstate) : vstate :=
  {| errors := errors st ++ [msg]; isValid := false |}.

(** [if cond { addError(msg) }] *)
Definition errorIf (cond : bool) (msg : string) (st : vstate) : vstate :=
  if cond then addError msg st else st.

(** A file directly in its project folder. *)
Definition checkProjectFile (file projectFolder : string) (parts : list string)
  (st : vstate) : vstate :=
  let baseName := nth (List.length parts - 1) parts EmptyString in
  let ext := Filepath.Ext baseName in
  let baseNameNoExt := TrimSuffix baseName ext in
  let st := errorIf (negb (String.eqb baseNameNoExt projectFolder))
      ("Project filename base must match folder name. Expected '" ++ projectFolder
       ++ ".*', found '" ++ baseName ++ "' in path '" ++ file ++ "'") st in
  errorIf (negb (MatchString projectExtRegex (ToLower baseName)))
      ("Invalid file extension for project file '" ++ baseName
       ++ "'. Allowed: .flp, .rpp, .song, .project, .cpr, .ptx, .logicx, .als. Path: '"
       ++ file ++ "'") st.

(** A path inside the [exports/] directory of a project. *)
Definition checkExportFile (file projectFolder : string) (parts : list string)
  (st : vstate) : vstate :=
  let st := errorIf (negb (String.eqb (nth 3 parts EmptyString) "exports"))
      ("'exports' directory component must be lowercase: '" ++ nth 3 parts EmptyString
       ++ "' in path '" ++ file ++ "'") st in
  if Nat.ltb 4 (List.length parts) then
    let exportBaseName := nth (List.length parts - 1) parts EmptyString in
    let exportExt := Filepath.Ext exportBaseName in
    let exportBaseNameNoExt := TrimSuffix exportBaseName exportExt in
    let st :=
      match exportNameSubmatch exportBaseNameNoExt with
      | None =>
          addError ("Export filename '" ++ exportBaseName
            ++ "' does not match expected format '[project_base]-[status]'. Path: '"
            ++ file ++ "'") st
      | Some (exportBase, exportStatus) =>
          let st := errorIf (negb (String.eqb exportBase projectFolder))
              ("Export filename base must match project folder name. Expected '"
               ++ projectFolder ++ "-[status].*', found '" ++ exportBaseName
               ++ "' in path '" ++ file ++ "'") st in
          errorIf (negb (MatchString exportStatusRegex exportStatus))
              ("Invalid status identifier '" ++ exportStatus ++ "' in export filename '"
               ++ exportBaseName
               ++ "'. Allowed: progress, unmixed, rough, mixed, finalmix, roughmaster, mastered, finalmaster. Path: '"
               ++ file ++ "'") st
      end in
    errorIf (negb (MatchString exportExtRegex (ToLower exportBaseName)))
      ("Invalid file extension for export file '" ++ exportBaseName
       ++ "'. Allowed: .mp3, .wav, .flac. Path: '" ++ file ++ "'") st
  else st.

(** A path under [src/projects/]. *)
Definition checkProjectsPath (file : string) (parts : list string) (st : vstate)
  : vstate :=
  if Nat.ltb 2 (List.length parts) then
    let projectFolder := nth 2 parts EmptyString in
    if negb (MatchString projectFolderRegex projectFolder) then
      addError ("Invalid project folder name format: '" ++ projectFolder
                ++ "' in path '" ++ file ++ "'") st
    else
      let pathInsideProject := Join (skipn 3 parts) "/" in
      if String.eqb pathInsideProject EmptyString then st
      else if negb (Contains pathInsideProject "/") then
        checkProjectFile file projectFolder parts st
      else if HasPrefix pathInsideProject "exports/" then
        checkExportFile file projectFolder parts st
      else
        addError ("Unexpected file or directory inside project folder: '"
                  ++ pathInsideProject ++ "' in path '" ++ file
                  ++ "'. Only project file and 'exports/' dir allowed directly under '"
                  ++ projectFolder ++ "/'") st
  else
    addError ("Files are not allowed directly inside 'src/projects/'. Place them in a named project folder: '"
              ++ file ++ "'") st.

(** The body of the loop over the changed files. *)
Definition checkFile (file : string) (st : vstate) : vstate :=
  let st := errorIf (Contains file " ") ("Path contains spaces: '" ++ file ++ "'") st in
  let filePath := Filepath.ToSlash file in
  let dir := Filepath.ToSlash (Filepath.Dir filePath) in
  let base := Filepath.Base filePath in
  if String.eqb dir "." then
    errorIf (negb (allowedRootFiles base))
      ("Unexpected file in root directory: '" ++ file ++ "'") st
  else if HasPrefix filePath "src/" then
    let parts := Split filePath slash in
    let st := errorIf (negb (String.eqb (nth 0 parts EmptyString) "src"))
        ("'src' directory component must be lowercase: '" ++ nth 0 parts EmptyString
         ++ "' in path '" ++ file ++ "'") st in
    if Nat.ltb 1 (List.length parts) && String.eqb (nth 1 parts EmptyString) "projects" then
      checkProjectsPath file parts st
    else st
  else if negb (String.eqb dir ".") then
    addError ("Unexpected top-level file or directory: '" ++ file
              ++ "'. Only 'src/', 'README.md', 'config.toml', '.gitignore' allowed.") st
  else st.

(** The check of the required files against the repository index. *)
Definition checkRequired (g : gitWorld) (repoPath : string) (st : vstate) : vstate :=
  fold_left
    (fun st reqFile =>
       errorIf (negb (Gitutil.CheckFileExists g repoPath reqFile))
         ("Required file '" ++ reqFile ++ "' not found in repository index.") st)
    requiredRootFiles st.

(** [Validate(repoPath, changedFiles)].  The lines it prints on the standard
    output are not part of the model. *)
Definition Validate (g : gitWorld) (repoPath : string) (changedFiles : list string)
  : bool * list string :=
  let st := {| errors := []; isValid := true |} in
  let st := fold_left (fun st file => checkFile file st) changedFiles st in
  let st := checkRequired g repoPath st in
  (isValid st, errors st).

End Validator.

(* ================================================================== *)
(** ** Package [config] *)

Record BackupConfig : Type := {
  Bucket : string;
  EndpointURL : string;
  Region : string;
  Prefix : string;
  AccessKeyID : string;
  SecretKey : string
}.

Record Config : Type := {
  RepoPath : string;
  DebounceSecs : Z;
  Backup : BackupConfig
}.

(* ================================================================== *)
(** ** Log lines and observable events *)

(** The lines the program logs, one constructor per [log.Printf],
    [log.Println] or [log.Fatal] call, with the values it formats. *)
Inductive logLine : Type :=
(* monitor.Start and addRecursiveWatch *)
| LogFatalNoGitDir (repoPath : string)
| LogInitialHashWarning (repoPath : string) (e : error)
| LogStartingMonitoring (repoPath : string)
| LogInitialHash (hash : string)
| LogFatalWatcher (e : error)
| LogAddingWatch (path : string)
| LogAddWatchFailed (path : string) (e : error)
| LogPathMissing (path : string)
| LogWatchErrors (watchErrors : nat)
| LogWatcherStarted
| LogWalkError (path : string) (e : error)
| LogAddDirFailed (path : string) (e : error)
| LogAddRootFailed (path : string) (e : error)
(* monitor.handleCommitCheck *)
| LogAlreadyInProgress
| LogDebounceTriggered
| LogHashError (e : error)
| LogNewCommit (previous current : string)
| LogChangedFilesError (commit : string) (e : error)
| LogValidationStart (commit : string)
| LogValidationPassed (commit : string)
| LogBackupStart (commit : string)
| LogBackupFailed (commit : string) (e : error)
| LogBackupSucceeded (commit : string)
| LogValidationFailed (commit : string)
| LogViolation (verr : string)
| LogBackupSkipped (commit : string)
| LogNoNewCommit
| LogEmptyHash
(* backup.RunBackup and GzipPipe *)
| LogBackupProcess (commit : string)
| LogConfiguringS3
| LogStaticCredentials
| LogDefaultCredentials
| LogTargetKey (s3Path : string)
| LogCreatingArchive
| LogStartingUpload
| LogGzipCopyError (e : error)
| LogGzipFinished
| LogArchiveAlsoFailed (stderr : string) (e : error)
| LogUploadSucceeded (s3Path : string).

(** What one run does that can be seen from outside, in order. *)
Inductive event : Type :=
| Log (l : logLine)
| TryLock (acquired : bool)                (* processingMu.TryLock() *)
| Unlock                                   (* processingMu.Unlock() *)
| SetLastKnownHash (hash : string)         (* lastKnownHash holds hash after an assignment *)
| CallGetCurrentCommitHash (repoPath : string)
| CallGetChangedFiles (repoPath commit : string)
| CallValidate (repoPath : string) (changedFiles : list string)
| CallRunBackup (repoPath commit : string)
| ArchiveStarted (repoPath commit : string)   (* git archive --format=tar commit *)
| PutObject (bucket key : string) (body : list byte) (res : option error)
| ArchiveWaited (res : option error)          (* cmdArchive.Wait() returns res *)
| ArchiveWaitBlocks.                          (* cmdArchive.Wait() never returns *)

(* ================================================================== *)
(** ** Package [io]: the synchronous in-memory pipe *)

Module Pipe.

(** An [io.Pipe].  A write hands its bytes to the reader and returns when
    the reader has taken them all, so there is no buffer: [delivered] is
    what the reader has taken so far.  [rerr] and [werr] are the errors the
    two ends were closed with; either one closes the [done] channel.

    The reader is the upload.  [readerBudget] says how much it still reads
    before it gives up: [None] when it reads until the writer closes,
    [Some k] when it leaves once it is offered more than [k] bytes.  An
    upload that gives up does not close its end: the read end is closed by
    the [Close] that [RunBackup] defers, when [RunBackup] returns. *)
Record pipe : Type := {
  delivered : list byte;
  rerr : option error;
  werr : option error;
  readerBudget : option nat
}.

(** [io.Pipe()], with the reader it will meet. *)
Definition newPipe (budget : option nat) : pipe :=
  {| delivered := []; rerr := None; werr := None; readerBudget := budget |}.

Definition done (p : pipe) : bool :=
  match rerr p, werr p with
  | None, None => false
  | _, _ => true
  end.

(** [onceError.Store]: the first error stored stays. *)
Definition storeOnce (slot : option error) (e : error) : option error :=
  match slot with
  | Some old => Some old
  | None => Some e
  end.

(** [PipeReader.CloseWithError(err)]; [None] is Go's [nil]. *)
Definition closeRead (err : option error) (p : pipe) : pipe :=
  let e := match err with Some e => e | None => ErrClosedPipe end in
  {| delivered := delivered p; rerr := storeOnce (rerr p) e; werr := werr p;
     readerBudget := readerBudget p |}.

(** [PipeWriter.CloseWithError(err)]: a [nil] error closes with [EOF]. *)
Definition closeWrite (err : option error) (p : pipe) : pipe :=
  let e := match err with Some e => e | None => EOF end in
  {| delivered := delivered p; rerr := rerr p; werr := storeOnce (werr p) e;
     readerBudget := readerBudget p |}.

(** The error a read gets once the pipe is closed. *)
Definition readCloseError (p : pipe) : error :=
  match rerr p, werr p with
  | None, Some e => e
  | _, _ => ErrClosedPipe
  end.

(** The error a write gets once the pipe is closed. *)
Definition writeCloseError (p : pipe) : error :=
  match werr p, rerr p with
  | None, Some e => e
  | _, _ => ErrClosedPipe
  end.

Definition deliver (b : list byte) (budget : option nat) (p : pipe) : pipe :=
  {| delivered := delivered p ++ b; rerr := rerr p; werr := werr p;
     readerBudget := budget |}.

(** What a [Write] on the pipe comes to: the reader took all the bytes; the
    pipe is closed; or the reader has left without closing its end, and the
    write waits, which it does until the read end is closed. *)
Inductive writeResult : Type :=
| Written
| WriteError (e : error)
| WriteWaits.

(** [PipeWriter.Write(b)]: fails at once on a closed pipe; otherwise the
    reader takes the bytes, all of them, or as many as it still reads
    before it leaves, and the write waits with the rest. *)
Definition write (b : list byte) (p : pipe) : pipe * writeResult :=
  if done p then (p, WriteError (writeCloseError p))
  else
    match readerBudget p with
    | None => (deliver b None p, Written)
    | Some k =>
        if Nat.leb (List.length b) k then (deliver b (Some (k - List.length b)) p, Written)
        else (deliver (firstn k b) (Some 0) p, WriteWaits)
    end.

(** [PipeReader.Read] once the writer has nothing more to hand over: the
    error of a closed pipe. *)
Definition readAtEnd (p : pipe) : error := readCloseError p.

End Pipe.

(* ================================================================== *)
(** ** Package [backup] *)

Module Backup.

Import Pipe.

(** The raw archive stream: the standard output of [git archive].  Its reads
    return the chunks in turn, and then [lastRead] for ever: [EOF] at the
    end of the stream, or the failure of the read. *)
Record source : Type := {
  chunks : list (list byte);
  lastRead : error
}.

(** The compressor behind [gzip.Writer]: the writes to the underlying
    writer that a [Write] of a chunk causes, given all the input before it,
    and those that [Close] causes (the header, when nothing was written yet,
    the last blocks and the trailer). *)
Record compressor : Type := {
  emit : list byte -> list byte -> list (list byte);
  finish : list byte -> list (list byte)
}.

(** A [gzip.Writer] on the write end of the pipe: the input so far, its
    sticky error [z.err] and [z.closed]. *)
Record gzipWriter : Type := {
  consumed : list byte;
  zerr : option error;
  closed : bool
}.

Definition NewWriter : gzipWriter :=
  {| consumed := []; zerr := None; closed := false |}.

(** The writes to the pipe, in order, until one fails or waits. *)
Fixpoint writeAll (outs : list (list byte)) (p : pipe) : pipe * writeResult :=
  match outs with
  | [] => (p, Written)
  | b :: rest =>
      match write b p with
      | (p', Written) => writeAll rest p'
      | (p', res) => (p', res)
      end
  end.

(** The error a [gzip.Writer] keeps of a write to the pipe. *)
Definition stickyError (res : writeResult) : option error :=
  match res with
  | WriteError e => Some e
  | _ => None
  end.

(** [gzip.Writer.Write(b)]. *)
Definition gzipWrite (c : compressor) (b : list byte) (z : gzipWriter) (p : pipe)
  : gzipWriter * pipe * writeResult :=
  match zerr z with
  | Some e => (z, p, WriteError e)
  | None =>
      let '(p', res) := writeAll (emit c (consumed z) b) p in
      ({| consumed := consumed z ++ b; zerr := stickyError res; closed := closed z |},
       p', res)
  end.

(** [gzip.Writer.Close()]. *)
Definition gzipClose (c : compressor) (z : gzipWriter) (p : pipe)
  : gzipWriter * pipe * writeResult :=
  match zerr z with
  | Some e => (z, p, WriteError e)
  | None =>
      if closed z then (z, p, Written)
      else
        let '(p', res) := writeAll (finish c (consumed z)) p in
        ({| consumed := consumed z; zerr := stickyError res; closed := true |}, p', res)
  end.

(** How [io.Copy] stops: at the end of the source, on a failed read of the
    source, or on a failed write to the destination. *)
Inductive copyStop : Type :=
| SrcEOF
| SrcFailed (e : error)
| DstFailed (e : error).

(** The error [io.Copy] returns. *)
Definition copyError (s : copyStop) : option error :=
  match s with
  | SrcEOF => None
  | SrcFailed e => Some e
  | DstFailed e => Some e
  end.

(** What [io.Copy] comes to: it stops, or it waits in a write, with the
    chunks of the source it has not read yet. *)
Inductive copyResult : Type :=
| CopyStops (stop : copyStop)
| CopyWaits (unread : list (list byte)).

(** [io.Copy(gzipWriter, src)]: every chunk read is written, until a write
    fails or waits, or a read returns an error; [EOF] is the clean end.  A
    write without error takes the whole chunk, so [ErrShortWrite] does not
    arise. *)
Fixpoint ioCopy (c : compressor) (reads : list (list byte)) (last : error)
  (z : gzipWriter) (p : pipe) : gzipWriter * pipe * copyResult :=
  match reads with
  | [] =>
      match last with
      | EOF => (z, p, CopyStops SrcEOF)
      | e => (z, p, CopyStops (SrcFailed e))
      end
  | b :: rest =>
      match gzipWrite c b z p with
      | (z', p', Written) => ioCopy c rest last z' p'
      | (z', p', WriteError ew) => (z', p', CopyStops (DstFailed ew))
      | (z', p', WriteWaits) => (z', p', CopyWaits rest)
      end
  end.

(** Where the goroutine of [GzipPipe] is when the upload is over: at its
    end, with the pipe as it left it, how the copy stopped and the lines it
    logged; or waiting in a write of the copy, with the chunks of the source
    it has not read; or waiting in a write of the deferred [Close] of the
    gzip writer, after the copy and the two log lines. *)
Inductive goroutine : Type :=
| Ended (p : pipe) (stop : copyStop) (logs : list event)
| WaitsInCopy (p : pipe) (unread : list (list byte))
| WaitsInClose (p : pipe) (stop : copyStop) (logs : list event).

(** The error the deferred function closes the write end with: the error
    of the copy when there is one, the error of the close otherwise. *)
Definition closingError (err cerr : option error) : option error :=
  match err, cerr with
  | None, Some ce => Some ce
  | _, _ => err
  end.

(** The goroutine of [GzipPipe] against the upload: the copy, the log
    lines, then the deferred function, which closes the gzip writer and
    closes the write end of the pipe with [closingError]. *)
Definition startGoroutine (c : compressor) (src : source) (p : pipe) : goroutine :=
  match ioCopy c (chunks src) (lastRead src) NewWriter p with
  | (_, p1, CopyWaits unread) => WaitsInCopy p1 unread
  | (z, p1, CopyStops stop) =>
      let err := copyError stop in
      let logs := match err with
                  | Some e => [Log (LogGzipCopyError e)]
                  | None => []
                  end ++ [Log LogGzipFinished] in
      match gzipClose c z p1 with
      | (_, p2, WriteWaits) => WaitsInClose p2 stop logs
      | (_, p2, res) => Ended (closeWrite (closingError err (stickyError res)) p2) stop logs
      end
  end.

(** The pipe of a goroutine, as the upload left it. *)
Definition pipeOf (g : goroutine) : pipe :=
  match g with
  | Ended p _ _ => p
  | WaitsInCopy p _ => p
  | WaitsInClose p _ _ => p
  end.

(** The lines the goroutine has logged so far. *)
Definition logsOf (g : goroutine) : list event :=
  match g with
  | Ended _ _ logs => logs
  | WaitsInCopy _ _ => []
  | WaitsInClose _ _ logs => logs
  end.

(** The rest of the run of the goroutine once the read end is closed by
    [gzipReader.Close()]: the write that waited returns the error of the
    closed pipe.  In the copy, this is the error of the copy, which is
    logged, and the gzip writer, which keeps it, writes nothing more; in
    the deferred function, it is the error of the close.  The result is the
    pipe at the end of the goroutine, how the copy stopped and all the
    lines logged. *)
Definition releaseGoroutine (g : goroutine) : pipe * copyStop * list event :=
  match g with
  | Ended p stop logs => (p, stop, logs)
  | WaitsInCopy p _ =>
      let p' := closeRead None p in
      let e := writeCloseError p' in
      (closeWrite (Some e) p', DstFailed e,
       [Log (LogGzipCopyError e); Log LogGzipFinished])
  | WaitsInClose p stop logs =>
      let p' := closeRead None p in
      let ce := writeCloseError p' in
      (closeWrite (closingError (copyError stop) (Some ce)) p', stop, logs)
  end.

(** The whole run of the goroutine, which it completes when the read end is
    closed under a write that waits: the pipe at its end, how the copy
    stopped, and the lines logged. *)
Definition gzipGoroutine (c : compressor) (src : source) (p : pipe)
  : pipe * copyStop * list event :=
  releaseGoroutine (startGoroutine c src p).

(** [GzipPipe(src)]: the pipe is made, the goroutine is started on its
    write end and the read end is returned, with no error.  The model runs
    the goroutine against the reader the pipe was made for, up to its end
    or to the write in which it waits. *)
Definition GzipPipe (c : compressor) (src : source) (budget : option nat)
  : result goroutine :=
  Ok (startGoroutine c src (newPipe budget)).

(** The object key of a commit: [s3Key] of [RunBackup]. *)
Definition s3Key (cfg : BackupConfig) (commitHash : string) : string :=
  let backupFilename := ("commit-" ++ commitHash ++ ".tar.gz")%string in
  if negb (String.eqb (Prefix cfg) EmptyString) then
    let cleanPrefix := Strings.Trim (Prefix cfg) slash in
    if negb (String.eqb cleanPrefix EmptyString)
    then (cleanPrefix ++ "/" ++ backupFilename)%string
    else backupFilename
  else backupFilename.

(** The collaborators of [RunBackup].
    - [loadDefaultConfig cfg] is the error of [awsConfig.LoadDefaultConfig];
    - [stdoutPipeErr] is the error of [cmdArchive.StdoutPipe()];
    - [archiveStart repo commit] is [cmdArchive.Start()]: the stream of the
      started process, or the error;
    - [archiveWait repo commit] is the error of [cmdArchive.Wait()] when
      the process exits, and [archiveStderr repo commit] what the process
      wrote on its standard error by then;
    - [stdoutBuffer] is the room in the pipe of the standard output of the
      process: the bytes it can still write when nobody reads them;
    - [gzip] is the compressor;
    - [uploadBudget] is how much of the body the upload reads ([None]: all
      of it) and [uploadAbort] the error it gives when it reads less;
    - [uploadBodyError e] is the error of the upload when the read of its
      body fails with [e];
    - [storeObject bucket key body] is the answer of the object store to a
      body it received whole. *)
Record backupWorld : Type := {
  loadDefaultConfig : BackupConfig -> option error;
  stdoutPipeErr : option error;
  archiveStart : string -> string -> result source;
  archiveWait : string -> string -> option error;
  archiveStderr : string -> string -> string;
  stdoutBuffer : nat;
  gzip : compressor;
  uploadBudget : option nat;
  uploadAbort : error;
  uploadBodyError : error -> error;
  storeObject : string -> string -> list byte -> option error
}.

(** [s3Client.PutObject] with the read end of the pipe as its body, on the
    pipe at the end of the goroutine: the upload fails when it stopped
    reading before the end, which shows in a read end that had to be closed,
    or when the body ended with an error; a body that ended with [EOF] is
    sent whole. *)
Definition putObject (b : backupWorld) (bucket key : string) (p : pipe)
  : option error :=
  match rerr p with
  | Some _ => Some (uploadAbort b)
  | None =>
      match readAtEnd p with
      | EOF => storeObject b bucket key (delivered p)
      | e => Some (uploadBodyError b e)
      end
  end.

(** The result of the upload when it is over: that of [putObject] when
    the goroutine has ended; the error of an upload that stopped reading
    when the goroutine waits for it. *)
Definition uploadResult (b : backupWorld) (bucket key : string) (g : goroutine)
  : option error :=
  match g with
  | Ended p _ _ => putObject b bucket key p
  | _ => Some (uploadAbort b)
  end.

(** Whether the archive process exits, which it does once it has written
    all its output.  It has when the copy has read its output to the end,
    a failed read being the end of what there is to read; when the
    goroutine waits in the copy nobody reads the rest, and the process gets
    to its exit only if the rest fits in the pipe of its standard output. *)
Definition archiveExits (b : backupWorld) (g : goroutine) : bool :=
  match g with
  | WaitsInCopy _ unread => Nat.leb (List.length (concat unread)) (stdoutBuffer b)
  | _ => true
  end.

(** [RunBackup(repoPath, commitHash, cfg)]: the error it returns, if it
    returns, and what it did until then.  The endpoint, the region and the
    credentials are handed to the SDK and have no other effect; the line
    logged when the region of the loaded SDK configuration is overridden is
    left out.

    The read end of the pipe is closed by the deferred [gzipReader.Close()],
    when [RunBackup] returns: a goroutine that waits in a write goes on only
    then ([releaseGoroutine]), and what it logs then is not part of what
    [RunBackup] did.  [cmdArchive.Wait()] comes before that and returns
    when the archive process exits. *)
Definition RunBackup (b : backupWorld) (repoPath commitHash : string)
  (cfg : BackupConfig) : completion (option error) * list event :=
  let t0 := [Log (LogBackupProcess commitHash)] in
  if String.eqb (Bucket cfg) EmptyString then
    (Returns (Some (Errorf "backup config error: S3 bucket name is required")), t0)
  else
    let t1 := t0 ++ [Log LogConfiguringS3]
              ++ [Log (if negb (String.eqb (AccessKeyID cfg) EmptyString)
                          && negb (String.eqb (SecretKey cfg) EmptyString)
                       then LogStaticCredentials else LogDefaultCredentials)] in
    match loadDefaultConfig b cfg with
    | Some err => (Returns (Some (Wrapf "failed to load AWS SDK config" err)), t1)
    | None =>
        let key := s3Key cfg commitHash in
        let s3Path := ("s3://" ++ Bucket cfg ++ "/" ++ key)%string in
        let t2 := t1 ++ [Log (LogTargetKey s3Path); Log LogCreatingArchive] in
        match stdoutPipeErr b with
        | Some err =>
            (Returns (Some (Wrapf "failed to get stdout pipe for git archive" err)), t2)
        | None =>
            match archiveStart b repoPath commitHash with
            | Err err => (Returns (Some (Wrapf "failed to start git archive" err)), t2)
            | Ok stdoutPipe =>
                let t3 := t2 ++ [ArchiveStarted repoPath commitHash] in
                match GzipPipe (gzip b) stdoutPipe (uploadBudget b) with
                | Err err => (Returns (Some (Wrapf "failed to setup gzip pipe" err)), t3)
                | Ok gzipReader =>
                    let uploadErr := uploadResult b (Bucket cfg) key gzipReader in
                    let t4 := t3 ++ [Log LogStartingUpload] ++ logsOf gzipReader
                              ++ [PutObject (Bucket cfg) key
                                    (delivered (pipeOf gzipReader)) uploadErr] in
                    if archiveExits b gzipReader then
                      let archiveErr := archiveWait b repoPath commitHash in
                      let stderr := archiveStderr b repoPath commitHash in
                      let t5 := t4 ++ [ArchiveWaited archiveErr] in
                      match uploadErr with
                      | Some ue =>
                          (Returns
                             (Some (Wrapf ("failed to upload to S3 (" ++ s3Path ++ ")") ue)),
                           t5 ++ match archiveErr with
                                 | Some ae => [Log (LogArchiveAlsoFailed stderr ae)]
                                 | None => []
                                 end)
                      | None =>
                          match archiveErr with
                          | Some ae =>
                              (Returns
                                 (Some (Wrapf
                                          ("git archive command failed after upload (stderr: "
                                           ++ stderr ++ ")") ae)), t5)
                          | None => (Returns None, t5 ++ [Log (LogUploadSucceeded s3Path)])
                          end
                      end
                    else (Blocks, t4 ++ [ArchiveWaitBlocks])
                end
            end
        end
    end.

End Backup.

(* ================================================================== *)
(** ** Package [monitor] *)

Module Monitor.

(** Everything outside the program that a check cycle consults. *)
Record world : Type := {
  git : gitWorld;
  store : Backup.backupWorld
}.

(** The package variables: the tracked commit, the repository, the mutex
    that lets one check run at a time ([true] when it is held), and the
    configuration. *)
Record monitorState : Type := {
  lastKnownHash : string;
  repoPath : string;
  processingMu : bool;
  appConfig : Config
}.

Definition setLastKnownHash (h : string) (st : monitorState) : monitorState :=
  {| lastKnownHash := h; repoPath := repoPath st;
     processingMu := processingMu st; appConfig := appConfig st |}.

Definition setProcessingMu (held : bool) (st : monitorState) : monitorState :=
  {| lastKnownHash := lastKnownHash st; repoPath := repoPath st;
     processingMu := held; appConfig := appConfig st |}.

(** The part of [handleCommitCheck] that handles a commit found new: the
    statements of the first branch of its [if], from the assignment of
    [originalLastHash] on.  The result is the package variables when it is
    over, what it did, and whether it returns: it does not when [RunBackup]
    does not. *)
Definition processNewCommit (w : world) (currentHash : string) (st : monitorState)
  : monitorState * list event * bool :=
  let commitHashToProcess := currentHash in
  let originalLastHash := lastKnownHash st in
  let st1 := setLastKnownHash currentHash st in
  let t1 := [SetLastKnownHash (lastKnownHash st1);
             CallGetChangedFiles (repoPath st1) commitHashToProcess] in
  match Gitutil.GetChangedFilesInCommit (git w) (repoPath st1) commitHashToProcess with
  | Err err =>
      let st2 := setLastKnownHash originalLastHash st1 in
      (st2,
       t1 ++ [Log (LogChangedFilesError commitHashToProcess err);
              SetLastKnownHash (lastKnownHash st2)],
       true)
  | Ok changedFiles =>
      let t2 := t1 ++ [Log (LogValidationStart commitHashToProcess);
                       CallValidate (repoPath st1) changedFiles] in
      let '(isValid, validationErrors) :=
        Validator.Validate (git w) (repoPath st1) changedFiles in
      if isValid then
        let t3 := t2 ++ [Log (LogValidationPassed commitHashToProcess);
                         Log (LogBackupStart commitHashToProcess);
                         CallRunBackup (repoPath st1) commitHashToProcess] in
        let '(err, tb) :=
          Backup.RunBackup (store w) (repoPath st1) commitHashToProcess
            (Backup (appConfig st1)) in
        match err with
        | Returns (Some e) =>
            (st1, t3 ++ tb ++ [Log (LogBackupFailed commitHashToProcess e)], true)
        | Returns None =>
            (st1, t3 ++ tb ++ [Log (LogBackupSucceeded commitHashToProcess)], true)
        | Blocks => (st1, t3 ++ tb, false)
        end
      else
        (st1,
         t2 ++ [Log (LogValidationFailed commitHashToProcess)]
            ++ map (fun verr => Log (LogViolation verr)) validationErrors
            ++ [Log (LogBackupSkipped commitHashToProcess)],
         true)
  end.

(** The body of [handleCommitCheck] once the mutex is held. *)
Definition checkCommit (w : world) (st : monitorState)
  : monitorState * list event * bool :=
  let t0 := [Log LogDebounceTriggered; CallGetCurrentCommitHash (repoPath st)] in
  match Gitutil.GetCurrentCommitHash (git w) (repoPath st) with
  | Err err => (st, t0 ++ [Log (LogHashError err)], true)
  | Ok currentHash =>
      if negb (String.eqb currentHash EmptyString)
         && negb (String.eqb currentHash (lastKnownHash st)) then
        let '(st', t, returns) := processNewCommit w currentHash st in
        (st', t0 ++ [Log (LogNewCommit (lastKnownHash st) currentHash)] ++ t, returns)
      else if String.eqb currentHash (lastKnownHash st) then
        (st, t0 ++ [Log LogNoNewCommit], true)
      else
        (st, t0 ++ [Log LogEmptyHash], true)
  end.

(** [handleCommitCheck]: [TryLock], and when it succeeds the body, followed
    by the deferred [Unlock] whatever way the body returns.  When the body
    does not return the mutex stays held; the result is then the package
    variables and what was done when the call got stuck. *)
Definition handleCommitCheck (w : world) (st : monitorState)
  : monitorState * list event :=
  if processingMu st then
    (st, [TryLock false; Log LogAlreadyInProgress])
  else
    let '(st', t, returns) := checkCommit w (setProcessingMu true st) in
    if returns then (setProcessingMu false st', [TryLock true] ++ t ++ [Unlock])
    else (st', [TryLock true] ++ t).

(** *** Startup *)

(** [os.Stat]: found, not found ([os.IsNotExist]), or another error. *)
Inductive statResult : Type :=
| StatOk
| StatNotExist
| StatError (e : error).

(** A file tree as [filepath.WalkDir] finds it: files, and directories with
    the entries [os.ReadDir] lists, in its order, and the error it gives
    with them, if any. *)
#[warnings="-register-all"]
Inductive fsnode : Type :=
| FsFile (name : string)
| FsDir (name : string) (readErr : option error) (entries : list fsnode).

Definition nodeName (d : fsnode) : string :=
  match d with
  | FsFile name => name
  | FsDir name _ _ => name
  end.

(** The file system and the watcher at startup.
    - [stat path] is [os.Stat];
    - [lstat root] is what [WalkDir] finds at its root: the tree, or the
      error of [os.Lstat];
    - [newWatcher] is the error of [fsnotify.NewWatcher()];
    - [watcherAdd watched path] is the error of [watcher.Add(path)] when the
      paths in [watched] are watched already. *)
Record startWorld : Type := {
  stat : string -> statResult;
  lstat : string -> result fsnode;
  newWatcher : option error;
  watcherAdd : list string -> string -> option error
}.

(** The watcher: the paths it watches, and the trace so far. *)
Definition watcher : Type := (list string * list event)%type.

(** [watcher.Add(path)]: the error, and the watcher after the call. *)
Definition addWatch (sw : startWorld) (path : string) (wt : list string)
  : list string * option error :=
  match watcherAdd sw wt path with
  | Some e => (wt, Some e)
  | None => (if existsb (String.eqb path) wt then wt else wt ++ [path], None)
  end.

(** The function [addRecursiveWatch] gives to [WalkDir], for an entry found
    without error: [true] is [filepath.SkipDir], [false] is [nil]. *)
Definition visit (sw : startWorld) (path : string) (isDir : bool) (w : watcher)
  : watcher * bool :=
  if isDir then
    let base := Filepath.Base path in
    if String.eqb base "objects" || String.eqb base "hooks" then (w, true)
    else
      match addWatch sw path (fst w) with
      | (wt, Some e) => ((wt, snd w ++ [Log (LogAddDirFailed path e)]), false)
      | (wt, None) => ((wt, snd w), false)
      end
  else (w, false).

(** The same function called with an error: it logs and goes on. *)
Definition visitError (path : string) (walkErr : error) (w : watcher) : watcher :=
  (fst w, snd w ++ [Log (LogWalkError path walkErr)]).

(** [walkDir] of [path/filepath] with that function: the entry is visited;
    a directory that is not skipped is read, a read error is reported by a
    second call, and the entries listed are walked in order. *)
Fixpoint walkDir (sw : startWorld) (path : string) (d : fsnode) (w : watcher)
  : watcher :=
  match d with
  | FsFile _ => fst (visit sw path false w)
  | FsDir _ readErr entries =>
      match visit sw path true w with
      | (w1, true) => w1
      | (w1, false) =>
          let w2 := match readErr with
                    | Some e => visitError path e w1
                    | None => w1
                    end in
          fold_left
            (fun acc d1 => walkDir sw (Filepath.Join [path; nodeName d1]) d1 acc)
            entries w2
      end
  end.

(** [filepath.WalkDir(root, fn)]; the function never returns an error of its
    own, so the walk returns [nil]. *)
Definition WalkDir (sw : startWorld) (root : string) (w : watcher) : watcher :=
  match lstat sw root with
  | Err e => visitError root e w
  | Ok d => walkDir sw root d w
  end.

(** [addRecursiveWatch(watcher, rootPath)]. *)
Definition addRecursiveWatch (sw : startWorld) (rootPath : string) (w : watcher)
  : watcher * option error :=
  let w1 := WalkDir sw rootPath w in
  match addWatch sw rootPath (fst w1) with
  | (wt, Some e) => ((wt, snd w1 ++ [Log (LogAddRootFailed rootPath e)]), Some e)
  | (wt, None) => ((wt, snd w1), None)
  end.

(** The loop of [Start] over [pathsToWatch]: the watcher and [watchErrors]. *)
Fixpoint addWatches (sw : startWorld) (pathsToWatch : list string)
  (w : watcher) (watchErrors : nat) : watcher * nat :=
  match pathsToWatch with
  | [] => (w, watchErrors)
  | p :: rest =>
      match stat sw p with
      | StatOk =>
          let w0 := (fst w, snd w ++ [Log (LogAddingWatch p)]) in
          match addRecursiveWatch sw p w0 with
          | (w1, Some e) =>
              addWatches sw rest (fst w1, snd w1 ++ [Log (LogAddWatchFailed p e)])
                (S watchErrors)
          | (w1, None) => addWatches sw rest w1 watchErrors
          end
      | _ => addWatches sw rest (fst w, snd w ++ [Log (LogPathMissing p)]) watchErrors
      end
  end.

(** How [Start] goes on after its setup: the process is terminated by
    [log.Fatal], or the event loop is entered with the package variables
    and the watcher as they are then. *)
Inductive startOutcome : Type :=
| Fatal (t : list event)
| EventLoop (st : monitorState) (watched : list string) (t : list event).

(** [Start(cfg)], up to the event loop. *)
Definition Start (sw : startWorld) (g : gitWorld) (cfg : Config) : startOutcome :=
  let repoPath := RepoPath cfg in
  let gitDir := Filepath.Join [repoPath; ".git"] in
  match stat sw gitDir with
  | StatNotExist => Fatal [Log (LogFatalNoGitDir repoPath)]
  | _ =>
      let '(hash, t0) :=
        match Gitutil.GetCurrentCommitHash g repoPath with
        | Err err => (EmptyString, [Log (LogInitialHashWarning repoPath err)])
        | Ok h => (h, [])
        end in
      let t1 := t0 ++ [Log (LogStartingMonitoring repoPath)]
                ++ (if negb (String.eqb hash EmptyString)
                    then [Log (LogInitialHash hash)] else []) in
      match newWatcher sw with
      | Some err => Fatal (t1 ++ [Log (LogFatalWatcher err)])
      | None =>
          let pathsToWatch := [gitDir; Filepath.Join [gitDir; "refs"]] in
          let '(w, watchErrors) := addWatches sw pathsToWatch ([], t1) 0 in
          let t2 := snd w
                    ++ (if Nat.ltb 0 watchErrors
                        then [Log (LogWatchErrors watchErrors)] else [])
                    ++ [Log LogWatcherStarted] in
          EventLoop {| lastKnownHash := hash; repoPath := repoPath;
                       processingMu := false; appConfig := cfg |}
                    (fst w) t2
      end
  end.

End Monitor.

(* ================================================================== *)
(** ** The event loop of [Start] and its debounce timer *)

(** Package [fsnotify]: the operations of an event, a bit each. *)
Module Fsnotify.

Definition Create : Z := 1.
Definition Write : Z := 2.
Definition Remove : Z := 4.
Definition Rename : Z := 8.
Definition Chmod : Z := 16.

Record Event : Type := {
  Name : string;
  Op : Z
}.

(** [event.Has(op)]: the event has the operation.  The operations asked for
    are one bit each, for which [o&h == h] and [o&h != 0] are one test. *)
Definition Has (event : Event) (op : Z) : bool :=
  negb (Z.eqb (Z.land (Op event) op) 0).

End Fsnotify.

(** Package [time], as far as [time.AfterFunc] needs it.  Durations and the
    readings of the monotonic clock are 64-bit integers, in nanoseconds. *)
Module Time.

Definition Second : Z := 1000000000.

Definition maxInt64 : Z := 9223372036854775807.

(** The value of a signed 64-bit integer after an overflow. *)
Definition wrap64 (z : Z) : Z :=
  ((z + 9223372036854775808) mod 18446744073709551616 - 9223372036854775808)%Z.

(** [time.Duration(n) * unit]. *)
Definition mul (n unit : Z) : Z := wrap64 (n * unit).

(** [when(d)] of the runtime, at the clock reading [now]: the time a timer
    of duration [d] is due.  A duration that is not positive makes it due
    at once, and an overflow of the sum makes it due at the end of time. *)
Definition when (now d : Z) : Z :=
  if Z.leb d 0 then now
  else
    let t := wrap64 (now + d) in
    if Z.ltb t 0 then maxInt64 else t.

End Time.

Module EventLoop.

(** What an iteration of the loop receives in its [select]: a value of
    [watcher.Events] or of [watcher.Errors], or the news that the channel
    is closed. *)
Inductive received : Type :=
| Event (event : Fsnotify.Event)
| EventsClosed
| WatcherError (err : error)
| ErrorsClosed.

(** The lines the loop logs. *)
Inductive loopLog : Type :=
| LogEventsClosed
| LogErrorsClosed
| LogWatcherError (err : error).

(** What the loop and its timer do: the timer due at [due] calls
    [handleCommitCheck] in a goroutine of its own; the loop logs a line;
    [Start] returns. *)
Inductive loopEvent : Type :=
| CallHandleCommitCheck (due : Z)
| LoopLog (l : loopLog)
| StartReturns.

(** [debounceDuration]. *)
Definition debounceDuration (cfg : Config) : Z :=
  Time.mul (DebounceSecs cfg) Time.Second.

(** The condition under which an event resets the timer. *)
Definition resetsTimer (event : Fsnotify.Event) : bool :=
  Fsnotify.Has event Fsnotify.Write
  || Fsnotify.Has event Fsnotify.Create
  || Fsnotify.Has event Fsnotify.Rename.

(** The variable [debounceTimer] is modelled by the time the timer it
    points to is due, as long as that timer has neither been stopped nor
    started its call; [None] stands for [nil] and for a timer that is over.

    [elapse started now debounceTimer]: the clock reads [now] when the loop
    handles a value.  A timer that is not due yet is pending.  A timer that
    is due runs [handleCommitCheck] in a goroutine of its own, which the
    runtime starts some time after the timer is due: [started] says whether
    it has by now.  When it has not, the timer is still pending, and a
    [Stop] cancels it. *)
Definition elapse (started : bool) (now : Z) (debounceTimer : option Z)
  : list loopEvent * option Z :=
  match debounceTimer with
  | Some due =>
      if Z.leb due now && started then ([CallHandleCommitCheck due], None)
      else ([], Some due)
  | None => ([], None)
  end.

(** Nothing stops the timer any more: it makes its call when it is due. *)
Definition expire (debounceTimer : option Z) : list loopEvent :=
  match debounceTimer with
  | Some due => [CallHandleCommitCheck due]
  | None => []
  end.

(** The loop [for { select { ... } }] of [Start].  Every value received
    comes with the reading of the clock when the loop handles it, and
    [started k] says, for the value received [k] places from here, whether a
    timer that is due by then has started its call.  An event that resets
    the timer stops the one there is, which has no effect on a timer that
    started its call and cancels any other, and starts a new one with
    [time.AfterFunc].  [Start] returns on a closed channel; the process goes
    on, waiting for a signal, and so does the timer.  When nothing more is
    received the loop waits for ever. *)
Fixpoint eventLoop (started : nat -> bool) (cfg : Config)
  (inputs : list (Z * received)) (debounceTimer : option Z) : list loopEvent :=
  match inputs with
  | [] => expire debounceTimer
  | (now, r) :: rest =>
      let later := fun k => started (S k) in
      let '(calls, debounceTimer1) := elapse (started 0) now debounceTimer in
      calls ++
      match r with
      | Event event =>
          if resetsTimer event then
            eventLoop later cfg rest (Some (Time.when now (debounceDuration cfg)))
          else eventLoop later cfg rest debounceTimer1
      | EventsClosed =>
          [LoopLog LogEventsClosed; StartReturns] ++ expire debounceTimer1
      | WatcherError err =>
          LoopLog (LogWatcherError err) :: eventLoop later cfg rest debounceTimer1
      | ErrorsClosed =>
          [LoopLog LogErrorsClosed; StartReturns] ++ expire debounceTimer1
      end
  end.

End EventLoop.

(* ================================================================== *)
(** * Properties *)

(** ** Specification-level vocabulary *)

(** Every byte of the string is the given one. *)
Fixpoint allBytes (c : ascii) (s : string) : bool :=
  match s with
  | EmptyString => true
  | String a s' => Ascii.eqb a c && allBytes c s'
  end.

(** The first and the last byte of a string. *)
Definition firstByte (s : string) : option ascii :=
  match s with
  | EmptyString => None
  | String a _ => Some a
  end.

Fixpoint lastByte (s : string) : option ascii :=
  match s with
  | EmptyString => None
  | String a s' => match s' with EmptyString => Some a | _ => lastByte s' end
  end.

Definition isNil {A : Type} (l : list A) : bool :=
  match l with
  | [] => true
  | _ :: _ => false
  end.

Definition startsWithByte (c : ascii) (s : string) : bool :=
  match firstByte s with
  | Some a => Ascii.eqb a c
  | None => false
  end.

Definition endsWithByte (c : ascii) (s : string) : bool :=
  match lastByte s with
  | Some a => Ascii.eqb a c
  | None => false
  end.

(** The path checks of [Validate], without the check of the index: the
    loop over the changed files from the initial state. *)
Definition pathChecks (changedFiles : list string) : Validator.vstate :=
  fold_left (fun st file => Validator.checkFile file st) changedFiles
    {| Validator.errors := []; Validator.isValid := true |}.

(** The message [Validate] records for a required file that is missing. *)
Definition missingRequired (reqFile : string) : string :=
  "Required file '" ++ reqFile ++ "' not found in repository index.".

(** Classes of events. *)
Definition isSetHash (ev : event) : bool :=
  match ev with
  | SetLastKnownHash _ => true
  | _ => false
  end.

Definition isLockEvent (ev : event) : bool :=
  match ev with
  | TryLock _ | Unlock => true
  | _ => false
  end.

Definition isCallRunBackup (ev : event) : bool :=
  match ev with
  | CallRunBackup _ _ => true
  | _ => false
  end.

Definition isPutObject (ev : event) : bool :=
  match ev with
  | PutObject _ _ _ _ => true
  | _ => false
  end.

(** The archive pipeline at work: its invocation, the start of the archive
    process, the upload, the wait for the process. *)
Definition isPipelineEvent (ev : event) : bool :=
  match ev with
  | CallRunBackup _ _ | ArchiveStarted _ _ | PutObject _ _ _ _ | ArchiveWaited _
  | ArchiveWaitBlocks => true
  | _ => false
  end.

(** What [RunBackup] itself does. *)
Definition isBackupEvent (ev : event) : bool :=
  match ev with
  | Log _ | ArchiveStarted _ _ | PutObject _ _ _ _ | ArchiveWaited _
  | ArchiveWaitBlocks => true
  | _ => false
  end.

Definition isLog (ev : event) : bool :=
  match ev with
  | Log _ => true
  | _ => false
  end.

(** Log lines of the startup. *)
Definition isAddWatchFailed (ev : event) : bool :=
  match ev with
  | Log (LogAddWatchFailed _ _) => true
  | _ => false
  end.

Definition isWatchErrors (ev : event) : bool :=
  match ev with
  | Log (LogWatchErrors _) => true
  | _ => false
  end.

(** What the walk of one listed path logs. *)
Definition isWalkLog (ev : event) : bool :=
  match ev with
  | Log (LogAddDirFailed _ _) | Log (LogWalkError _ _) | Log (LogAddRootFailed _ _) => true
  | _ => false
  end.

Definition isNone {A : Type} (o : option A) : bool :=
  match o with
  | None => true
  | Some _ => false
  end.

Definition isStatNotExist (r : Monitor.statResult) : bool :=
  match r with
  | Monitor.StatNotExist => true
  | _ => false
  end.

(** *** The name-status listing of a commit *)

(** The lines [git show --name-status] prints for a commit: a rename and a
    copy, with their similarity score and the two paths, a deletion, and any
    other change with its status letters. *)
Inductive nsLine : Type :=
| Renamed (score oldPath newPath : string)
| Copied (score oldPath newPath : string)
| Deleted (path : string)
| Changed (status path : string).

Definition renderLine (l : nsLine) : string :=
  match l with
  | Renamed score oldPath newPath =>
      "R" ++ score ++ String tab (oldPath ++ String tab newPath)
  | Copied score oldPath newPath =>
      "C" ++ score ++ String tab (oldPath ++ String tab newPath)
  | Deleted path => "D" ++ String tab path
  | Changed status path => status ++ String tab path
  end.

(** The listing as text: every line ends with a newline. *)
Fixpoint renderListing (ls : list nsLine) : string :=
  match ls with
  | [] => EmptyString
  | l :: rest => renderLine l ++ String nl (renderListing rest)
  end.

(** The ChangeSet of the specification: the destination of a rename or a
    copy, nothing for a deletion, the path of any other line, in the order
    of the listing. *)
Definition contribution (l : nsLine) : list string :=
  match l with
  | Renamed _ _ newPath => [newPath]
  | Copied _ _ newPath => [newPath]
  | Deleted _ => []
  | Changed _ path => [path]
  end.

Definition changeSetOf (ls : list nsLine) : list string := flat_map contribution ls.


(** The string starts, or ends, with a white-space rune. *)
Definition startsWithSpace (s : string) : bool :=
  existsb (fun w => Strings.HasPrefix s w) Strings.spaceRunes.

Definition endsWithSpace (s : string) : bool :=
  existsb (fun w => Strings.HasSuffix s w) Strings.spaceRunes.




(** *** The environment of a backup that goes well *)

(** The bucket is configured, no key prefix is, the SDK loads, the archive
    process starts, its stream ends cleanly and it exits with success, the
    upload reads the whole body and the store accepts the object. *)
Definition healthyPipeline (b : Backup.backupWorld) (cfg : BackupConfig)
  (repoPath commitHash : string) : Prop :=
  Bucket cfg <> EmptyString
  /\ Prefix cfg = EmptyString
  /\ Backup.loadDefaultConfig b cfg = None
  /\ Backup.stdoutPipeErr b = None
  /\ (exists src, Backup.archiveStart b repoPath commitHash = Ok src
                  /\ Backup.lastRead src = EOF)
  /\ Backup.uploadBudget b = None
  /\ (forall key body, Backup.storeObject b (Bucket cfg) key body = None)
  /\ Backup.archiveWait b repoPath commitHash = None.

(** The two results of the validator agree: valid exactly when no violation
    is recorded. *)
Definition consistent (st : Validator.vstate) : Prop :=
  Validator.isValid st = isNil (Validator.errors st).

(** *** The language of a regular expression *)

Inductive lang : Regexp.re -> string -> Prop :=
| LangEps : lang Regexp.Eps EmptyString
| LangCls (neg : bool) (ranges : list (ascii * ascii)) (c : ascii) :
    Regexp.inClass neg ranges c = true ->
    lang (Regexp.Cls neg ranges) (str1 c)
| LangCat (r1 r2 : Regexp.re) (s1 s2 : string) :
    lang r1 s1 -> lang r2 s2 -> lang (Regexp.Cat r1 r2) (s1 ++ s2)
| LangAltL (r1 r2 : Regexp.re) (s : string) :
    lang r1 s -> lang (Regexp.Alt r1 r2) s
| LangAltR (r1 r2 : Regexp.re) (s : string) :
    lang r2 s -> lang (Regexp.Alt r1 r2) s
| LangStarNil (r : Regexp.re) : lang (Regexp.Star r) EmptyString
| LangStarCons (r : Regexp.re) (s1 s2 : string) :
    lang r s1 -> lang (Regexp.Star r) s2 -> lang (Regexp.Star r) (s1 ++ s2).

(** Every byte of the string satisfies the test. *)
Fixpoint forallBytes (f : ascii -> bool) (s : string) : bool :=
  match s with
  | EmptyString => true
  | String a s' => f a && forallBytes f s'
  end.

(* ================================================================== *)
(** ** More vocabulary *)

(** What a cycle does once it has decided that a commit is new: the
    assignments of the tracked hash and the calls of the collaborators. *)
Definition isWorkEvent (ev : event) : bool :=
  match ev with
  | SetLastKnownHash _ | CallGetChangedFiles _ _ | CallValidate _ _
  | CallRunBackup _ _ | ArchiveStarted _ _ | PutObject _ _ _ _ | ArchiveWaited _
  | ArchiveWaitBlocks => true
  | _ => false
  end.

Definition isArchiveStarted (ev : event) : bool :=
  match ev with
  | ArchiveStarted _ _ => true
  | _ => false
  end.

(** The calls of [cmdArchive.Wait()], whether they return or not. *)
Definition isArchiveWaited (ev : event) : bool :=
  match ev with
  | ArchiveWaited _ | ArchiveWaitBlocks => true
  | _ => false
  end.

Definition isCallValidate (ev : event) : bool :=
  match ev with
  | CallValidate _ _ => true
  | _ => false
  end.

(** The text of [s3Path] in [RunBackup]. *)
Definition s3PathOf (cfg : BackupConfig) (commitHash : string) : string :=
  "s3://" ++ Bucket cfg ++ "/" ++ Backup.s3Key cfg commitHash.

(** The error [RunBackup] returns once the upload was attempted and the
    archive process waited for: the error of the upload first, then the
    error of the process. *)
Definition backupResult (b : Backup.backupWorld) (cfg : BackupConfig)
  (repoPath commitHash : string) (uploadErr archiveErr : option error) : option error :=
  match uploadErr, archiveErr with
  | Some ue, _ => Some (Wrapf ("failed to upload to S3 (" ++ s3PathOf cfg commitHash ++ ")") ue)
  | None, Some ae =>
      Some (Wrapf ("git archive command failed after upload (stderr: "
                   ++ Backup.archiveStderr b repoPath commitHash ++ ")") ae)
  | None, None => None
  end.

(** *** The compressed stream *)

(** The writes a [gzip.Writer] makes on its underlying writer when the
    chunks are written to it in turn and it is closed, [consumed] being its
    input before them. *)
Fixpoint emitted (c : Backup.compressor) (consumed : list byte)
  (chunks : list (list byte)) : list (list byte) :=
  match chunks with
  | [] => Backup.finish c consumed
  | b :: rest => Backup.emit c consumed b ++ emitted c (consumed ++ b) rest
  end.

Definition compressedStream (c : Backup.compressor) (chunks : list (list byte))
  : list byte :=
  concat (emitted c [] chunks).

(** What a reader with the given budget takes of a sequence of bytes. *)
Definition takeBudget (budget : option nat) (l : list byte) : list byte :=
  match budget with
  | None => l
  | Some k => firstn k l
  end.

(** The budget left after [n] bytes were offered. *)
Definition spend (budget : option nat) (n : nat) : option nat :=
  match budget with
  | None => None
  | Some k => Some (k - n)
  end.

(** Whether an upload that reads [budget] bytes of its body ([None]: all of
    it) reads a body of [n] bytes to its end. *)
Definition fitsb (budget : option nat) (n : nat) : bool :=
  match budget with
  | None => true
  | Some k => Nat.leb n k
  end.

(** What became of a sequence of writes of [n] bytes in all to an open
    pipe: all were taken, and then the reader could take them; or one
    waits, and then the reader could not. *)
Definition taken (budget : option nat) (n : nat) (p' : Pipe.pipe)
  (res : Pipe.writeResult) : Prop :=
  match res with
  | Pipe.Written => fitsb budget n = true /\ Pipe.readerBudget p' = spend budget n
  | Pipe.WriteWaits => fitsb budget n = false
  | Pipe.WriteError _ => False
  end.

(** Where the goroutine is when the upload is over.  The upload has the
    compressed stream as far as it reads; the goroutine has ended exactly
    when the upload read the stream to its end, and the pipe is then
    closed by the writer alone, with the error of the last read of the
    source; the read end is open in every case. *)
Definition settledGoroutine (c : Backup.compressor) (last : error) (budget : option nat)
  (stream : list byte) (g : Backup.goroutine) : Prop :=
  Pipe.rerr (Backup.pipeOf g) = None
  /\ if fitsb budget (List.length stream)
     then exists p logs,
            g = Backup.Ended p (match last with
                                 | EOF => Backup.SrcEOF
                                 | e => Backup.SrcFailed e
                                 end) logs
            /\ Pipe.readAtEnd p = last
     else match g with
          | Backup.Ended _ _ _ => False
          | _ => Pipe.werr (Backup.pipeOf g) = None
          end.

(** The directories [addRecursiveWatch] takes for noisy, by their last
    element. *)
Definition isNoisyDir (path : string) : bool :=
  String.eqb (Filepath.Base path) "objects" || String.eqb (Filepath.Base path) "hooks".

(** A path that may be watched: one of the roots [R], or a directory that
    is not noisy. *)
Definition quietOrRoot (R : string -> Prop) (p : string) : Prop :=
  R p \/ isNoisyDir p = false.

(** *** The event loop *)

(** The times at which the timer called [handleCommitCheck]. *)
Definition checkTimes (t : list EventLoop.loopEvent) : list Z :=
  flat_map (fun ev => match ev with
                      | EventLoop.CallHandleCommitCheck due => [due]
                      | _ => []
                      end) t.

(** The times of the events that reset the timer, among what the loop
    receives before [Start] returns. *)
Fixpoint resetTimes (inputs : list (Z * EventLoop.received)) : list Z :=
  match inputs with
  | [] => []
  | (now, EventLoop.Event event) :: rest =>
      if EventLoop.resetsTimer event then now :: resetTimes rest
      else resetTimes rest
  | (_, EventLoop.WatcherError _) :: rest => resetTimes rest
  | (_, EventLoop.EventsClosed) :: _ => []
  | (_, EventLoop.ErrorsClosed) :: _ => []
  end.

(** A timer due at [due] makes its call when no reset comes before that
    time. *)
Definition survives (due : Z) (later : list Z) : list Z :=
  match later with
  | [] => [due]
  | next :: _ => if Z.leb due next then [due] else []
  end.

(** The quiet intervals of a sequence of reset times: for every reset that
    is not followed by another one within the duration [d], the time that
    is [d] after it. *)
Fixpoint settled (d : Z) (resets : list Z) : list Z :=
  match resets with
  | [] => []
  | t :: later => survives (Time.when t d) later ++ settled d later
  end.

Fixpoint nondecreasing (ts : list Z) : bool :=
  match ts with
  | [] => true
  | t :: later =>
      match later with
      | [] => true
      | next :: _ => Z.leb t next && nondecreasing later
      end
  end.

(** Every reset but the first comes before the timer of the one before it
    is due. *)
Fixpoint burst (d : Z) (resets : list Z) : bool :=
  match resets with
  | [] => true
  | t :: later =>
      match later with
      | [] => true
      | next :: _ => Z.ltb next (Time.when t d) && burst d later
      end
  end.

(** The first sequence is the second one with some of its elements left
    out. *)
Fixpoint subsequence (xs ys : list Z) : bool :=
  match ys with
  | [] => match xs with [] => true | _ :: _ => false end
  | y :: ys' =>
      match xs with
      | [] => true
      | x :: xs' => if Z.eqb x y then subsequence xs' ys' else subsequence xs ys'
      end
  end.

(** The function of a timer that is due has always started when the loop
    handles the next value. *)
Definition prompt (started : nat -> bool) : Prop := forall k, started k = true.

(** *** The validator, file by file *)

(** The violations of one changed file, checked by itself. *)
Definition fileViolations (file : string) : list string :=
  Validator.errors
    (Validator.checkFile file {| Validator.errors := []; Validator.isValid := true |}).

(** The violations for the required files missing from the index. *)
Definition requiredViolations (g : gitWorld) (repoPath : string) : list string :=
  Validator.errors
    (Validator.checkRequired g repoPath
       {| Validator.errors := []; Validator.isValid := true |}).

(** The message recorded for a path with a space. *)
Definition spaceViolation (file : string) : string :=
  "Path contains spaces: '" ++ file ++ "'".

(** The two violations about the case of a directory name. *)
Definition isCaseViolation (m : string) : bool :=
  Strings.HasPrefix m "'src' directory component must be lowercase"
  || Strings.HasPrefix m "'exports' directory component must be lowercase".

Definition notCase (m : string) : Prop := isCaseViolation m = false.

(** *** Names that follow the policy *)

Definition projectExtensions : list string :=
  ["flp"; "rpp"; "song"; "project"; "cpr"; "ptx"; "logicx"; "als"].

Definition exportExtensions : list string := ["mp3"; "wav"; "flac"].

Definition exportStatuses : list string :=
  ["progress"; "unmixed"; "rough"; "mixed"; "finalmix"; "roughmaster"; "mastered";
   "finalmaster"].

(** The project file of a project folder, and an export of it. *)
Definition projectFilePath (folder ext : string) : string :=
  "src/projects/" ++ folder ++ "/" ++ folder ++ "." ++ ext.

Definition exportFilePath (folder status ext : string) : string :=
  "src/projects/" ++ folder ++ "/exports/" ++ folder ++ "-" ++ status ++ "." ++ ext.

(** The bytes of the class of the names, [[a-zA-Z0-9_.,-]]. *)
Definition isNameByte (c : ascii) : bool :=
  match Validator.nameClass with
  | Regexp.Cls neg ranges => Regexp.inClass neg ranges c
  | _ => false
  end.

Definition allAscii : list ascii := map ascii_of_nat (seq 0 256).

(** Every class of the expression is within the bytes [P]. *)
Fixpoint reWithin (P : ascii -> bool) (r : Regexp.re) : bool :=
  match r with
  | Regexp.Void => true
  | Regexp.Eps => true
  | Regexp.Cls neg ranges =>
      forallb (fun c => implb (Regexp.inClass neg ranges c) (P c)) allAscii
  | Regexp.Cat r1 r2 => reWithin P r1 && reWithin P r2
  | Regexp.Alt r1 r2 => reWithin P r1 && reWithin P r2
  | Regexp.Star r1 => reWithin P r1
  end.

(** What a byte of a name is not: a separator, white space, or a byte of a
    rune outside ASCII. *)
Definition isPlainByte (c : ascii) : bool :=
  negb (Ascii.eqb c slash) && negb (Ascii.eqb c space) && negb (Ascii.eqb c nl)
  && Nat.ltb (nat_of_ascii c) 128.

(* ================================================================== *)
(** ** A repository and its collaborators, for the examples *)

Definition exampleRepo : string := "/srv/music".

Definition exampleBackup : BackupConfig :=
  {| Bucket := "prodby-backups";
     EndpointURL := "https://s3.example.net";
     Region := "us-east-1";
     Prefix := EmptyString;
     AccessKeyID := EmptyString;
     SecretKey := EmptyString |}.

Definition exampleConfig : Config :=
  {| RepoPath := exampleRepo; DebounceSecs := 2%Z; Backup := exampleBackup |}.

(** A repository whose [HEAD] is on the branch [main], at commit [hash];
    [show] is what [git show] gives and [index] the files of the index. *)
Definition exampleGit (hash : string) (show : cmdResult) (index : list string)
  : gitWorld :=
  {| readFile := fun path =>
       if String.eqb path "/srv/music/.git/HEAD"
       then Ok ("ref: refs/heads/main" ++ str1 nl)%string
       else if String.eqb path "/srv/music/.git/refs/heads/main"
       then Ok (hash ++ str1 nl)%string
       else Err (Errorf "no such file or directory");
     gitRevParse := fun _ _ => CmdExit (Errorf "exit status 128");
     gitShow := fun _ _ => show;
     gitLsFiles := fun _ file => existsb (String.eqb file) index |}.

(** A compressor that stores: every chunk goes through as it is. *)
Definition storingCompressor : Backup.compressor :=
  {| Backup.emit := fun _ b => [b]; Backup.finish := fun _ => [] |}.

(** An archive process with the given output, an upload that reads the
    whole body and a store that accepts everything. *)
Definition exampleStore (src : Backup.source) : Backup.backupWorld :=
  {| Backup.loadDefaultConfig := fun _ => None;
     Backup.stdoutPipeErr := None;
     Backup.archiveStart := fun _ _ => Ok src;
     Backup.archiveWait := fun _ _ => None;
     Backup.archiveStderr := fun _ _ => EmptyString;
     Backup.stdoutBuffer := 64 * 1024;
     Backup.gzip := storingCompressor;
     Backup.uploadBudget := None;
     Backup.uploadAbort := Errorf "upload aborted";
     Backup.uploadBodyError := fun e => Wrapf "operation error S3: PutObject" e;
     Backup.storeObject := fun _ _ _ => None |}.

Definition tarStream : Backup.source :=
  {| Backup.chunks := [list_ascii_of_string "README.md"; list_ascii_of_string "song"];
     Backup.lastRead := EOF |}.

(** A stream whose third read fails. *)
Definition brokenStream : Backup.source :=
  {| Backup.chunks := [list_ascii_of_string "README.md"; list_ascii_of_string "song"];
     Backup.lastRead := Errorf "read |0: file already closed" |}.

Definition exampleWorld (hash : string) (show : cmdResult) (index : list string)
  : Monitor.world :=
  {| Monitor.git := exampleGit hash show index;
     Monitor.store := exampleStore tarStream |}.

(** The package variables when [tracked] is the last commit seen. *)
Definition exampleState (tracked : string) : Monitor.monitorState :=
  {| Monitor.lastKnownHash := tracked;
     Monitor.repoPath := exampleRepo;
     Monitor.processingMu := false;
     Monitor.appConfig := exampleConfig |}.

(** The two commits of the end-to-end scenario: the project file named
    [song.flp], and the project file named after its folder. *)
Definition songFolder : string := "song-artist-feat-x-120bpm-prodby.me".

Definition commitSongFlp : list nsLine :=
  [Changed "M" "README.md";
   Changed "A" ("src/projects/" ++ songFolder ++ "/song.flp")].

Definition commitFolderFlp : list nsLine :=
  [Changed "M" "README.md";
   Changed "A" ("src/projects/" ++ songFolder ++ "/" ++ songFolder ++ ".flp")].

(** Their changed files. *)
Definition songFlpFiles : list string :=
  ["README.md"; "src/projects/song-artist-feat-x-120bpm-prodby.me/song.flp"].

Definition folderFlpFiles : list string :=
  ["README.md";
   "src/projects/song-artist-feat-x-120bpm-prodby.me/song-artist-feat-x-120bpm-prodby.me.flp"].

Definition requiredInIndex : list string := ["README.md"; ".gitignore"].

(** A listing with every kind of line. *)
Definition mixedListing : list nsLine :=
  [Changed "M" "README.md";
   Renamed "100" "src/old.txt" "src/new.txt";
   Deleted "notes.txt";
   Copied "075" "a.cfg" "b.cfg";
   Changed "A" ".gitignore"].

(** A file system where the metadata directory and its [refs] exist, and a
    watcher that cannot add any watch. *)
Definition exampleTree : Monitor.fsnode :=
  Monitor.FsDir ".git" None
    [Monitor.FsFile "HEAD";
     Monitor.FsDir "objects" None [Monitor.FsDir "pack" None []];
     Monitor.FsDir "refs" None [Monitor.FsDir "heads" None [Monitor.FsFile "main"]]].

Definition refsTree : Monitor.fsnode :=
  Monitor.FsDir "refs" None [Monitor.FsDir "heads" None [Monitor.FsFile "main"]].

Definition exampleFs (add : list string -> string -> option error)
  : Monitor.startWorld :=
  {| Monitor.stat := fun path =>
       if String.eqb path "/srv/music/.git" || String.eqb path "/srv/music/.git/refs"
       then Monitor.StatOk else Monitor.StatNotExist;
     Monitor.lstat := fun path =>
       if String.eqb path "/srv/music/.git" then Ok exampleTree
       else if String.eqb path "/srv/music/.git/refs" then Ok refsTree
       else Err (Errorf "no such file or directory");
     Monitor.newWatcher := None;
     Monitor.watcherAdd := add |}.

Definition noWatchFs : Monitor.startWorld :=
  exampleFs (fun _ _ => Some (Errorf "no space left on device")).

Definition allWatchFs : Monitor.startWorld := exampleFs (fun _ _ => None).

(** The worlds of the examples: [git show] fails; the commit with
    [song.flp]; the commit with the project file named after its folder. *)
Definition showFailure : error := Errorf "exit status 128".

Definition failingShowWorld : Monitor.world :=
  exampleWorld "abc123" (CmdExit showFailure) requiredInIndex.

Definition songFlpWorld : Monitor.world :=
  exampleWorld "abc123" (CmdOut (renderListing commitSongFlp)) requiredInIndex.

Definition folderFlpWorld : Monitor.world :=
  exampleWorld "abc123" (CmdOut (renderListing commitFolderFlp)) requiredInIndex.

(** An index without [.gitignore]. *)
Definition noGitignoreGit : gitWorld :=
  exampleGit "abc123" (CmdOut EmptyString) ["README.md"].

Definition mixedGit : gitWorld :=
  exampleGit "abc123" (CmdOut (renderListing mixedListing)) requiredInIndex.

(* ================================================================== *)
(** ** More collaborators, for the examples *)

(** A store that refuses the object, with an archive process that also
    exits with an error. *)
Definition refusingStore : Backup.backupWorld :=
  {| Backup.loadDefaultConfig := fun _ => None;
     Backup.stdoutPipeErr := None;
     Backup.archiveStart := fun _ _ => Ok tarStream;
     Backup.archiveWait := fun _ _ => Some (Errorf "exit status 128");
     Backup.archiveStderr := fun _ _ => "fatal: not a tree object";
     Backup.stdoutBuffer := 64 * 1024;
     Backup.gzip := storingCompressor;
     Backup.uploadBudget := None;
     Backup.uploadAbort := Errorf "upload aborted";
     Backup.uploadBodyError := fun e => Wrapf "operation error S3: PutObject" e;
     Backup.storeObject := fun _ _ _ => Some (Errorf "AccessDenied") |}.

(** A store that accepts the object, with an archive process that exits
    with an error. *)
Definition lateFailureStore : Backup.backupWorld :=
  {| Backup.loadDefaultConfig := fun _ => None;
     Backup.stdoutPipeErr := None;
     Backup.archiveStart := fun _ _ => Ok tarStream;
     Backup.archiveWait := fun _ _ => Some (Errorf "exit status 1");
     Backup.archiveStderr := fun _ _ => "warning";
     Backup.stdoutBuffer := 64 * 1024;
     Backup.gzip := storingCompressor;
     Backup.uploadBudget := None;
     Backup.uploadAbort := Errorf "upload aborted";
     Backup.uploadBodyError := fun e => Wrapf "operation error S3: PutObject" e;
     Backup.storeObject := fun _ _ _ => None |}.

(** An archive of 96 KiB after its first entry, an upload that breaks off
    after five bytes of its body, and a pipe of 64 KiB on the standard
    output of the archive process. *)
Definition largeArchive : Backup.source :=
  {| Backup.chunks := [list_ascii_of_string "README.md";
                       repeat "0"%char (32 * 1024);
                       repeat "0"%char (32 * 1024);
                       repeat "0"%char (32 * 1024)];
     Backup.lastRead := EOF |}.

Definition brokenUploadStore : Backup.backupWorld :=
  {| Backup.loadDefaultConfig := fun _ => None;
     Backup.stdoutPipeErr := None;
     Backup.archiveStart := fun _ _ => Ok largeArchive;
     Backup.archiveWait := fun _ _ => None;
     Backup.archiveStderr := fun _ _ => EmptyString;
     Backup.stdoutBuffer := 64 * 1024;
     Backup.gzip := storingCompressor;
     Backup.uploadBudget := Some 5;
     Backup.uploadAbort := Errorf "connection reset by peer";
     Backup.uploadBodyError := fun e => Wrapf "operation error S3: PutObject" e;
     Backup.storeObject := fun _ _ _ => None |}.

Definition brokenUploadWorld : Monitor.world :=
  {| Monitor.git := exampleGit "abc123" (CmdOut (renderListing commitFolderFlp))
                      requiredInIndex;
     Monitor.store := brokenUploadStore |}.

(** The same upload with an archive that fits in the pipe of the standard
    output. *)
Definition shortUploadWorld : Monitor.world :=
  {| Monitor.git := exampleGit "abc123" (CmdOut (renderListing commitFolderFlp))
                      requiredInIndex;
     Monitor.store :=
       {| Backup.loadDefaultConfig := fun _ => None;
          Backup.stdoutPipeErr := None;
          Backup.archiveStart := fun _ _ => Ok tarStream;
          Backup.archiveWait := fun _ _ => None;
          Backup.archiveStderr := fun _ _ => EmptyString;
          Backup.stdoutBuffer := 64 * 1024;
          Backup.gzip := storingCompressor;
          Backup.uploadBudget := Some 5;
          Backup.uploadAbort := Errorf "connection reset by peer";
          Backup.uploadBodyError := fun e => Wrapf "operation error S3: PutObject" e;
          Backup.storeObject := fun _ _ _ => None |} |}.

Definition tarBody : list byte := list_ascii_of_string "README.mdsong".

(** The key of the example commit and the violation for a path at an
    unexpected place. *)
Definition exampleKey : string := "commit-abc123.tar.gz".

Definition upperSrcViolation : string :=
  "Unexpected top-level file or directory: 'SRC/x'. Only 'src/', 'README.md', 'config.toml', '.gitignore' allowed.".

(** The watches of a startup in which every watch can be added. *)
Definition startedWatches : list string :=
  match Monitor.Start allWatchFs (exampleGit "abc123" (CmdOut EmptyString) requiredInIndex)
          exampleConfig with
  | Monitor.EventLoop _ watched _ => watched
  | Monitor.Fatal _ => []
  end.

(** Events of the watcher, with the time they are received in nanoseconds:
    a commit touches the metadata within a second and a half, and another
    one does five seconds later. *)
Definition fsEvent (name : string) (op : Z) : EventLoop.received :=
  EventLoop.Event {| Fsnotify.Name := name; Fsnotify.Op := op |}.

Definition commitBurst : list (Z * EventLoop.received) :=
  [(0%Z, fsEvent "/srv/music/.git/index.lock" Fsnotify.Create);
   (400000000%Z, fsEvent "/srv/music/.git/index.lock" Fsnotify.Chmod);
   (900000000%Z, fsEvent "/srv/music/.git/index" Fsnotify.Rename);
   (1000000000%Z, EventLoop.WatcherError (Errorf "queue overflow"));
   (1500000000%Z, fsEvent "/srv/music/.git/refs/heads/main" (Z.lor Fsnotify.Write Fsnotify.Chmod))].

Definition twoCommits : list (Z * EventLoop.received) :=
  commitBurst
  ++ [(6500000000%Z, fsEvent "/srv/music/.git/index" Fsnotify.Rename);
      (7000000000%Z, fsEvent "/srv/music/.git/refs/heads/main" Fsnotify.Write);
      (7100000000%Z, EventLoop.EventsClosed);
      (7200000000%Z, fsEvent "/srv/music/.git/HEAD" Fsnotify.Write)].

(** Events that do not reset the timer. *)
Definition housekeeping : list (Z * EventLoop.received) :=
  [(0%Z, fsEvent "/srv/music/.git/index" Fsnotify.Chmod);
   (100%Z, fsEvent "/srv/music/.git/index.lock" Fsnotify.Remove);
   (200%Z, EventLoop.WatcherError (Errorf "queue overflow"));
   (300%Z, fsEvent "/srv/music/.git/gc.pid" (Z.lor Fsnotify.Remove Fsnotify.Chmod))].

(** The runtime starts the call of a timer that is due before the loop
    handles the next value, or only once nothing stops the timer any more. *)
Definition promptStart : nat -> bool := fun _ => true.

Definition lateStart : nat -> bool := fun _ => false.

Definition noDebounceConfig : Config :=
  {| RepoPath := exampleRepo; DebounceSecs := 0%Z; Backup := exampleBackup |}.

(** A watcher that cannot watch [refs]: some watches are added, not all. *)
Definition partialWatchFs : Monitor.startWorld :=
  exampleFs (fun _ path =>
               if String.eqb path "/srv/music/.git/refs"
               then Some (Errorf "permission denied") else None).





(* ================================================================== *)
(** ** The library functions on the examples of their documentation *)

Example Clean_examples :
  map Filepath.Clean
    ["a/c"; "a//c"; "a/c/."; "a/c/b/.."; "/../a/c"; "/../a/b/../././/c"; EmptyString;
     "../../x/.."; "./"]
  = ["a/c"; "a/c"; "a/c"; "a/c"; "/a/c"; "/a/c"; "."; "../.."; "."].
Proof. reflexivity. Qed.

Example Dir_examples :
  map Filepath.Dir
    ["/foo/bar/baz.js"; "/foo/bar/baz"; "/foo/bar/baz/"; "/dirty//path///"; "dev.txt";
     "../todo.txt"; ".."; "."; "/"; EmptyString]
  = ["/foo/bar"; "/foo/bar"; "/foo/bar/baz"; "/dirty/path"; "."; ".."; "."; "."; "/"; "."].
Proof. reflexivity. Qed.

Example Base_examples :
  map Filepath.Base
    ["/foo/bar/baz.js"; "/foo/bar/baz"; "/foo/bar/baz/"; "dev.txt"; "../todo.txt";
     ".."; "."; "/"; EmptyString]
  = ["baz.js"; "baz"; "baz"; "dev.txt"; "todo.txt"; ".."; "."; "/"; "."].
Proof. reflexivity. Qed.

Example Ext_examples :
  map Filepath.Ext ["index"; "index.js"; "main.test.js"; ".gitignore"; "a.b/c"]
  = [EmptyString; ".js"; ".js"; ".gitignore"; EmptyString].
Proof. reflexivity. Qed.

Example Join_examples :
  map Filepath.Join
    [["a"; "b"; "c"]; ["a"; "b/c"]; ["a/b"; "c"]; ["a/b"; "/c"];
     ["a/b"; "../../../xyz"]; [EmptyString; EmptyString]; ["/srv/music"; ".git"]]
  = ["a/b/c"; "a/b/c"; "a/b/c"; "a/b/c"; "../xyz"; EmptyString; "/srv/music/.git"].
Proof. reflexivity. Qed.

Example SplitN_examples :
  Strings.SplitN "a,b,c,d" ","%char 2 = ["a"; "b,c,d"]
  /\ Strings.SplitN "a,b,c,d" ","%char 0 = []
  /\ Strings.SplitN "abcd" ","%char 3 = ["abcd"]
  /\ Strings.Split "a,b,c" ","%char = ["a"; "b"; "c"]
  /\ Strings.Split EmptyString ","%char = [EmptyString]
  /\ Strings.Join ["foo"; "bar"; "baz"] ", " = "foo, bar, baz".
Proof. repeat split. Qed.

Example TrimSpace_examples :
  Strings.TrimSpace (String space (String tab (String nl " Hello, Gophers "))
                     ++ String nl (String tab (String cr (str1 nl))))
  = "Hello, Gophers"
  /\ Strings.TrimSpace (Strings.bytes2 194 160 ++ "x y" ++ Strings.bytes3 226 128 131)
     = "x y"
  /\ Strings.TrimSpace (Strings.bytes2 194 161 ++ " ") = Strings.bytes2 194 161.
Proof. repeat split. Qed.

Example Trim_examples :
  map (fun s => Strings.Trim s slash) ["/backups/"; "//a/b//"; "///"; "plain"; EmptyString]
  = ["backups"; "a/b"; EmptyString; "plain"; EmptyString].
Proof. reflexivity. Qed.

Example ToLower_examples :
  Strings.ToLower "Song.FLP" = "song.flp"
  /\ Strings.ToLower ("x.LOG" ++ Strings.bytes2 196 176 ++ "CX") = "x.logicx".
Proof. split; reflexivity. Qed.

(** The patterns of the validator. *)
Example projectFolderRegex_examples :
  map (Regexp.MatchString Validator.projectFolderRegex)
    ["song-artist-feat-x-120bpm-prodby.me"; "a-b-c-12bpm-prodby.x";
     "a-b,c,d-e-123bpm-prodby.x";
     "a-b-c-1bpm-prodby.x"; "a-b-c-1234bpm-prodby.x"; "a-b-c-123bpm-prodbyxx";
     "a b-c-d-123bpm-prodby.x"; "a-b-120bpm-prodby.x"]
  = [true; true; true; false; false; false; false; false].
Proof. vm_compute. reflexivity. Qed.

Example extension_examples :
  map (Regexp.MatchString Validator.projectExtRegex)
    ["song.flp"; "x.logicx"; "x.flp.bak"; "flp"; "x.mp3"]
  = [true; true; false; false; false]
  /\ map (Regexp.MatchString Validator.exportExtRegex) ["a-mixed.wav"; "a.wave"; "a.flac"]
     = [true; false; true]
  /\ map (Regexp.MatchString Validator.exportStatusRegex)
       ["mixed"; "finalmaster"; "mixed2"; "premixed"; EmptyString]
     = [true; true; false; false; false].
Proof. vm_compute. repeat split. Qed.

Example exportName_examples :
  map Validator.exportNameSubmatch ["a-b-c"; "abc"; "a-"; "-b"; "a--b"]
  = [Some ("a-b", "c"); None; None; Some (EmptyString, "b"); Some ("a-", "b")]
  /\ map (Regexp.MatchString Validator.exportNameRegex) ["a-b-c"; "abc"; "a-"; "-b"; "a--b"]
     = [true; false; false; true; true].
Proof. vm_compute. split; reflexivity. Qed.

(** The scan of a listing: the white space at the ends of a line is trimmed
    before its fields are split, a line without a tab gives nothing, and a
    line too long for the scanner fails the scan. *)
Example scanNameStatus_examples :
  Gitutil.scanNameStatus (renderListing mixedListing)
  = Ok ["README.md"; "src/new.txt"; "b.cfg"; ".gitignore"]
  /\ Gitutil.scanNameStatus ("A" ++ String tab ("notes.txt " ++ String cr (str1 nl)))
     = Ok ["notes.txt"]
  /\ Gitutil.scanNameStatus ("no tab on this line" ++ str1 nl) = Ok []
  /\ Gitutil.scanNameStatus ("R100" ++ String tab "only-one-path") = Ok [].
Proof. vm_compute. repeat split. Qed.
(* ================================================================== *)
(** ** Strings *)

Section StringFacts.

Import Strings.

Lemma append_empty_r (s : string) : (s ++ EmptyString)%string = s.
Proof. induction s as [|a s IH]; simpl; [reflexivity | now rewrite IH]. Qed.

Lemma append_assoc (a b c : string) :
  ((a ++ b) ++ c)%string = (a ++ (b ++ c))%string.
Proof. induction a as [|x a IH]; simpl; [reflexivity | now rewrite IH]. Qed.

Lemma isEmpty_true (s : string) : isEmpty s = true -> s = EmptyString.
Proof. destruct s; [reflexivity | discriminate]. Qed.

Lemma trimLeftByte_spec (c : ascii) (s : string) :
  exists l, s = (l ++ trimLeftByte c s)%string
            /\ allBytes c l = true
            /\ firstByte (trimLeftByte c s) <> Some c.
Proof.
  induction s as [|a s IH]; simpl.
  - exists EmptyString. repeat split; discriminate.
  - destruct (Ascii.eqb a c) eqn:E.
    + destruct IH as (l & Hs & Hl & Hf).
      exists (String a l). simpl. rewrite E, Hl. repeat split; [congruence | assumption].
    + exists EmptyString. repeat split. simpl. intros H. injection H as ->.
      now rewrite Ascii.eqb_refl in E.
Qed.

Lemma trimRightByte_spec (c : ascii) (s : string) :
  exists r, s = (trimRightByte c s ++ r)%string
            /\ allBytes c r = true
            /\ lastByte (trimRightByte c s) <> Some c
            /\ (firstByte s <> Some c -> firstByte (trimRightByte c s) <> Some c).
Proof.
  induction s as [|a s IH]; simpl.
  - exists EmptyString. repeat split; discriminate.
  - destruct IH as (r & Hs & Hr & Hl & _).
    destruct (isEmpty (trimRightByte c s)) eqn:Ee; simpl.
    + apply isEmpty_true in Ee. rewrite Ee in *. simpl in Hs.
      destruct (Ascii.eqb a c) eqn:E.
      * exists (String a r). simpl. rewrite E, Hr.
        repeat split; try discriminate. congruence.
      * exists r. simpl. repeat split; try assumption; try congruence.
        -- intros H. injection H as ->. now rewrite Ascii.eqb_refl in E.
    + exists r. simpl. repeat split; try assumption; try congruence.
      destruct (trimRightByte c s); [discriminate | assumption].
Qed.

(** [strings.Trim] with a one-byte cutset removes exactly the leading and
    the trailing occurrences of the byte. *)
Lemma Trim_spec (c : ascii) (s : string) :
  exists l r, s = (l ++ Trim s c ++ r)%string
              /\ allBytes c l = true /\ allBytes c r = true
              /\ firstByte (Trim s c) <> Some c
              /\ lastByte (Trim s c) <> Some c.
Proof.
  unfold Trim.
  destruct (trimLeftByte_spec c s) as (l & Hs & Hl & Hf).
  destruct (trimRightByte_spec c (trimLeftByte c s)) as (r & Hs' & Hr & Hlast & Hfirst).
  exists l, r. repeat split; try assumption; try (now apply Hfirst).
  rewrite <- Hs'. exact Hs.
Qed.

End StringFacts.

(* ================================================================== *)
(** ** The object key *)

Lemma not_some_byte (o : option ascii) (c : ascii) :
  o <> Some c -> match o with Some a => Ascii.eqb a c | None => false end = false.
Proof.
  destruct o as [a|]; [|reflexivity].
  intros H. destruct (Ascii.eqb a c) eqn:E; [|reflexivity].
  apply Ascii.eqb_eq in E. congruence.
Qed.

(** C8.  The object key of commit [h] depends on the configured prefix only
    through the prefix trimmed of its leading and trailing slashes: it is
    [commit-h.tar.gz] when the trimmed prefix is empty (the prefix is empty
    or made of slashes only) and the trimmed prefix, a slash and
    [commit-h.tar.gz] otherwise. *)
Theorem s3Key_format (cfg : BackupConfig) (h : string) :
  let trimmedPrefix := Strings.Trim (Prefix cfg) slash in
  (exists l r,
      Prefix cfg = (l ++ trimmedPrefix ++ r)%string
      /\ allBytes slash l = true /\ allBytes slash r = true
      /\ startsWithByte slash trimmedPrefix = false
      /\ endsWithByte slash trimmedPrefix = false)
  /\ Backup.s3Key cfg h =
       (if isEmpty trimmedPrefix then "commit-" ++ h ++ ".tar.gz"
        else trimmedPrefix ++ "/" ++ "commit-" ++ h ++ ".tar.gz")%string.
Proof.
  intros trimmedPrefix. split.
  - destruct (Trim_spec slash (Prefix cfg)) as (l & r & Hs & Hl & Hr & Hf & Hla).
    exists l, r. fold trimmedPrefix in Hs, Hf, Hla.
    repeat split; try assumption.
    + now apply not_some_byte.
    + now apply not_some_byte.
  - unfold Backup.s3Key. subst trimmedPrefix.
    destruct (Prefix cfg) as [|a p] eqn:Hp; [reflexivity|].
    cbn [String.eqb negb].
    destruct (Strings.Trim (String a p) slash) as [|b t]; reflexivity.
Qed.

(* ================================================================== *)
(** ** The validator *)

Section ValidatorFacts.

Import Validator.

Lemma consistent_addError (msg : string) (st : vstate) : consistent (addError msg st).
Proof. unfold consistent, addError; simpl. now destruct (errors st). Qed.

Lemma consistent_errorIf (cond : bool) (msg : string) (st : vstate) :
  consistent st -> consistent (errorIf cond msg st).
Proof. intros H. destruct cond; simpl; [apply consistent_addError | exact H]. Qed.

Ltac consistency :=
  repeat first
    [ assumption
    | apply consistent_addError
    | apply consistent_errorIf
    | match goal with
      | |- consistent (if ?b then _ else _) => destruct b
      | |- consistent (match ?x with Some _ => _ | None => _ end) => destruct x
      | |- consistent (let '(_, _) := ?x in _) => destruct x
      end ].

Lemma consistent_checkProjectFile file folder parts st :
  consistent st -> consistent (checkProjectFile file folder parts st).
Proof. intros H. unfold checkProjectFile. consistency. Qed.

Lemma consistent_checkExportFile file folder parts st :
  consistent st -> consistent (checkExportFile file folder parts st).
Proof. intros H. unfold checkExportFile. consistency. Qed.

Lemma consistent_checkProjectsPath file parts st :
  consistent st -> consistent (checkProjectsPath file parts st).
Proof.
  intros H. unfold checkProjectsPath.
  consistency;
    first [ now apply consistent_checkProjectFile
          | now apply consistent_checkExportFile ].
Qed.

Lemma consistent_checkFile file st :
  consistent st -> consistent (checkFile file st).
Proof.
  intros H. unfold checkFile.
  consistency. apply consistent_checkProjectsPath. consistency.
Qed.

Lemma consistent_fold_checkFile files st :
  consistent st -> consistent (fold_left (fun st file => checkFile file st) files st).
Proof.
  revert st. induction files as [|f files IH]; intros st H; simpl; [exact H|].
  apply IH. now apply consistent_checkFile.
Qed.

Lemma consistent_checkRequired g repo st :
  consistent st -> consistent (checkRequired g repo st).
Proof. intros H. unfold checkRequired; simpl. consistency. Qed.

Lemma isValid_errorIf cond msg st :
  isValid (errorIf cond msg st) = isValid st && negb cond.
Proof. destruct cond; simpl; [now rewrite andb_false_r | now rewrite andb_true_r]. Qed.

Lemma errors_errorIf_true msg st : In msg (errors (errorIf true msg st)).
Proof. simpl. apply in_or_app. right. now left. Qed.

Lemma errors_errorIf_mono cond msg st m :
  In m (errors st) -> In m (errors (errorIf cond msg st)).
Proof. destruct cond; simpl; [|easy]. intros H. apply in_or_app. now left. Qed.

(** The verdict is the conjunction of the path checks and of the presence
    of the required files in the index. *)
Lemma Validate_verdict (g : gitWorld) (repoPath : string) (changedFiles : list string) :
  fst (Validate g repoPath changedFiles)
  = isValid (pathChecks changedFiles)
    && forallb (Gitutil.CheckFileExists g repoPath) requiredRootFiles.
Proof.
  unfold Validate, checkRequired, pathChecks.
  cbn [fst fold_left requiredRootFiles forallb].
  rewrite !isValid_errorIf, !negb_involutive, andb_true_r, andb_assoc.
  reflexivity.
Qed.

End ValidatorFacts.

(** C9.  For every repository state and every list of changed files, the
    boolean [Validate] returns is true exactly when the list of violations
    it returns is empty. *)
Theorem Validate_results_agree (g : gitWorld) (repoPath : string)
  (changedFiles : list string) :
  fst (Validator.Validate g repoPath changedFiles)
  = isNil (snd (Validator.Validate g repoPath changedFiles)).
Proof.
  unfold Validator.Validate. cbn [fst snd].
  apply consistent_checkRequired, consistent_fold_checkFile.
  reflexivity.
Qed.

(** C10.  [Validate] checks the required root files against the index on
    every call: its verdict is the conjunction of the path checks and of the
    presence of [README.md] and [.gitignore] in the index.  So the verdict
    on the empty list of changes is the presence of the required files, and
    a required file missing from the index makes any list of changes
    invalid, with the violation recorded. *)
Theorem Validate_checks_required_files (g : gitWorld) (repoPath : string) :
  (forall changedFiles,
      fst (Validator.Validate g repoPath changedFiles)
      = Validator.isValid (pathChecks changedFiles)
        && forallb (Gitutil.CheckFileExists g repoPath) Validator.requiredRootFiles)
  /\ fst (Validator.Validate g repoPath [])
     = forallb (Gitutil.CheckFileExists g repoPath) Validator.requiredRootFiles
  /\ (forall changedFiles reqFile,
         In reqFile Validator.requiredRootFiles ->
         Gitutil.CheckFileExists g repoPath reqFile = false ->
         fst (Validator.Validate g repoPath changedFiles) = false
         /\ In (missingRequired reqFile)
               (snd (Validator.Validate g repoPath changedFiles))).
Proof.
  pose proof (Validate_verdict g repoPath) as Hall.
  split; [exact Hall|]. split; [exact (Hall [])|].
  intros changedFiles reqFile Hin Hmiss. split.
  - rewrite Hall. cbn [Validator.requiredRootFiles forallb].
    destruct Hin as [<-|[<-|[]]]; rewrite Hmiss; cbn;
      now rewrite ?andb_false_r.
  - unfold Validator.Validate, Validator.checkRequired, missingRequired.
    cbn [snd fold_left Validator.requiredRootFiles].
    destruct Hin as [<-|[<-|[]]]; rewrite Hmiss; cbn [negb].
    + apply errors_errorIf_mono, errors_errorIf_true.
    + apply errors_errorIf_true.
Qed.

(* ================================================================== *)
(** ** The scan of the name-status listing *)

Section ScanFacts.

Import Strings Gitutil.

Lemma hasByte_app (c : ascii) (a b : string) :
  hasByte c (a ++ b) = hasByte c a || hasByte c b.
Proof.
  induction a as [|x a IH]; simpl; [reflexivity|].
  now rewrite IH, orb_assoc.
Qed.

Lemma isEmpty_app_String (a b : string) (c : ascii) :
  isEmpty (a ++ String c b) = false.
Proof. destruct a; reflexivity. Qed.





(** Suffixes. *)
Lemma drop_0 (s : string) : drop 0 s = s.
Proof. reflexivity. Qed.

Lemma HasSuffix_refl (s : string) : HasSuffix s s = true.
Proof.
  unfold HasSuffix. rewrite Nat.leb_refl, Nat.sub_diag, drop_0.
  apply String.eqb_refl.
Qed.

Lemma HasSuffix_cons (a : ascii) (s w : string) :
  HasSuffix s w = true -> HasSuffix (String a s) w = true.
Proof.
  unfold HasSuffix. intros H. apply andb_true_iff in H as [Hlen Heq].
  apply Nat.leb_le in Hlen. apply andb_true_iff. split.
  - apply Nat.leb_le. cbn [String.length]. lia.
  - cbn [String.length]. rewrite Nat.sub_succ_l by exact Hlen. exact Heq.
Qed.

Lemma endsWithSpace_cons (a : ascii) (s : string) :
  endsWithSpace (String a s) = false -> endsWithSpace s = false.
Proof.
  unfold endsWithSpace. intros H.
  destruct (existsb (fun w => HasSuffix s w) spaceRunes) eqn:E; [|reflexivity].
  apply existsb_exists in E as (w & Hin & Hw).
  rewrite <- H. symmetry. apply existsb_exists.
  exists w. split; [exact Hin | now apply HasSuffix_cons].
Qed.

Lemma isSpaceRune_endsWithSpace (s : string) :
  isSpaceRune s = true -> endsWithSpace s = true.
Proof.
  unfold isSpaceRune, endsWithSpace. intros H.
  apply existsb_exists in H as (w & Hin & Hw).
  apply String.eqb_eq in Hw. subst w.
  apply existsb_exists. exists s. split; [exact Hin | apply HasSuffix_refl].
Qed.

(** White space is trimmed only where there is some. *)
Lemma trimRightSpace_id (s : string) :
  endsWithSpace s = false -> trimRightSpace s = s.
Proof.
  induction s as [|a s IH]; intros H; [reflexivity|].
  cbn [trimRightSpace]. rewrite (IH (endsWithSpace_cons _ _ H)).
  destruct (isSpaceRune (String a s)) eqn:E; [|reflexivity].
  apply isSpaceRune_endsWithSpace in E. congruence.
Qed.

Lemma find_existsb_false {A : Type} (f : A -> bool) (l : list A) :
  existsb f l = false -> find f l = None.
Proof.
  induction l as [|x l IH]; simpl; [reflexivity|].
  destruct (f x); [discriminate | exact IH].
Qed.

Lemma trimLeftSpace_id (s : string) :
  startsWithSpace s = false -> trimLeftSpace s = s.
Proof.
  unfold startsWithSpace, trimLeftSpace. intros H.
  destruct (String.length s); [reflexivity|].
  cbn [trimLeftSpaceFuel]. unfold stripSpaceRune.
  now rewrite (find_existsb_false _ _ H).
Qed.

Lemma TrimSpace_id (s : string) :
  startsWithSpace s = false -> endsWithSpace s = false -> TrimSpace s = s.
Proof.
  intros Hs He. unfold TrimSpace. rewrite (trimLeftSpace_id _ Hs).
  now apply trimRightSpace_id.
Qed.








(** *** Any listing *)






















End ScanFacts.


(* ================================================================== *)
(** ** The matcher and the languages of the patterns *)

Section RegexpFacts.

Import Regexp.

Lemma rangesEqb_eq (a b : list (ascii * ascii)) : rangesEqb a b = true -> a = b.
Proof.
  revert b. induction a as [|[x1 x2] a IH]; intros [|[y1 y2] b]; simpl;
    try discriminate; [reflexivity|].
  unfold rangeEqb; simpl. intros H.
  apply andb_true_iff in H as [H Hab]. apply andb_true_iff in H as [H1 H2].
  apply Ascii.eqb_eq in H1, H2. subst. now rewrite (IH b Hab).
Qed.

Lemma re_eqb_eq (a b : re) : re_eqb a b = true -> a = b.
Proof.
  revert b. induction a as [| |n1 r1|a1 IH1 a2 IH2|a1 IH1 a2 IH2|a1 IH1];
    intros [| |n2 r2|b1 b2|b1 b2|b1]; simpl; try discriminate; try reflexivity.
  - intros H. apply andb_true_iff in H as [Hn Hr].
    apply Bool.eqb_prop in Hn. apply rangesEqb_eq in Hr. now subst.
  - intros H. apply andb_true_iff in H as [H1 H2].
    now rewrite (IH1 _ H1), (IH2 _ H2).
  - intros H. apply andb_true_iff in H as [H1 H2].
    now rewrite (IH1 _ H1), (IH2 _ H2).
  - intros H. now rewrite (IH1 _ H).
Qed.

Lemma lang_Void (s : string) : ~ lang Void s.
Proof. intros H. inversion H. Qed.

Lemma lang_Eps (s : string) : lang Eps s <-> s = EmptyString.
Proof. split; [intros H; now inversion H | intros ->; constructor]. Qed.

Lemma lang_Cat (r1 r2 : re) (s : string) :
  lang (Cat r1 r2) s <-> exists s1 s2, s = (s1 ++ s2)%string /\ lang r1 s1 /\ lang r2 s2.
Proof.
  split.
  - intros H. inversion H; subst. now exists s1, s2.
  - intros (s1 & s2 & -> & H1 & H2). now constructor.
Qed.

Lemma lang_Alt (r1 r2 : re) (s : string) :
  lang (Alt r1 r2) s <-> lang r1 s \/ lang r2 s.
Proof.
  split.
  - intros H. inversion H; subst; auto.
  - intros [H|H]; [now apply LangAltL | now apply LangAltR].
Qed.

Lemma lang_cat (r1 r2 : re) (s : string) : lang (cat r1 r2) s <-> lang (Cat r1 r2) s.
Proof.
  rewrite lang_Cat.
  assert (Hvoid1 : forall r, lang Void s <->
            exists s1 s2, s = (s1 ++ s2)%string /\ lang Void s1 /\ lang r s2).
  { intros r. split; [intros H; now apply lang_Void in H|].
    intros (s1 & s2 & _ & H & _). now apply lang_Void in H. }
  assert (Hvoid2 : forall r, lang Void s <->
            exists s1 s2, s = (s1 ++ s2)%string /\ lang r s1 /\ lang Void s2).
  { intros r. split; [intros H; now apply lang_Void in H|].
    intros (s1 & s2 & _ & _ & H). now apply lang_Void in H. }
  assert (Heps1 : forall r, lang r s <->
            exists s1 s2, s = (s1 ++ s2)%string /\ lang Eps s1 /\ lang r s2).
  { intros r. split.
    - intros H. exists EmptyString, s. repeat split; [constructor | exact H].
    - intros (s1 & s2 & -> & H1 & H2). apply lang_Eps in H1. now subst. }
  assert (Heps2 : forall r, lang r s <->
            exists s1 s2, s = (s1 ++ s2)%string /\ lang r s1 /\ lang Eps s2).
  { intros r. split.
    - intros H. exists s, EmptyString. rewrite append_empty_r.
      repeat split; [exact H | constructor].
    - intros (s1 & s2 & -> & H1 & H2). apply lang_Eps in H2. subst.
      now rewrite append_empty_r. }
  destruct r1, r2; cbn [cat];
    first [ apply Hvoid1 | apply Hvoid2 | apply Heps1 | apply Heps2
          | apply lang_Cat ].
Qed.

Lemma lang_alt (r1 r2 : re) (s : string) : lang (alt r1 r2) s <-> lang (Alt r1 r2) s.
Proof.
  rewrite lang_Alt.
  assert (Hsame : lang (if re_eqb r1 r2 then r1 else Alt r1 r2) s
                  <-> lang r1 s \/ lang r2 s).
  { destruct (re_eqb r1 r2) eqn:E; [|apply lang_Alt].
    apply re_eqb_eq in E. subst. tauto. }
  assert (Hv1 : lang r2 s <-> lang Void s \/ lang r2 s).
  { split; [now right | intros [H|H]; [now apply lang_Void in H | exact H]]. }
  assert (Hv2 : lang r1 s <-> lang r1 s \/ lang Void s).
  { split; [now left | intros [H|H]; [exact H | now apply lang_Void in H]]. }
  destruct r1, r2; cbn [alt]; first [ exact Hv1 | exact Hv2 | exact Hsame ].
Qed.

Lemma append_nil_inv (a b : string) :
  (a ++ b)%string = EmptyString -> a = EmptyString /\ b = EmptyString.
Proof. destruct a; simpl; [auto | discriminate]. Qed.

Lemma nullable_lang (r : re) : nullable r = true <-> lang r EmptyString.
Proof.
  induction r as [| |neg rs|r1 IH1 r2 IH2|r1 IH1 r2 IH2|r1 IH1]; simpl.
  - split; [discriminate | intros H; now apply lang_Void in H].
  - split; [constructor | reflexivity].
  - split; [discriminate | intros H; inversion H].
  - rewrite andb_true_iff, IH1, IH2, lang_Cat. split.
    + intros [H1 H2]. now exists EmptyString, EmptyString.
    + intros (s1 & s2 & Hs & H1 & H2). symmetry in Hs.
      apply append_nil_inv in Hs as [-> ->]. now split.
  - rewrite orb_true_iff, IH1, IH2, lang_Alt. tauto.
  - split; [constructor | reflexivity].
Qed.

(** A non-empty word of a star starts with a non-empty word of its body. *)
Lemma lang_Star_cons (r : re) (c : ascii) (s : string) :
  lang (Star r) (String c s) ->
  exists s1 s2, s = (s1 ++ s2)%string /\ lang r (String c s1) /\ lang (Star r) s2.
Proof.
  intros H. remember (Star r) as r' eqn:Hr. remember (String c s) as x eqn:Hx.
  revert c s Hx.
  induction H as [|neg rs ch Hin|q1 q2 s1 s2 H1 _ H2 _|q1 q2 s0 H1 _|q1 q2 s0 H1 _
                 |q|q s1 s2 H1 _ H2 IH2];
    intros c s Hx; try discriminate.
  injection Hr as ->. destruct s1 as [|a s1].
  - simpl in Hx. now apply IH2.
  - simpl in Hx. injection Hx as -> <-. now exists s1, s2.
Qed.

Lemma deriv_lang (r : re) : forall (c : ascii) (s : string),
  lang (deriv c r) s <-> lang r (String c s).
Proof.
  induction r as [| |neg rs|r1 IH1 r2 IH2|r1 IH1 r2 IH2|r1 IH1]; intros c s;
    cbn [deriv].
  - split; intros H; inversion H.
  - split; intros H; inversion H.
  - destruct (inClass neg rs c) eqn:E.
    + rewrite lang_Eps. split.
      * intros ->. now constructor.
      * intros H. now inversion H.
    + split; [intros H; inversion H|].
      intros H. inversion H; subst. congruence.
  - rewrite lang_alt, lang_Alt, lang_cat, !lang_Cat. split.
    + intros [(s1 & s2 & -> & H1 & H2)|H].
      * apply IH1 in H1. exists (String c s1), s2. now repeat split.
      * destruct (nullable r1) eqn:En; [|now apply lang_Void in H].
        apply nullable_lang in En. apply IH2 in H.
        exists EmptyString, (String c s). now repeat split.
    + intros (s1 & s2 & Hs & H1 & H2). destruct s1 as [|a s1].
      * simpl in Hs. subst s2. right.
        apply nullable_lang in H1. rewrite H1. now apply IH2.
      * simpl in Hs. injection Hs as <- ->. left.
        exists s1, s2. repeat split; [now apply IH1 | exact H2].
  - rewrite lang_alt, !lang_Alt, IH1, IH2. tauto.
  - rewrite lang_cat, lang_Cat. split.
    + intros (s1 & s2 & -> & H1 & H2). apply IH1 in H1.
      now apply (LangStarCons r1 (String c s1) s2).
    + intros H. apply lang_Star_cons in H as (s1 & s2 & -> & H1 & H2).
      exists s1, s2. repeat split; [now apply IH1 | exact H2].
Qed.

(** The matcher decides the language. *)
Theorem matches_lang (s : string) : forall r, matches r s = true <-> lang r s.
Proof.
  induction s as [|c s IH]; intros r; cbn [matches].
  - apply nullable_lang.
  - rewrite IH. apply deriv_lang.
Qed.

(** Classes of one byte. *)
Lemma N_of_ascii_inj (a b : ascii) : N_of_ascii a = N_of_ascii b -> a = b.
Proof.
  intros H. rewrite <- (ascii_N_embedding a), <- (ascii_N_embedding b).
  now rewrite H.
Qed.

Lemma inRange_single (c x : ascii) : inRange c (x, x) = Ascii.eqb c x.
Proof.
  unfold inRange. cbn [fst snd].
  destruct (Ascii.eqb c x) eqn:E.
  - apply Ascii.eqb_eq in E. subst. now rewrite N.leb_refl.
  - apply Ascii.eqb_neq in E.
    destruct (N.leb_spec (N_of_ascii x) (N_of_ascii c)) as [H1|H1]; [|reflexivity].
    destruct (N.leb_spec (N_of_ascii c) (N_of_ascii x)) as [H2|H2]; [|reflexivity].
    exfalso. apply E, N_of_ascii_inj. lia.
Qed.

Lemma inClass_not_byte (x c : ascii) : inClass true [(x, x)] c = negb (Ascii.eqb c x).
Proof. unfold inClass. cbn [existsb]. now rewrite inRange_single, orb_false_r. Qed.

Lemma inClass_byte (x c : ascii) : inClass false [(x, x)] c = Ascii.eqb c x.
Proof. unfold inClass. cbn [existsb]. now rewrite inRange_single, orb_false_r. Qed.

Lemma lang_chr (x : ascii) (s : string) : lang (chr x) s <-> s = str1 x.
Proof.
  unfold chr. split.
  - intros H. inversion H; subst. rewrite inClass_byte in *.
    match goal with E : Ascii.eqb _ _ = true |- _ => apply Ascii.eqb_eq in E; now subst end.
  - intros ->. constructor. rewrite inClass_byte. apply Ascii.eqb_refl.
Qed.

Lemma lang_Star_Cls (neg : bool) (rs : list (ascii * ascii)) (s : string) :
  lang (Star (Cls neg rs)) s <-> forallBytes (inClass neg rs) s = true.
Proof.
  induction s as [|c s IH]; cbn [forallBytes].
  - split; [reflexivity | constructor].
  - rewrite andb_true_iff, <- IH. split.
    + intros H. apply lang_Star_cons in H as (s1 & s2 & -> & H1 & H2).
      inversion H1; subst. now split.
    + intros [Hc Hs]. apply (LangStarCons (Cls neg rs) (str1 c) s); [|exact Hs].
      now constructor.
Qed.

Lemma forallBytes_not_byte (x : ascii) (s : string) :
  forallBytes (inClass true [(x, x)]) s = negb (Strings.hasByte x s).
Proof.
  induction s as [|c s IH]; cbn [forallBytes Strings.hasByte]; [reflexivity|].
  now rewrite IH, inClass_not_byte, negb_orb.
Qed.

End RegexpFacts.

(** The last occurrence of a byte. *)
Section CutLastFacts.

Import Validator.

Lemma cutLast_None (sep : ascii) (s : string) :
  cutLast sep s = None <-> Strings.hasByte sep s = false.
Proof.
  induction s as [|a s IH]; cbn [cutLast Strings.hasByte]; [tauto|].
  destruct (cutLast sep s) as [[x y]|].
  - split; [discriminate|]. intros H. apply orb_false_iff in H as [_ H].
    apply IH in H. discriminate.
  - destruct (Ascii.eqb a sep); cbn [orb].
    + split; discriminate.
    + split; intros _; [now apply IH | reflexivity].
Qed.

Lemma cutLast_app (sep : ascii) (x y : string) :
  Strings.hasByte sep y = false -> cutLast sep (x ++ String sep y) = Some (x, y).
Proof.
  intros Hy. induction x as [|a x IH]; cbn [append cutLast].
  - apply cutLast_None in Hy. now rewrite Hy, Ascii.eqb_refl.
  - now rewrite IH.
Qed.

Lemma cutLast_Some (sep : ascii) (s x y : string) :
  cutLast sep s = Some (x, y) ->
  s = (x ++ String sep y)%string /\ Strings.hasByte sep y = false.
Proof.
  revert x y. induction s as [|a s IH]; intros x y; cbn [cutLast]; [discriminate|].
  destruct (cutLast sep s) as [[x' y']|] eqn:E.
  - intros [= <- <-]. destruct (IH _ _ eq_refl) as [-> Hy]. now split.
  - destruct (Ascii.eqb a sep) eqn:Ea; [|discriminate].
    intros [= <- <-]. apply Ascii.eqb_eq in Ea. subst a.
    split; [reflexivity | now apply cutLast_None].
Qed.

(** The words of the pattern for export names: a text without newline, a
    dash, and a text without dash that is not empty. *)
Lemma exportName_lang (s : string) :
  lang (Regexp.body exportNameRegex) s <->
  exists x y, s = (x ++ String dash y)%string
              /\ Strings.hasByte nl x = false
              /\ y <> EmptyString
              /\ Strings.hasByte dash y = false.
Proof.
  cbn [exportNameRegex Regexp.body Regexp.cats Regexp.plus].
  rewrite lang_Cat. split.
  - intros (x & rest & -> & Hx & Hrest).
    apply lang_Star_Cls in Hx. rewrite forallBytes_not_byte in Hx.
    apply negb_true_iff in Hx.
    apply lang_Cat in Hrest as (d & y & -> & Hd & Hy).
    apply lang_chr in Hd. subst d.
    apply lang_Cat in Hy as (y1 & y2 & -> & Hy1 & Hy2).
    inversion Hy1 as [|neg rs c Hc| | | | |]; subst.
    apply lang_Star_Cls in Hy2. rewrite forallBytes_not_byte in Hy2.
    apply negb_true_iff in Hy2. rewrite inClass_not_byte in Hc.
    apply negb_true_iff in Hc.
    exists x, (String c y2). cbn [str1 append Strings.hasByte].
    rewrite Hc, Hy2. repeat split; [assumption | discriminate].
  - intros (x & y & -> & Hx & Hne & Hy).
    exists x, (String dash y). split; [reflexivity|]. split.
    + apply lang_Star_Cls. now rewrite forallBytes_not_byte, Hx.
    + apply (LangCat (Regexp.chr dash) _ (str1 dash) y); [now apply lang_chr|].
      destruct y as [|c y]; [congruence|].
      cbn [Strings.hasByte] in Hy. apply orb_false_iff in Hy as [Hc Hy].
      apply (LangCat _ _ (str1 c) y).
      * constructor. now rewrite inClass_not_byte, Hc.
      * apply lang_Star_Cls. now rewrite forallBytes_not_byte, Hy.
Qed.

(** The hand-written submatch finds groups exactly when the compiled
    pattern matches, and the groups spell the text. *)
Theorem exportNameSubmatch_agrees (s : string) :
  Regexp.MatchString exportNameRegex s
  = match exportNameSubmatch s with Some _ => true | None => false end
  /\ (forall x y, exportNameSubmatch s = Some (x, y) -> s = (x ++ String dash y)%string).
Proof.
  split.
  - assert (Hm : Regexp.MatchString exportNameRegex s = true
                 <-> lang (Regexp.body exportNameRegex) s).
    { unfold Regexp.MatchString. cbn [Regexp.anchoredStart Regexp.anchoredEnd exportNameRegex].
      rewrite matches_lang, lang_Cat. split.
      - intros (s1 & s2 & -> & H1 & H2). apply lang_Eps in H1. subst s1.
        apply lang_Cat in H2 as (s3 & s4 & -> & H3 & H4).
        apply lang_Eps in H4. subst s4. cbn [append]. now rewrite append_empty_r.
      - intros H. exists EmptyString, s. split; [reflexivity|].
        split; [constructor|]. apply lang_Cat. exists s, EmptyString.
        rewrite append_empty_r. repeat split; [exact H | constructor]. }
    unfold exportNameSubmatch.
    destruct (cutLast dash s) as [[x y]|] eqn:E.
    + apply cutLast_Some in E as [-> Hy].
      destruct (Strings.hasByte nl x) eqn:Hx; cbn [orb].
      * apply not_true_is_false. intros H. apply Hm, exportName_lang in H.
        destruct H as (x' & y' & Hs & Hx' & _ & Hy').
        pose proof (cutLast_app dash x y Hy) as E1.
        rewrite Hs, (cutLast_app dash x' y' Hy') in E1.
        injection E1 as -> ->. congruence.
      * destruct y as [|c y]; cbn [isEmpty].
        -- apply not_true_is_false. intros H. apply Hm, exportName_lang in H.
           destruct H as (x' & y' & Hs & _ & Hne & Hy').
           pose proof (cutLast_app dash x EmptyString eq_refl) as E1.
           rewrite Hs, (cutLast_app dash x' y' Hy') in E1.
           injection E1 as -> ->. congruence.
        -- apply Hm, exportName_lang. exists x, (String c y).
           repeat split; [assumption | discriminate | assumption].
    + apply cutLast_None in E.
      apply not_true_is_false. intros H. apply Hm, exportName_lang in H.
      destruct H as (x' & y' & -> & _ & _ & _).
      rewrite hasByte_app in E. cbn [Strings.hasByte] in E.
      rewrite Ascii.eqb_refl in E. cbn in E. now rewrite orb_true_r in E.
  - intros x y. unfold exportNameSubmatch.
    destruct (cutLast dash s) as [[x' y']|] eqn:E; [|discriminate].
    destruct (Strings.hasByte nl x' || isEmpty y'); [discriminate|].
    intros [= <- <-]. now apply cutLast_Some in E.
Qed.

End CutLastFacts.

(* ================================================================== *)
(** ** Traces *)

Section TraceFacts.

Lemma filter_none {A : Type} (P Q : A -> bool) {l : list A} :
  Forall (fun x => Q x = true) l ->
  (forall x, Q x = true -> P x = false) ->
  filter P l = [].
Proof.
  intros H HPQ. induction H as [|x l Hx _ IH]; simpl; [reflexivity|].
  now rewrite (HPQ x Hx).
Qed.

Lemma Forall_isLog_violations (errs : list string) :
  Forall (fun ev => isLog ev = true) (map (fun verr => Log (LogViolation verr)) errs).
Proof. induction errs; simpl; constructor; auto. Qed.

Lemma isLog_isBackupEvent (l : list event) :
  Forall (fun ev => isLog ev = true) l -> Forall (fun ev => isBackupEvent ev = true) l.
Proof.
  apply Forall_impl. intros [] H; try discriminate H; reflexivity.
Qed.

End TraceFacts.

(** Projections of the package variables after an assignment. *)
Ltac record_simpl :=
  cbn [Monitor.lastKnownHash Monitor.repoPath Monitor.processingMu Monitor.appConfig
       Monitor.setProcessingMu Monitor.setLastKnownHash].

Ltac record_simpl_in_all :=
  cbn [Monitor.lastKnownHash Monitor.repoPath Monitor.processingMu Monitor.appConfig
       Monitor.setProcessingMu Monitor.setLastKnownHash] in *.

Ltac forall_events :=
  repeat first
    [ apply Forall_nil
    | apply Forall_cons; [reflexivity|]
    | apply Forall_app; split
    | assumption ].

(* ================================================================== *)
(** ** The pipeline *)

Section BackupFacts.

Import Pipe Backup.

Lemma startGoroutine_logs (c : compressor) (src : source) (p : pipe) :
  Forall (fun ev => isLog ev = true) (logsOf (startGoroutine c src p)).
Proof.
  unfold startGoroutine.
  destruct (ioCopy c (chunks src) (lastRead src) NewWriter p) as [[z p1] [stop|unread]];
    [|constructor].
  destruct (gzipClose c z p1) as [[z' p2] [|ce|]]; cbn [logsOf];
    destruct (copyError stop); forall_events.
Qed.

Lemma gzipGoroutine_logs (c : compressor) (src : source) (p : pipe) :
  Forall (fun ev => isLog ev = true) (snd (gzipGoroutine c src p)).
Proof.
  unfold gzipGoroutine.
  pose proof (startGoroutine_logs c src p) as H.
  destruct (startGoroutine c src p) as [p1 stop logs|p1 unread|p1 stop logs];
    cbn [releaseGoroutine snd logsOf] in *; forall_events.
Qed.

(** [RunBackup] neither touches the tracked commit nor the mutex: it logs,
    starts the archive process, uploads and waits. *)
Lemma RunBackup_events (b : backupWorld) (repoPath commitHash : string)
  (cfg : BackupConfig) :
  Forall (fun ev => isBackupEvent ev = true) (snd (RunBackup b repoPath commitHash cfg)).
Proof.
  unfold RunBackup, GzipPipe.
  pose proof (startGoroutine_logs (gzip b)) as Hg.
  destruct (String.eqb (Bucket cfg) EmptyString); [forall_events|].
  destruct (loadDefaultConfig b cfg); [forall_events|].
  destruct (stdoutPipeErr b); [forall_events|].
  destruct (archiveStart b repoPath commitHash) as [src|]; [|forall_events].
  specialize (Hg src (newPipe (uploadBudget b))).
  apply isLog_isBackupEvent in Hg.
  destruct (archiveExits b _); [|cbn [snd]; forall_events].
  destruct (uploadResult b (Bucket cfg) (s3Key cfg commitHash) _);
    destruct (archiveWait b repoPath commitHash); cbn [snd]; forall_events.
Qed.

(** [RunBackup] does not return exactly when [cmdArchive.Wait()] does not:
    the wait is then the last thing it does. *)
Lemma RunBackup_blocks (b : backupWorld) (repoPath commitHash : string)
  (cfg : BackupConfig) :
  fst (RunBackup b repoPath commitHash cfg) = Blocks ->
  exists front, snd (RunBackup b repoPath commitHash cfg) = front ++ [ArchiveWaitBlocks].
Proof.
  unfold RunBackup, GzipPipe.
  destruct (String.eqb (Bucket cfg) EmptyString); [discriminate|].
  destruct (loadDefaultConfig b cfg); [discriminate|].
  destruct (stdoutPipeErr b); [discriminate|].
  destruct (archiveStart b repoPath commitHash) as [src|]; [|discriminate].
  destruct (archiveExits b _).
  - destruct (uploadResult b (Bucket cfg) (s3Key cfg commitHash) _);
      destruct (archiveWait b repoPath commitHash); discriminate.
  - intros _. cbn [snd]. eexists. reflexivity.
Qed.

Lemma RunBackup_returns (b : backupWorld) (repoPath commitHash : string)
  (cfg : BackupConfig) :
  fst (RunBackup b repoPath commitHash cfg) <> Blocks ->
  ~ In ArchiveWaitBlocks (snd (RunBackup b repoPath commitHash cfg)).
Proof.
  unfold RunBackup, GzipPipe.
  pose proof (startGoroutine_logs (gzip b)) as Hg.
  assert (Hlog : forall l, Forall (fun ev => isLog ev = true) l -> ~ In ArchiveWaitBlocks l).
  { intros l Hl Hin. rewrite Forall_forall in Hl. now apply Hl in Hin. }
  destruct (String.eqb (Bucket cfg) EmptyString); [cbn; intuition discriminate|].
  destruct (loadDefaultConfig b cfg); [cbn; intuition discriminate|].
  destruct (stdoutPipeErr b); [cbn; intuition discriminate|].
  destruct (archiveStart b repoPath commitHash) as [src|]; [|cbn; intuition discriminate].
  specialize (Hg src (newPipe (uploadBudget b))). apply Hlog in Hg.
  destruct (archiveExits b _); [|now intros []].
  intros _.
  destruct (uploadResult b (Bucket cfg) (s3Key cfg commitHash) _);
    destruct (archiveWait b repoPath commitHash); cbn [snd];
    rewrite ?in_app_iff; cbn [In]; intuition discriminate.
Qed.

End BackupFacts.

(* ================================================================== *)
(** ** The check cycle *)

Section CycleFacts.

Import Monitor.

Variable w : world.

(** The cycle leaves the repository path, the mutex and the configuration
    of the body as they are, and its trace has no lock event. *)
Lemma processNewCommit_frame (currentHash : string) (st : monitorState) :
  let r := fst (processNewCommit w currentHash st) in
  repoPath (fst r) = repoPath st
  /\ processingMu (fst r) = processingMu st
  /\ appConfig (fst r) = appConfig st.
Proof.
  unfold processNewCommit. record_simpl.
  destruct (Gitutil.GetChangedFilesInCommit _ _ _) as [files|e]; [|now cbn].
  destruct (Validator.Validate _ _ files) as [[|] errs]; [|now cbn].
  destruct (Backup.RunBackup _ _ _ _) as [[[e|]|] tb]; now cbn.
Qed.

Lemma processNewCommit_events (currentHash : string) (st : monitorState) :
  filter isLockEvent (snd (fst (processNewCommit w currentHash st))) = [].
Proof.
  unfold processNewCommit. record_simpl.
  destruct (Gitutil.GetChangedFilesInCommit _ _ _) as [files|e]; [|reflexivity].
  destruct (Validator.Validate _ _ files) as [[|] errs].
  - pose proof (Backup_events_of := RunBackup_events (store w) (repoPath st)
                                      currentHash (Backup (appConfig st))).
    destruct (Backup.RunBackup _ _ _ _) as [[[e|]|] tb]; cbn [fst snd] in *;
      rewrite !filter_app;
      rewrite (filter_none isLockEvent isBackupEvent Backup_events_of);
      try reflexivity; intros []; now cbn.
  - cbn [fst snd]. rewrite !filter_app.
    rewrite (filter_none isLockEvent isLog (Forall_isLog_violations errs));
      [reflexivity | intros []; now cbn].
Qed.

Lemma checkCommit_frame (st : monitorState) :
  let r := fst (checkCommit w st) in
  repoPath (fst r) = repoPath st
  /\ processingMu (fst r) = processingMu st
  /\ appConfig (fst r) = appConfig st.
Proof.
  unfold checkCommit.
  destruct (Gitutil.GetCurrentCommitHash _ _) as [h|e]; [|now cbn].
  destruct (negb (String.eqb h EmptyString) && negb (String.eqb h (lastKnownHash st))).
  - pose proof (processNewCommit_frame h st) as H.
    destruct (processNewCommit w h st) as [[st' t] returns]. exact H.
  - destruct (String.eqb h (lastKnownHash st)); now cbn.
Qed.

Lemma checkCommit_events (st : monitorState) :
  filter isLockEvent (snd (fst (checkCommit w st))) = [].
Proof.
  unfold checkCommit.
  destruct (Gitutil.GetCurrentCommitHash _ _) as [h|e]; [|reflexivity].
  destruct (negb (String.eqb h EmptyString) && negb (String.eqb h (lastKnownHash st))).
  - pose proof (processNewCommit_events h st) as H.
    destruct (processNewCommit w h st) as [[st' t] returns]. cbn [fst snd] in *.
    cbn [app filter isLockEvent]. exact H.
  - destruct (String.eqb h (lastKnownHash st)); reflexivity.
Qed.

(** The body does not return exactly when [RunBackup] does not; the wait
    for the archive process is then the last event of its trace. *)
Lemma processNewCommit_stuck (currentHash : string) (st : monitorState) :
  snd (processNewCommit w currentHash st) = false ->
  exists front, snd (fst (processNewCommit w currentHash st)) = front ++ [ArchiveWaitBlocks].
Proof.
  unfold processNewCommit. record_simpl.
  destruct (Gitutil.GetChangedFilesInCommit _ _ _) as [files|e]; [|discriminate].
  destruct (Validator.Validate _ _ files) as [[|] errs]; [|discriminate].
  pose proof (RunBackup_blocks (store w) (repoPath st) currentHash
                (Backup (appConfig st))) as Hb.
  destruct (Backup.RunBackup _ _ _ _) as [[[e|]|] tb]; try discriminate.
  intros _. destruct (Hb eq_refl) as [front Hfront]. cbn [fst snd] in *.
  rewrite Hfront. eexists. rewrite !app_assoc. reflexivity.
Qed.

Lemma processNewCommit_returned (currentHash : string) (st : monitorState) :
  snd (processNewCommit w currentHash st) = true ->
  ~ In ArchiveWaitBlocks (snd (fst (processNewCommit w currentHash st))).
Proof.
  unfold processNewCommit. record_simpl.
  destruct (Gitutil.GetChangedFilesInCommit _ _ _) as [files|e];
    [|cbn; intuition discriminate].
  destruct (Validator.Validate _ _ files) as [[|] errs].
  - pose proof (RunBackup_returns (store w) (repoPath st) currentHash
                  (Backup (appConfig st))) as Hb.
    destruct (Backup.RunBackup _ _ _ _) as [[[e|]|] tb]; try discriminate;
      intros _; cbn [fst snd] in *; rewrite !in_app_iff; cbn [In];
      (assert (Hn : ~ In ArchiveWaitBlocks tb) by (apply Hb; discriminate));
      intuition discriminate.
  - intros _ Hin. cbn [fst snd] in Hin.
    repeat (apply in_app_or in Hin; destruct Hin as [Hin|Hin]);
      try (cbn in Hin; intuition discriminate).
    apply in_map_iff in Hin. destruct Hin as (x & Hx & _). discriminate.
Qed.

Lemma checkCommit_stuck (st : monitorState) :
  snd (checkCommit w st) = false ->
  exists front, snd (fst (checkCommit w st)) = front ++ [ArchiveWaitBlocks].
Proof.
  unfold checkCommit.
  destruct (Gitutil.GetCurrentCommitHash _ _) as [h|e]; [|discriminate].
  destruct (negb (String.eqb h EmptyString) && negb (String.eqb h (lastKnownHash st))).
  - pose proof (processNewCommit_stuck h st) as H.
    destruct (processNewCommit w h st) as [[st' t] returns]. cbn [fst snd] in *.
    intros Hr. destruct (H Hr) as [front ->]. eexists.
    rewrite !app_assoc. reflexivity.
  - destruct (String.eqb h (lastKnownHash st)); discriminate.
Qed.

Lemma checkCommit_returned (st : monitorState) :
  snd (checkCommit w st) = true ->
  ~ In ArchiveWaitBlocks (snd (fst (checkCommit w st))).
Proof.
  unfold checkCommit.
  destruct (Gitutil.GetCurrentCommitHash _ _) as [h|e];
    [|cbn; intuition (try discriminate)].
  destruct (negb (String.eqb h EmptyString) && negb (String.eqb h (lastKnownHash st))).
  - pose proof (processNewCommit_returned h st) as H.
    destruct (processNewCommit w h st) as [[st' t] returns]. cbn [fst snd] in *.
    intros Hr Hin. specialize (H Hr).
    repeat (apply in_app_or in Hin; destruct Hin as [Hin|Hin]);
      try (cbn in Hin; intuition (try discriminate)); auto.
  - destruct (String.eqb h (lastKnownHash st)); cbn; intuition (try discriminate).
Qed.

(** A commit is new when its hash is not empty and differs from the tracked
    one: the first branch of the cycle is taken. *)
Lemma new_commit_test (st : monitorState) {h : string} :
  h <> EmptyString -> h <> lastKnownHash st ->
  negb (String.eqb h EmptyString) && negb (String.eqb h (lastKnownHash st)) = true.
Proof.
  intros H1 H2.
  apply String.eqb_neq in H1, H2. now rewrite H1, H2.
Qed.

(** A cycle that finds the tracked commit again does nothing. *)
Lemma noop_cycle (st : monitorState) (h : string) :
  processingMu st = false ->
  Gitutil.GetCurrentCommitHash (git w) (repoPath st) = Ok h ->
  h = lastKnownHash st ->
  handleCommitCheck w st
  = (st, [TryLock true; Log LogDebounceTriggered;
          CallGetCurrentCommitHash (repoPath st); Log LogNoNewCommit; Unlock]).
Proof.
  intros Hmu Hcur ->. destruct st as [P repo mu cfg]. record_simpl_in_all. subst mu.
  unfold handleCommitCheck, checkCommit. record_simpl. rewrite Hcur.
  rewrite String.eqb_refl, andb_false_r. reflexivity.
Qed.

(** A cycle called while the mutex is held is dropped. *)
Lemma dropped_cycle (st : monitorState) :
  processingMu st = true ->
  handleCommitCheck w st = (st, [TryLock false; Log LogAlreadyInProgress]).
Proof. intros Hmu. unfold handleCommitCheck. now rewrite Hmu. Qed.

End CycleFacts.

(** C1.  When the cycle finds a new commit [H] while [P] is tracked and the
    enumeration of the changes of [H] fails, the tracked hash is set to [H]
    before the changes are fetched and set back to [P] after the failure:
    the state after the cycle is the state before it.  An event
    [SetLastKnownHash v] says that the variable holds [v] after an
    assignment: the variable holds [H] when the changes are fetched, and
    [P] again before the mutex is released. *)
Theorem enumeration_failure_rolls_back
  (w : Monitor.world) (st : Monitor.monitorState) (H : string) (e : error) :
  Monitor.processingMu st = false ->
  Gitutil.GetCurrentCommitHash (Monitor.git w) (Monitor.repoPath st) = Ok H ->
  H <> EmptyString ->
  H <> Monitor.lastKnownHash st ->
  Gitutil.GetChangedFilesInCommit (Monitor.git w) (Monitor.repoPath st) H = Err e ->
  let P := Monitor.lastKnownHash st in
  let repo := Monitor.repoPath st in
  Monitor.lastKnownHash (fst (Monitor.handleCommitCheck w st)) = P
  /\ fst (Monitor.handleCommitCheck w st) = st
  /\ snd (Monitor.handleCommitCheck w st)
     = [TryLock true; Log LogDebounceTriggered; CallGetCurrentCommitHash repo;
        Log (LogNewCommit P H);
        SetLastKnownHash H; CallGetChangedFiles repo H;
        Log (LogChangedFilesError H e); SetLastKnownHash P;
        Unlock]
  /\ (forall st1 t returns,
        Monitor.processNewCommit w H (Monitor.setProcessingMu true st) = (st1, t, returns) ->
        exists fetched,
          Monitor.lastKnownHash fetched = H
          /\ Gitutil.GetChangedFilesInCommit (Monitor.git w) (Monitor.repoPath fetched) H
             = Err e
          /\ st1 = Monitor.setLastKnownHash P fetched
          /\ t = [SetLastKnownHash (Monitor.lastKnownHash fetched);
                  CallGetChangedFiles (Monitor.repoPath fetched) H;
                  Log (LogChangedFilesError H e);
                  SetLastKnownHash (Monitor.lastKnownHash st1)]
          /\ returns = true).
Proof.
  intros Hmu Hcur Hne Hnew Hfail P repo.
  pose proof (new_commit_test st Hne Hnew) as Htest.
  subst P repo. destruct st as [P repo mu cfg]. record_simpl_in_all. subst mu.
  unfold Monitor.handleCommitCheck, Monitor.checkCommit, Monitor.processNewCommit.
  record_simpl. rewrite Hcur, Htest, Hfail.
  repeat split.
  intros st1 t returns [= <- <- <-].
  exists {| Monitor.lastKnownHash := H; Monitor.repoPath := repo;
            Monitor.processingMu := true; Monitor.appConfig := cfg |}.
  record_simpl. now repeat split.
Qed.

(** C2.  When the cycle finds a new commit [H] and the enumeration of its
    changes succeeds, the tracked hash is [H] at the end of the cycle and is
    assigned once, whatever follows: when the validator rejects the changes
    the pipeline is not invoked at all; when it accepts them the pipeline is
    invoked once, and its failure is logged without any other effect on the
    tracked hash.  A later cycle that finds [H] again does nothing: the
    commit is not retried.  That later cycle runs and finds no new commit
    when this one has returned, and is dropped when this one is stuck in
    the pipeline. *)
Theorem no_rollback_after_enumeration
  (w : Monitor.world) (st : Monitor.monitorState) (H : string)
  (changedFiles : list string) :
  Monitor.processingMu st = false ->
  Gitutil.GetCurrentCommitHash (Monitor.git w) (Monitor.repoPath st) = Ok H ->
  H <> EmptyString ->
  H <> Monitor.lastKnownHash st ->
  Gitutil.GetChangedFilesInCommit (Monitor.git w) (Monitor.repoPath st) H
    = Ok changedFiles ->
  let repo := Monitor.repoPath st in
  let verdict := fst (Validator.Validate (Monitor.git w) repo changedFiles) in
  let outcome := fst (Backup.RunBackup (Monitor.store w) repo H
                        (Backup (Monitor.appConfig st))) in
  let r := Monitor.handleCommitCheck w st in
  Monitor.lastKnownHash (fst r) = H
  /\ filter isSetHash (snd r) = [SetLastKnownHash H]
  /\ (verdict = false -> filter isPipelineEvent (snd r) = [])
  /\ (verdict = true ->
      filter isCallRunBackup (snd r) = [CallRunBackup repo H]
      /\ forall err, outcome = Returns (Some err) ->
                     In (Log (LogBackupFailed H err)) (snd r))
  /\ (forall w',
        Gitutil.GetCurrentCommitHash (Monitor.git w') repo = Ok H ->
        fst (Monitor.handleCommitCheck w' (fst r)) = fst r
        /\ filter isWorkEvent (snd (Monitor.handleCommitCheck w' (fst r))) = []
        /\ (verdict = false \/ outcome <> Blocks ->
            Monitor.handleCommitCheck w' (fst r)
            = (fst r, [TryLock true; Log LogDebounceTriggered;
                       CallGetCurrentCommitHash repo; Log LogNoNewCommit; Unlock]))
        /\ (verdict = true -> outcome = Blocks ->
            Monitor.handleCommitCheck w' (fst r)
            = (fst r, [TryLock false; Log LogAlreadyInProgress]))).
Proof.
  intros Hmu Hcur Hne Hnew Hfiles repo verdict outcome r.
  pose proof (new_commit_test st Hne Hnew) as Htest.
  subst verdict outcome repo. destruct st as [P repo mu cfg].
  record_simpl_in_all. subst mu.
  assert (Hr : r = Monitor.handleCommitCheck w
                     {| Monitor.lastKnownHash := P; Monitor.repoPath := repo;
                        Monitor.processingMu := false; Monitor.appConfig := cfg |})
    by reflexivity.
  clearbody r.
  unfold Monitor.handleCommitCheck, Monitor.checkCommit, Monitor.processNewCommit in Hr.
  record_simpl_in_all. rewrite Hcur, Htest, Hfiles in Hr.
  set (done_ := {| Monitor.lastKnownHash := H; Monitor.repoPath := repo;
                   Monitor.processingMu := false; Monitor.appConfig := cfg |}).
  set (stuck := {| Monitor.lastKnownHash := H; Monitor.repoPath := repo;
                   Monitor.processingMu := true; Monitor.appConfig := cfg |}).
  assert (Hagain : forall w',
    Gitutil.GetCurrentCommitHash (Monitor.git w') repo = Ok H ->
    Monitor.handleCommitCheck w' done_
    = (done_, [TryLock true; Log LogDebounceTriggered;
               CallGetCurrentCommitHash repo; Log LogNoNewCommit; Unlock])).
  { intros w' Hcur'. exact (noop_cycle w' done_ H eq_refl Hcur' eq_refl). }
  assert (Hdropped : forall w',
    Monitor.handleCommitCheck w' stuck = (stuck, [TryLock false; Log LogAlreadyInProgress])).
  { intros w'. exact (dropped_cycle w' stuck eq_refl). }
  assert (Hreturned : forall w',
    Gitutil.GetCurrentCommitHash (Monitor.git w') repo = Ok H ->
    fst (Monitor.handleCommitCheck w' done_) = done_
    /\ filter isWorkEvent (snd (Monitor.handleCommitCheck w' done_)) = []
    /\ (Monitor.handleCommitCheck w' done_
        = (done_, [TryLock true; Log LogDebounceTriggered;
                   CallGetCurrentCommitHash repo; Log LogNoNewCommit; Unlock]))).
  { intros w' Hcur'. rewrite (Hagain w' Hcur'). now repeat split. }
  destruct (Validator.Validate (Monitor.git w) repo changedFiles) as [[|] errs];
    cbn [fst].
  - pose proof (RunBackup_events (Monitor.store w) repo H (Backup cfg)) as Hev.
    destruct (Backup.RunBackup _ _ _ _) as [[[e|]|] tb];
      record_simpl_in_all; subst r; cbn [fst snd] in *;
      (split; [reflexivity|]);
      (split; [cbn; rewrite ?filter_app;
               rewrite (filter_none isSetHash isBackupEvent Hev);
               [reflexivity | intros []; now cbn]|]);
      (split; [discriminate|]);
      (split; [intros _; split;
               [cbn; rewrite ?filter_app;
                rewrite (filter_none isCallRunBackup isBackupEvent Hev);
                [reflexivity | intros []; now cbn]|]|]).
    + intros err [= <-]. cbn. rewrite !in_app_iff. cbn. tauto.
    + intros w' Hcur'. destruct (Hreturned w' Hcur') as (A & B & C).
      split; [exact A|]. split; [exact B|]. split; [intros _; exact C | discriminate].
    + discriminate.
    + intros w' Hcur'. destruct (Hreturned w' Hcur') as (A & B & C).
      split; [exact A|]. split; [exact B|]. split; [intros _; exact C | discriminate].
    + discriminate.
    + intros w' _. pose proof (Hdropped w') as D.
      change (Monitor.handleCommitCheck w' _) with (Monitor.handleCommitCheck w' stuck).
      rewrite D. cbn [fst snd].
      split; [reflexivity|]. split; [reflexivity|].
      split; [|reflexivity].
      intros [Hv|Hb]; [discriminate | congruence].
  - pose proof (Forall_isLog_violations errs) as Hev.
    record_simpl_in_all. subst r. cbn [fst snd].
    split; [reflexivity|].
    split; [cbn; rewrite ?filter_app;
            rewrite (filter_none isSetHash isLog Hev);
            [reflexivity | intros []; now cbn]|].
    split; [intros _; cbn; rewrite ?filter_app;
            rewrite (filter_none isPipelineEvent isLog Hev);
            [reflexivity | intros []; now cbn]|].
    split; [discriminate|].
    intros w' Hcur'. destruct (Hreturned w' Hcur') as (A & B & C).
    split; [exact A|]. split; [exact B|]. split; [intros _; exact C | discriminate].
Qed.

(** The lock discipline of the cycle.  A call when the mutex is held
    returns at once: the state is unchanged and nothing is done but the
    failed [TryLock] and the log line.  A call when the mutex is free takes
    it and runs the body with the mutex held, with no lock event in the
    body.  When the body returns the mutex is released as the last action;
    when the body is stuck, which it is exactly when [RunBackup] is, the
    mutex stays held and there is no [Unlock]. *)
Lemma cycle_lock_discipline (w : Monitor.world) (st : Monitor.monitorState) :
  let r := Monitor.handleCommitCheck w st in
  if Monitor.processingMu st
  then r = (st, [TryLock false; Log LogAlreadyInProgress])
  else exists st' body returns,
         Monitor.checkCommit w (Monitor.setProcessingMu true st) = (st', body, returns)
         /\ Monitor.processingMu st' = true
         /\ filter isLockEvent body = []
         /\ (returns = true ->
             Monitor.processingMu (fst r) = false
             /\ fst r = Monitor.setProcessingMu false st'
             /\ snd r = [TryLock true] ++ body ++ [Unlock])
         /\ (returns = false ->
             Monitor.processingMu (fst r) = true
             /\ fst r = st'
             /\ snd r = [TryLock true] ++ body
             /\ exists front, body = front ++ [ArchiveWaitBlocks]).
Proof.
  intros r. subst r. unfold Monitor.handleCommitCheck.
  destruct (Monitor.processingMu st) eqn:Hmu; [reflexivity|].
  pose proof (checkCommit_frame w (Monitor.setProcessingMu true st)) as (_ & Hheld & _).
  pose proof (checkCommit_events w (Monitor.setProcessingMu true st)) as Hev.
  pose proof (checkCommit_stuck w (Monitor.setProcessingMu true st)) as Hstuck.
  destruct (Monitor.checkCommit w (Monitor.setProcessingMu true st))
    as [[st' body] returns].
  cbn [fst snd] in *.
  exists st', body, returns.
  split; [reflexivity|]. split; [exact Hheld|]. split; [exact Hev|].
  split; intros ->; cbn [fst snd]; repeat split; auto.
Qed.

(* ================================================================== *)
(** ** Poisoning of the pipe *)

Section PoisonFacts.

Import Pipe Backup.

(** Writing never closes the write end. *)
Lemma write_werr (b : list byte) (p : pipe) : werr (fst (write b p)) = werr p.
Proof.
  unfold write. destruct (done p); [reflexivity|].
  destruct (readerBudget p) as [k|]; [|reflexivity].
  destruct (Nat.leb (List.length b) k); reflexivity.
Qed.

Lemma writeAll_werr (outs : list (list byte)) (p : pipe) :
  werr (fst (writeAll outs p)) = werr p.
Proof.
  revert p. induction outs as [|b outs IH]; intros p; simpl; [reflexivity|].
  pose proof (write_werr b p) as Hw.
  destruct (write b p) as [p' [|e|]]; cbn [fst] in *; try exact Hw.
  now rewrite IH.
Qed.

Lemma gzipWrite_werr (c : compressor) (b : list byte) (z : gzipWriter) (p : pipe) :
  werr (snd (fst (gzipWrite c b z p))) = werr p.
Proof.
  unfold gzipWrite. destruct (zerr z); [reflexivity|].
  pose proof (writeAll_werr (emit c (consumed z) b) p) as Hw.
  destruct (writeAll _ p) as [p' res]. exact Hw.
Qed.

Lemma gzipClose_werr (c : compressor) (z : gzipWriter) (p : pipe) :
  werr (snd (fst (gzipClose c z p))) = werr p.
Proof.
  unfold gzipClose. destruct (zerr z); [reflexivity|].
  destruct (closed z); [reflexivity|].
  pose proof (writeAll_werr (finish c (consumed z)) p) as Hw.
  destruct (writeAll _ p) as [p' res]. exact Hw.
Qed.

Lemma ioCopy_werr (c : compressor) (reads : list (list byte)) (last : error)
  (z : gzipWriter) (p : pipe) :
  werr (snd (fst (ioCopy c reads last z p))) = werr p.
Proof.
  revert z p. induction reads as [|b reads IH]; intros z p; simpl.
  - destruct last; reflexivity.
  - pose proof (gzipWrite_werr c b z p) as Hw.
    destruct (gzipWrite c b z p) as [[z' p'] [|e|]]; cbn [fst snd] in *; try exact Hw.
    now rewrite IH.
Qed.

(** The copy stops on a failed read exactly when every chunk was written
    and the last read gave an error other than [EOF]. *)
Lemma ioCopy_SrcFailed (c : compressor) (reads : list (list byte)) (last : error)
  (z : gzipWriter) (p : pipe) (e : error) :
  snd (ioCopy c reads last z p) = CopyStops (SrcFailed e) -> last = e /\ e <> EOF.
Proof.
  revert z p. induction reads as [|b reads IH]; intros z p; simpl.
  - destruct last; cbn; intros [= <-]; split; congruence.
  - destruct (gzipWrite c b z p) as [[z' p'] [|ew|]]; cbn [snd]; try discriminate.
    apply IH.
Qed.

(** A reader that reads until the writer closes takes every write. *)
Lemma write_unbounded (b : list byte) (p : pipe) :
  done p = false -> readerBudget p = None ->
  snd (write b p) = Written
  /\ done (fst (write b p)) = false /\ readerBudget (fst (write b p)) = None.
Proof.
  intros Hd Hb. unfold write. rewrite Hd, Hb. cbn. repeat split.
  unfold done in *. cbn. exact Hd.
Qed.

Lemma writeAll_unbounded (outs : list (list byte)) (p : pipe) :
  done p = false -> readerBudget p = None ->
  snd (writeAll outs p) = Written
  /\ done (fst (writeAll outs p)) = false
  /\ readerBudget (fst (writeAll outs p)) = None.
Proof.
  revert p. induction outs as [|b outs IH]; intros p Hd Hb; simpl; [now repeat split|].
  destruct (write_unbounded b p Hd Hb) as (Hr & Hd' & Hb').
  destruct (write b p) as [p' res]. cbn [fst snd] in *. subst res.
  now apply IH.
Qed.

Lemma ioCopy_unbounded (c : compressor) (reads : list (list byte)) (last : error)
  (z : gzipWriter) (p : pipe) :
  zerr z = None -> done p = false -> readerBudget p = None ->
  let r := ioCopy c reads last z p in
  snd r = CopyStops (match last with EOF => SrcEOF | e => SrcFailed e end)
  /\ zerr (fst (fst r)) = None
  /\ done (snd (fst r)) = false
  /\ readerBudget (snd (fst r)) = None.
Proof.
  revert z p. induction reads as [|b reads IH]; intros z p Hz Hd Hb; simpl.
  - destruct last; now repeat split.
  - unfold gzipWrite. rewrite Hz.
    destruct (writeAll_unbounded (emit c (consumed z) b) p Hd Hb) as (Hr & Hd' & Hb').
    destruct (writeAll _ p) as [p' res]. cbn [fst snd] in *. subst res.
    now apply IH.
Qed.

Lemma gzipClose_unbounded (c : compressor) (z : gzipWriter) (p : pipe) :
  zerr z = None -> done p = false -> readerBudget p = None ->
  snd (gzipClose c z p) = Written /\ done (snd (fst (gzipClose c z p))) = false.
Proof.
  intros Hz Hd Hb. unfold gzipClose. rewrite Hz.
  destruct (closed z); [now split|].
  destruct (writeAll_unbounded (finish c (consumed z)) p Hd Hb) as (Hr & Hd' & _).
  destruct (writeAll _ p) as [p' res]. now split.
Qed.

Lemma done_false_rerr (p : pipe) : done p = false -> rerr p = None.
Proof. unfold done. destruct (rerr p); [discriminate | reflexivity]. Qed.

Lemma rerr_closeWrite (err : option error) (p : pipe) :
  rerr (closeWrite err p) = rerr p.
Proof. reflexivity. Qed.

(** The goroutine against an upload that reads to the end gets to its end,
    with the read end open and the write end closed with the error of the
    last read of the source, [EOF] being the clean end. *)
Lemma startGoroutine_unbounded (c : compressor) (src : source) :
  exists p logs,
    startGoroutine c src (newPipe None)
    = Ended p (match lastRead src with EOF => SrcEOF | e => SrcFailed e end) logs
    /\ rerr p = None
    /\ readAtEnd p = lastRead src.
Proof.
  unfold startGoroutine.
  pose proof (ioCopy_unbounded c (chunks src) (lastRead src)
                NewWriter (newPipe None) eq_refl eq_refl eq_refl)
    as (Hs & Hz & Hd & Hb).
  destruct (ioCopy _ _ _ _ _) as [[z p1] stop]. cbn [fst snd] in *. subst stop.
  destruct (gzipClose_unbounded c z p1 Hz Hd Hb) as (Hr & Hd2).
  destruct (gzipClose c z p1) as [[z' p2] res]. cbn [fst snd] in *. subst res.
  pose proof (done_false_rerr p2 Hd2) as Hr.
  assert (Hw : werr p2 = None).
  { unfold done in Hd2. rewrite Hr in Hd2. destruct (werr p2); [discriminate|reflexivity]. }
  destruct (lastRead src); eexists; eexists; (split; [reflexivity|]);
    unfold readAtEnd, readCloseError; cbn; rewrite Hr, Hw; now split.
Qed.

End PoisonFacts.

(** C6.  When the read of the source by the compression goroutine fails
    with [e], the goroutine closes the write end of the pipe with [e]: the
    read of the upload that follows returns [e] as long as the upload has
    not closed its own end, and never the clean [EOF], so the upload fails
    with the error of its body instead of storing a truncated object.  An
    upload that reads until the end always gets there: on a source whose
    last read fails with [e] it observes [e]. *)
Theorem source_failure_poisons_pipe
  (c : Backup.compressor) (src : Backup.source) (budget : option nat) (e : error) :
  let r := Backup.gzipGoroutine c src (Pipe.newPipe budget) in
  let p := fst (fst r) in
  (snd (fst r) = Backup.SrcFailed e ->
     Backup.lastRead src = e
     /\ Pipe.werr p = Some e
     /\ (Pipe.rerr p = None ->
         Pipe.readAtEnd p = e
         /\ forall b bucket key,
              Backup.putObject b bucket key p = Some (Backup.uploadBodyError b e))
     /\ Pipe.readAtEnd p <> EOF)
  /\ (budget = None -> Backup.lastRead src = e -> e <> EOF ->
        snd (fst r) = Backup.SrcFailed e /\ Pipe.readAtEnd p = e).
Proof.
  cbv zeta.
  set (p := fst (fst (Backup.gzipGoroutine c src (Pipe.newPipe budget)))).
  assert (Hmain :
    snd (fst (Backup.gzipGoroutine c src (Pipe.newPipe budget))) = Backup.SrcFailed e ->
    Backup.lastRead src = e
    /\ Pipe.werr p = Some e
    /\ (Pipe.rerr p = None ->
        Pipe.readAtEnd p = e
        /\ forall b bucket key,
             Backup.putObject b bucket key p = Some (Backup.uploadBodyError b e))
    /\ Pipe.readAtEnd p <> EOF).
  { subst p. unfold Backup.gzipGoroutine, Backup.startGoroutine.
    pose proof (ioCopy_werr c (Backup.chunks src) (Backup.lastRead src)
                  Backup.NewWriter (Pipe.newPipe budget)) as Hw1.
    pose proof (ioCopy_SrcFailed c (Backup.chunks src) (Backup.lastRead src)
                  Backup.NewWriter (Pipe.newPipe budget) e) as Hstop.
    destruct (Backup.ioCopy _ _ _ _ _) as [[z p1] [stop|unread]]; cbn [fst snd] in *;
      [|discriminate].
    pose proof (gzipClose_werr c z p1) as Hw2.
    assert (Hpoisoned : forall q,
      Pipe.werr q = None ->
      snd (fst (Backup.releaseGoroutine (Backup.Ended (Pipe.closeWrite (Some e) q)
                                           stop []))) = Backup.SrcFailed e ->
      Backup.lastRead src = e
      /\ Pipe.werr (Pipe.closeWrite (Some e) q) = Some e
      /\ (Pipe.rerr (Pipe.closeWrite (Some e) q) = None ->
          Pipe.readAtEnd (Pipe.closeWrite (Some e) q) = e
          /\ forall b bucket key,
               Backup.putObject b bucket key (Pipe.closeWrite (Some e) q)
               = Some (Backup.uploadBodyError b e))
      /\ Pipe.readAtEnd (Pipe.closeWrite (Some e) q) <> EOF).
    { intros q Hq. cbn [Backup.releaseGoroutine fst snd]. intros ->.
      destruct (Hstop eq_refl) as [Hlast Hne].
      assert (Hwerr : Pipe.werr (Pipe.closeWrite (Some e) q) = Some e).
      { unfold Pipe.closeWrite. cbn. now rewrite Hq. }
      assert (Hread : Pipe.rerr (Pipe.closeWrite (Some e) q) = None ->
                      Pipe.readAtEnd (Pipe.closeWrite (Some e) q) = e).
      { intros Hr. unfold Pipe.readAtEnd, Pipe.readCloseError.
        now rewrite Hwerr, Hr. }
      split; [exact Hlast|]. split; [exact Hwerr|]. split.
      - intros Hr. split; [now apply Hread|].
        intros b bucket key. unfold Backup.putObject.
        rewrite Hr, (Hread Hr). destruct e; congruence.
      - unfold Pipe.readAtEnd, Pipe.readCloseError. rewrite Hwerr.
        destruct (Pipe.rerr (Pipe.closeWrite (Some e) q)); congruence. }
    destruct (Backup.gzipClose c z p1) as [[z' p2] [|ce|]];
      cbn [fst snd Backup.releaseGoroutine] in *;
      intros ->; cbn [Backup.copyError Backup.closingError Backup.stickyError].
    - apply Hpoisoned; [now rewrite Hw2, Hw1 | reflexivity].
    - apply Hpoisoned; [now rewrite Hw2, Hw1 | reflexivity].
    - apply (Hpoisoned (Pipe.closeRead None p2)); [|reflexivity].
      cbn. now rewrite Hw2, Hw1. }
  split; [exact Hmain|].
  intros -> Hlast Hne.
  destruct (startGoroutine_unbounded c src) as (q & logs & Hq & Hrerr & _).
  assert (Hstop :
    snd (fst (Backup.gzipGoroutine c src (Pipe.newPipe None))) = Backup.SrcFailed e).
  { unfold Backup.gzipGoroutine. rewrite Hq. cbn [Backup.releaseGoroutine fst snd].
    rewrite Hlast. destruct e; congruence. }
  split; [exact Hstop|].
  destruct (Hmain Hstop) as (_ & _ & Hread & _).
  apply Hread. subst p. unfold Backup.gzipGoroutine. rewrite Hq.
  cbn [Backup.releaseGoroutine fst snd]. exact Hrerr.
Qed.

(* ================================================================== *)
(** ** A backup that goes well *)

Section HealthyFacts.

Import Pipe Backup.

(** On a stream that ends cleanly, an upload that reads everything meets
    the clean end of the body. *)
Lemma gzipGoroutine_clean (c : compressor) (src : source) :
  lastRead src = EOF ->
  let p := fst (fst (gzipGoroutine c src (newPipe None))) in
  rerr p = None /\ readAtEnd p = EOF.
Proof.
  intros Hlast. cbv zeta. unfold gzipGoroutine.
  destruct (startGoroutine_unbounded c src) as (q & logs & Hq & Hr & He).
  rewrite Hq. cbn [releaseGoroutine fst]. split; [exact Hr | congruence].
Qed.

(** In a healthy environment [RunBackup] succeeds, with one upload, to the
    key [commit-hash.tar.gz]. *)
Lemma RunBackup_healthy {b : backupWorld} {cfg : BackupConfig}
  {repoPath commitHash : string} :
  healthyPipeline b cfg repoPath commitHash ->
  exists body tb,
    RunBackup b repoPath commitHash cfg = (Returns None, tb)
    /\ filter isPutObject tb
       = [PutObject (Bucket cfg) ("commit-" ++ commitHash ++ ".tar.gz") body None].
Proof.
  intros (Hbucket & Hprefix & Hsdk & Hpipe & (src & Hstart & Hlast) & Hbudget
          & Hstore & Hwait).
  unfold RunBackup, GzipPipe, s3Key.
  apply String.eqb_neq in Hbucket.
  rewrite Hbucket, Hsdk, Hpipe, Hstart, Hbudget, Hwait, Hprefix. cbn [String.eqb negb].
  destruct (startGoroutine_unbounded (gzip b) src) as (p & logs & Hq & Hr & He).
  pose proof (startGoroutine_logs (gzip b) src (newPipe None)) as Hlogs.
  rewrite Hq in *. cbn [logsOf pipeOf uploadResult archiveExits] in *.
  unfold putObject. rewrite Hr, He, Hlast, Hstore.
  exists (delivered p). eexists. split; [reflexivity|].
  rewrite !filter_app.
  rewrite (filter_none isPutObject isLog Hlogs) by (intros []; now cbn).
  destruct (negb (String.eqb (AccessKeyID cfg) EmptyString)
            && negb (String.eqb (SecretKey cfg) EmptyString)); reflexivity.
Qed.

End HealthyFacts.

(** C3, as the code has it.  A commit [abc123] whose changed files are
    [README.md] and the project file named after its project folder,
    [src/projects/song-artist-feat-x-120bpm-prodby.me/song-artist-feat-x-120bpm-prodby.me.flp],
    with the required root files in the index, passes validation, and in a
    healthy environment the cycle produces a single successful put, to the
    key [commit-abc123.tar.gz]. *)
Theorem end_to_end_backup (w : Monitor.world) (st : Monitor.monitorState) :
  let repo := Monitor.repoPath st in
  let cfg := Backup (Monitor.appConfig st) in
  Monitor.processingMu st = false ->
  Monitor.lastKnownHash st <> "abc123" ->
  Gitutil.GetCurrentCommitHash (Monitor.git w) repo = Ok "abc123" ->
  Gitutil.GetChangedFilesInCommit (Monitor.git w) repo "abc123"
    = Ok (folderFlpFiles) ->
  (forall reqFile, In reqFile Validator.requiredRootFiles ->
                   Gitutil.CheckFileExists (Monitor.git w) repo reqFile = true) ->
  healthyPipeline (Monitor.store w) cfg repo "abc123" ->
  Validator.Validate (Monitor.git w) repo (folderFlpFiles) = (true, [])
  /\ exists body,
       filter isPutObject (snd (Monitor.handleCommitCheck w st))
       = [PutObject (Bucket cfg) "commit-abc123.tar.gz" body None]
       /\ In (Log (LogBackupSucceeded "abc123")) (snd (Monitor.handleCommitCheck w st)).
Proof.
  intros repo cfg Hmu Hnew Hcur Hfiles Hreq Hhealthy.
  assert (Hvalid :
    Validator.Validate (Monitor.git w) repo (folderFlpFiles) = (true, [])).
  { unfold Validator.Validate.
    change (fold_left (fun st0 file => Validator.checkFile file st0)
              (folderFlpFiles)
              {| Validator.errors := []; Validator.isValid := true |})
      with (pathChecks (folderFlpFiles)).
    replace (pathChecks (folderFlpFiles))
      with {| Validator.errors := []; Validator.isValid := true |}
      by (vm_compute; reflexivity).
    unfold Validator.checkRequired.
    cbn [fold_left Validator.requiredRootFiles].
    rewrite !Hreq by (cbn; tauto). reflexivity. }
  split; [exact Hvalid|].
  destruct (RunBackup_healthy Hhealthy) as (body & tb & Hrun & Hput).
  exists body.
  assert (Hne : "abc123" <> EmptyString) by discriminate.
  pose proof (new_commit_test st Hne (not_eq_sym Hnew)) as Htest.
  subst repo cfg. destruct st as [P repo mu cfg].
  record_simpl_in_all. subst mu.
  unfold Monitor.handleCommitCheck, Monitor.checkCommit, Monitor.processNewCommit.
  record_simpl. rewrite Hcur, Htest, Hfiles, Hvalid, Hrun.
  split.
  - cbn. rewrite !filter_app, Hput. reflexivity.
  - cbn. rewrite !in_app_iff. cbn. tauto.
Qed.

(* ================================================================== *)
(** ** Startup *)

Section StartupFacts.

Import Monitor.

Variable sw : startWorld.

(** A class of events that the walk does not log. *)
Variable P : event -> bool.
Hypothesis P_not_walk : forall ev, isWalkLog ev = true -> P ev = false.

Lemma visit_filter (path : string) (isDir : bool) (w : watcher) :
  filter P (snd (fst (visit sw path isDir w))) = filter P (snd w).
Proof.
  unfold visit. destruct isDir; [|reflexivity].
  destruct (String.eqb _ _ || String.eqb _ _); [reflexivity|].
  destruct (addWatch sw path (fst w)) as [wt [e|]]; cbn [fst snd]; [|reflexivity].
  rewrite filter_app. cbn [filter]. rewrite P_not_walk by reflexivity.
  apply app_nil_r.
Qed.

Lemma visitError_filter (path : string) (e : error) (w : watcher) :
  filter P (snd (visitError path e w)) = filter P (snd w).
Proof.
  unfold visitError. cbn [snd]. rewrite filter_app. cbn [filter].
  rewrite P_not_walk by reflexivity. apply app_nil_r.
Qed.

Lemma walkDir_filter (d : fsnode) :
  forall (path : string) (w : watcher),
    filter P (snd (walkDir sw path d w)) = filter P (snd w).
Proof.
  revert d. fix IH 1. intros [name | name readErr entries] path w.
  - apply (visit_filter path false w).
  - cbn [walkDir]. pose proof (visit_filter path true w) as Hv.
    destruct (visit sw path true w) as [w1 [|]]; cbn [fst] in Hv; [exact Hv|].
    assert (Hfold : forall w2,
      filter P (snd (fold_left
        (fun acc d1 => walkDir sw (Filepath.Join [path; nodeName d1]) d1 acc)
        entries w2)) = filter P (snd w2)).
    { induction entries as [|d1 entries IHe]; intros w2; cbn [fold_left].
      - reflexivity.
      - rewrite IHe. apply IH. }
    rewrite Hfold, <- Hv.
    destruct readErr; [apply visitError_filter | reflexivity].
Qed.

Lemma addRecursiveWatch_filter (rootPath : string) (w : watcher) :
  filter P (snd (fst (addRecursiveWatch sw rootPath w))) = filter P (snd w).
Proof.
  unfold addRecursiveWatch, WalkDir.
  assert (Hw : filter P (snd match lstat sw rootPath with
                             | Ok d => walkDir sw rootPath d w
                             | Err e => visitError rootPath e w
                             end) = filter P (snd w)).
  { destruct (lstat sw rootPath); [apply walkDir_filter | apply visitError_filter]. }
  destruct (addWatch sw rootPath _) as [wt [e|]]; cbn [fst snd]; [|exact Hw].
  rewrite filter_app. cbn [filter]. rewrite P_not_walk by reflexivity.
  now rewrite app_nil_r.
Qed.

End StartupFacts.

Lemma walk_not_addWatchFailed (ev : event) :
  isWalkLog ev = true -> isAddWatchFailed ev = false.
Proof. destruct ev as [[]| | | | | | | | | | |]; cbn; congruence. Qed.

Lemma walk_not_watchErrors (ev : event) :
  isWalkLog ev = true -> isWatchErrors ev = false.
Proof. destruct ev as [[]| | | | | | | | | | |]; cbn; congruence. Qed.

Section StartFacts.

Import Monitor.

Variable sw : startWorld.

Lemma existsb_filter {A : Type} (Q : A -> bool) (l : list A) :
  existsb Q l = negb (isNil (filter Q l)).
Proof.
  induction l as [|x l IH]; simpl; [reflexivity|].
  destruct (Q x); simpl; [reflexivity | exact IH].
Qed.

(** The loop over the listed paths logs one failure line for each error it
    counts, and no summary line. *)
Lemma addWatches_counts (pathsToWatch : list string) :
  forall (w : watcher) (n : nat),
    let r := addWatches sw pathsToWatch w n in
    n <= snd r
    /\ List.length (filter isAddWatchFailed (snd (fst r)))
       = List.length (filter isAddWatchFailed (snd w)) + (snd r - n)
    /\ filter isWatchErrors (snd (fst r)) = filter isWatchErrors (snd w).
Proof.
  induction pathsToWatch as [|p rest IH]; intros w n; cbn [addWatches].
  - cbn. repeat split; lia.
  - assert (Hmissing :
      let r := addWatches sw rest (fst w, snd w ++ [Log (LogPathMissing p)]) n in
      n <= snd r
      /\ List.length (filter isAddWatchFailed (snd (fst r)))
         = List.length (filter isAddWatchFailed (snd w)) + (snd r - n)
      /\ filter isWatchErrors (snd (fst r)) = filter isWatchErrors (snd w)).
    { destruct (IH (fst w, snd w ++ [Log (LogPathMissing p)]) n) as (H1 & H2 & H3).
      cbn [snd] in H2, H3. rewrite filter_app, app_nil_r in H2, H3.
      repeat split; assumption. }
    destruct (stat sw p); try exact Hmissing.
    pose proof (addRecursiveWatch_filter sw isAddWatchFailed walk_not_addWatchFailed
                  p (fst w, snd w ++ [Log (LogAddingWatch p)])) as Hf.
    pose proof (addRecursiveWatch_filter sw isWatchErrors walk_not_watchErrors
                  p (fst w, snd w ++ [Log (LogAddingWatch p)])) as He.
    cbn [snd] in Hf, He. rewrite filter_app, app_nil_r in Hf, He.
    destruct (addRecursiveWatch sw p _) as [w1 [e|]]; cbn [fst] in Hf, He.
    + destruct (IH (fst w1, snd w1 ++ [Log (LogAddWatchFailed p e)]) (S n))
        as (H1 & H2 & H3).
      cbn [snd] in H2, H3. rewrite filter_app in H2, H3.
      cbn [filter isAddWatchFailed isWatchErrors] in H2, H3.
      rewrite app_nil_r in H3. rewrite length_app in H2. cbn [List.length] in H2.
      rewrite Hf in H2. rewrite He in H3.
      repeat split; [lia | lia | assumption].
    + destruct (IH w1 n) as (H1 & H2 & H3).
      rewrite Hf in H2. rewrite He in H3.
      repeat split; assumption.
Qed.

End StartFacts.

Section WatchFacts.

Import Monitor.

Variable sw : startWorld.

(** Only a path whose [watcher.Add] returned no error gets into the list of
    the watcher. *)
Lemma addWatch_added (path : string) (wt : list string) :
  (forall q, In q wt -> exists wt0, watcherAdd sw wt0 q = None) ->
  forall q, In q (fst (addWatch sw path wt)) -> exists wt0, watcherAdd sw wt0 q = None.
Proof.
  intros Hwt q. unfold addWatch.
  destruct (watcherAdd sw wt path) eqn:Hadd; cbn [fst]; [apply Hwt|].
  destruct (existsb (String.eqb path) wt); [apply Hwt|].
  rewrite in_app_iff. cbn [In]. intros [Hin|[<-|[]]]; [now apply Hwt|].
  now exists wt.
Qed.

Lemma visit_added (path : string) (isDir : bool) (w : watcher) :
  (forall q, In q (fst w) -> exists wt0, watcherAdd sw wt0 q = None) ->
  forall q, In q (fst (fst (visit sw path isDir w))) ->
            exists wt0, watcherAdd sw wt0 q = None.
Proof.
  intros Hw. unfold visit. destruct isDir; [|exact Hw].
  destruct (String.eqb _ _ || String.eqb _ _); [exact Hw|].
  pose proof (addWatch_added path (fst w) Hw) as Ha.
  destruct (addWatch sw path (fst w)) as [wt [e|]]; exact Ha.
Qed.

Lemma walkDir_added (d : fsnode) :
  forall (path : string) (w : watcher),
    (forall q, In q (fst w) -> exists wt0, watcherAdd sw wt0 q = None) ->
    forall q, In q (fst (walkDir sw path d w)) -> exists wt0, watcherAdd sw wt0 q = None.
Proof.
  revert d. fix IH 1. intros [name | name readErr entries] path w Hw.
  - apply (visit_added path false w Hw).
  - cbn [walkDir]. pose proof (visit_added path true w Hw) as Hv.
    destruct (visit sw path true w) as [w1 [|]]; cbn [fst] in Hv; [exact Hv|].
    assert (Hfold : forall w2,
      (forall q, In q (fst w2) -> exists wt0, watcherAdd sw wt0 q = None) ->
      forall q, In q (fst (fold_left
        (fun acc d1 => walkDir sw (Filepath.Join [path; nodeName d1]) d1 acc)
        entries w2)) -> exists wt0, watcherAdd sw wt0 q = None).
    { induction entries as [|d1 entries IHe]; intros w2 Hw2; cbn [fold_left].
      - exact Hw2.
      - apply IHe. now apply IH. }
    apply Hfold. destruct readErr; exact Hv.
Qed.

(** [addRecursiveWatch] returns the error of the [watcher.Add] of its
    root, which is called after the walk. *)
Lemma addRecursiveWatch_error (rootPath : string) (w : watcher) :
  snd (addRecursiveWatch sw rootPath w)
  = watcherAdd sw (fst (WalkDir sw rootPath w)) rootPath.
Proof.
  unfold addRecursiveWatch, addWatch.
  destruct (watcherAdd sw (fst (WalkDir sw rootPath w)) rootPath); reflexivity.
Qed.

Lemma addRecursiveWatch_added (rootPath : string) (w : watcher) :
  (forall q, In q (fst w) -> exists wt0, watcherAdd sw wt0 q = None) ->
  forall q, In q (fst (fst (addRecursiveWatch sw rootPath w))) ->
            exists wt0, watcherAdd sw wt0 q = None.
Proof.
  intros Hw. unfold addRecursiveWatch.
  assert (Hwalk : forall q, In q (fst (WalkDir sw rootPath w)) ->
                            exists wt0, watcherAdd sw wt0 q = None).
  { unfold WalkDir. destruct (lstat sw rootPath); [now apply walkDir_added | exact Hw]. }
  pose proof (addWatch_added rootPath _ Hwalk) as Ha.
  destruct (addWatch sw rootPath _) as [wt [e|]]; exact Ha.
Qed.

(** The loop over the listed paths: what the watcher has in its list was
    added without error; a failure line for a path says that the path is
    listed and found, and that its [watcher.Add] returned the error of the
    line; and a listed path that is found and whose [watcher.Add] fails gets
    its failure line. *)
Lemma addWatches_watches (pathsToWatch : list string) :
  forall (w : watcher) (n : nat),
    let r := addWatches sw pathsToWatch w n in
    ((forall q, In q (fst w) -> exists wt0, watcherAdd sw wt0 q = None) ->
     forall q, In q (fst (fst r)) -> exists wt0, watcherAdd sw wt0 q = None)
    /\ (forall p e, In (Log (LogAddWatchFailed p e)) (snd (fst r)) ->
          In (Log (LogAddWatchFailed p e)) (snd w)
          \/ (In p pathsToWatch /\ stat sw p = StatOk
              /\ exists wt, watcherAdd sw wt p = Some e))
    /\ (forall p e, In (Log (LogAddWatchFailed p e)) (snd w) ->
          In (Log (LogAddWatchFailed p e)) (snd (fst r)))
    /\ (forall p, In p pathsToWatch -> stat sw p = StatOk ->
          (forall wt, watcherAdd sw wt p <> None) ->
          exists e, In (Log (LogAddWatchFailed p e)) (snd (fst r))).
Proof.
  induction pathsToWatch as [|p0 rest IH]; intros w n; cbn [addWatches].
  - cbn [fst snd]. repeat split; auto. intros p [].
  - assert (Hkeep : forall (l1 l2 : list event) p e,
      filter isAddWatchFailed l2 = filter isAddWatchFailed l1 ->
      In (Log (LogAddWatchFailed p e)) l1 <-> In (Log (LogAddWatchFailed p e)) l2).
    { intros l1 l2 p e Hf.
      assert (Hin : forall l, In (Log (LogAddWatchFailed p e)) l
                              <-> In (Log (LogAddWatchFailed p e)) (filter isAddWatchFailed l)).
      { intros l. rewrite filter_In. cbn. tauto. }
      rewrite (Hin l1), (Hin l2), Hf. tauto. }
    assert (Hmissing : stat sw p0 <> StatOk ->
      let r := addWatches sw rest (fst w, snd w ++ [Log (LogPathMissing p0)]) n in
      ((forall q, In q (fst w) -> exists wt0, watcherAdd sw wt0 q = None) ->
       forall q, In q (fst (fst r)) -> exists wt0, watcherAdd sw wt0 q = None)
      /\ (forall p e, In (Log (LogAddWatchFailed p e)) (snd (fst r)) ->
            In (Log (LogAddWatchFailed p e)) (snd w)
            \/ (In p (p0 :: rest) /\ stat sw p = StatOk
                /\ exists wt, watcherAdd sw wt p = Some e))
      /\ (forall p e, In (Log (LogAddWatchFailed p e)) (snd w) ->
            In (Log (LogAddWatchFailed p e)) (snd (fst r)))
      /\ (forall p, In p (p0 :: rest) -> stat sw p = StatOk ->
            (forall wt, watcherAdd sw wt p <> None) ->
            exists e, In (Log (LogAddWatchFailed p e)) (snd (fst r)))).
    { intros Hstat.
      destruct (IH (fst w, snd w ++ [Log (LogPathMissing p0)]) n) as (H1 & H2 & H3 & H4).
      cbn [fst snd] in *. split; [exact H1|]. split; [|split].
      - intros p e Hin. destruct (H2 p e Hin) as [Hold|(Hp & Hs & Ha)].
        + apply in_app_or in Hold. destruct Hold as [Hold|[Hold|[]]];
            [now left | discriminate].
        + right. split; [now right | now split].
      - intros p e Hin. apply H3. apply in_or_app. now left.
      - intros p [<-|Hp] Hs Hall; [contradiction | now apply H4]. }
    destruct (stat sw p0) eqn:Hstat; try (apply Hmissing; discriminate).
    clear Hmissing.
    pose proof (addRecursiveWatch_filter sw isAddWatchFailed walk_not_addWatchFailed
                  p0 (fst w, snd w ++ [Log (LogAddingWatch p0)])) as Hf.
    pose proof (addRecursiveWatch_error p0 (fst w, snd w ++ [Log (LogAddingWatch p0)]))
      as Herr.
    pose proof (addRecursiveWatch_added p0 (fst w, snd w ++ [Log (LogAddingWatch p0)]))
      as Hadded.
    cbn [fst snd] in Hf, Hadded. rewrite filter_app, app_nil_r in Hf.
    destruct (addRecursiveWatch sw p0 _) as [w1 [e0|]]; cbn [fst snd] in Hf, Herr, Hadded.
    + destruct (IH (fst w1, snd w1 ++ [Log (LogAddWatchFailed p0 e0)]) (S n))
        as (H1 & H2 & H3 & H4).
      cbn [fst snd] in *. split; [|split; [|split]].
      * intros Hw. apply H1. now apply Hadded.
      * intros p e Hin. destruct (H2 p e Hin) as [Hold|(Hp & Hs & Ha)].
        -- apply in_app_or in Hold. destruct Hold as [Hold|[Hold|[]]].
           ++ left. now apply (Hkeep (snd w) (snd w1) p e Hf).
           ++ injection Hold as <- <-. right.
              split; [now left|]. split; [exact Hstat|]. eexists. symmetry. exact Herr.
        -- right. split; [now right | now split].
      * intros p e Hin. apply H3. apply in_or_app. left.
        now apply (Hkeep (snd w) (snd w1) p e Hf).
      * intros p [<-|Hp] Hs Hall; [|now apply H4].
        exists e0. apply H3. apply in_or_app. right. now left.
    + destruct (IH w1 n) as (H1 & H2 & H3 & H4).
      split; [|split; [|split]].
      * intros Hw. apply H1. now apply Hadded.
      * intros p e Hin. destruct (H2 p e Hin) as [Hold|(Hp & Hs & Ha)].
        -- left. now apply (Hkeep (snd w) (snd w1) p e Hf).
        -- right. split; [now right | now split].
      * intros p e Hin. apply H3. now apply (Hkeep (snd w) (snd w1) p e Hf).
      * intros p [<-|Hp] Hs Hall; [|now apply H4].
        exfalso. apply (Hall _ (eq_sym Herr)).
Qed.

(** [Start] up to the loop over the listed paths, and from there on. *)
Lemma Start_cases (g : gitWorld) (cfg : Config) :
  let gitDir := Filepath.Join [RepoPath cfg; ".git"] in
  let roots := [gitDir; Filepath.Join [gitDir; "refs"]] in
  match Start sw g cfg with
  | Fatal t =>
      stat sw gitDir = StatNotExist \/ isNone (newWatcher sw) = false
  | EventLoop st watched t =>
      isStatNotExist (stat sw gitDir) = false
      /\ newWatcher sw = None
      /\ processingMu st = false
      /\ exists t1,
           filter isAddWatchFailed t1 = [] /\ filter isWatchErrors t1 = []
           /\ watched = fst (fst (addWatches sw roots ([], t1) 0))
           /\ t = snd (fst (addWatches sw roots ([], t1) 0))
                  ++ (if Nat.ltb 0 (snd (addWatches sw roots ([], t1) 0))
                      then [Log (LogWatchErrors (snd (addWatches sw roots ([], t1) 0)))]
                      else [])
                  ++ [Log LogWatcherStarted]
  end.
Proof.
  cbv zeta. unfold Start.
  set (gitDir := Filepath.Join [RepoPath cfg; ".git"]).
  assert (Hloop : forall hash t0,
    filter isAddWatchFailed t0 = [] -> filter isWatchErrors t0 = [] ->
    exists t1, filter isAddWatchFailed t1 = [] /\ filter isWatchErrors t1 = []
      /\ t1 = t0 ++ [Log (LogStartingMonitoring (RepoPath cfg))]
                 ++ (if negb (String.eqb hash EmptyString)
                     then [Log (LogInitialHash hash)] else [])).
  { intros hash t0 Hf0 He0. eexists. split; [|split; [|reflexivity]].
    - rewrite !filter_app, Hf0. now destruct (negb (String.eqb hash EmptyString)).
    - rewrite !filter_app, He0. now destruct (negb (String.eqb hash EmptyString)). }
  assert (Hgo : forall hash t0,
    filter isAddWatchFailed t0 = [] -> filter isWatchErrors t0 = [] ->
    match
      (let t1 := t0 ++ [Log (LogStartingMonitoring (RepoPath cfg))]
                 ++ (if negb (String.eqb hash EmptyString)
                     then [Log (LogInitialHash hash)] else []) in
       match newWatcher sw with
       | Some err => Fatal (t1 ++ [Log (LogFatalWatcher err)])
       | None =>
           let pathsToWatch := [gitDir; Filepath.Join [gitDir; "refs"]] in
           let '(w, watchErrors) := addWatches sw pathsToWatch ([], t1) 0 in
           let t2 := snd w
                     ++ (if Nat.ltb 0 watchErrors
                         then [Log (LogWatchErrors watchErrors)] else [])
                     ++ [Log LogWatcherStarted] in
           EventLoop
             {| lastKnownHash := hash; repoPath := RepoPath cfg;
                processingMu := false; appConfig := cfg |}
             (fst w) t2
       end)
    with
    | Fatal t => isNone (newWatcher sw) = false
    | EventLoop st watched t =>
        newWatcher sw = None
        /\ processingMu st = false
        /\ exists t1,
             filter isAddWatchFailed t1 = [] /\ filter isWatchErrors t1 = []
             /\ watched = fst (fst (addWatches sw [gitDir; Filepath.Join [gitDir; "refs"]]
                                      ([], t1) 0))
             /\ t = snd (fst (addWatches sw [gitDir; Filepath.Join [gitDir; "refs"]]
                                ([], t1) 0))
                    ++ (if Nat.ltb 0 (snd (addWatches sw
                                             [gitDir; Filepath.Join [gitDir; "refs"]]
                                             ([], t1) 0))
                        then [Log (LogWatchErrors
                                     (snd (addWatches sw
                                             [gitDir; Filepath.Join [gitDir; "refs"]]
                                             ([], t1) 0)))]
                        else [])
                    ++ [Log LogWatcherStarted]
    end).
  { intros hash t0 Hf0 He0. cbv zeta.
    destruct (Hloop hash t0 Hf0 He0) as (t1 & Hf1 & He1 & ->).
    destruct (newWatcher sw) as [err|]; [reflexivity|].
    destruct (addWatches sw _ _ 0) as [w n] eqn:Hw.
    split; [reflexivity|]. split; [reflexivity|].
    eexists. split; [exact Hf1|]. split; [exact He1|].
    rewrite Hw. split; reflexivity. }
  destruct (stat sw gitDir) eqn:Hstat; [| now left |].
  - destruct (Gitutil.GetCurrentCommitHash g (RepoPath cfg)) as [h|e].
    + specialize (Hgo h [] eq_refl eq_refl). cbv zeta in Hgo.
      destruct (newWatcher sw); [now right|].
      destruct (addWatches sw _ _ 0) as [w n]. tauto.
    + specialize (Hgo EmptyString [Log (LogInitialHashWarning (RepoPath cfg) e)]
                    eq_refl eq_refl). cbv zeta in Hgo.
      destruct (newWatcher sw); [now right|].
      destruct (addWatches sw _ _ 0) as [w n]. tauto.
  - destruct (Gitutil.GetCurrentCommitHash g (RepoPath cfg)) as [h|e0].
    + specialize (Hgo h [] eq_refl eq_refl). cbv zeta in Hgo.
      destruct (newWatcher sw); [now right|].
      destruct (addWatches sw _ _ 0) as [w n]. tauto.
    + specialize (Hgo EmptyString [Log (LogInitialHashWarning (RepoPath cfg) e0)]
                    eq_refl eq_refl). cbv zeta in Hgo.
      destruct (newWatcher sw); [now right|].
      destruct (addWatches sw _ _ 0) as [w n]. tauto.
Qed.

End WatchFacts.

(** C4, as the code has it.  The startup ends the process before the event
    loop in two cases only: the metadata directory does not exist, or the
    watcher cannot be made.  In every other case the event loop is entered,
    whether all, some or none of the watches were added: the watcher watches
    only paths whose [watcher.Add] returned no error, which may be none.
    The warnings say what failed.  A failure line for a path is logged only
    for a listed path that is found and whose [watcher.Add] returned the
    error of the line, and it is logged for every listed path that is found
    and whose [watcher.Add] fails; the warning about watch errors is logged
    exactly when there is such a line, with the number of these lines. *)
Theorem startup_continues_whatever_watches
  (sw : Monitor.startWorld) (g : gitWorld) (cfg : Config) :
  let gitDir := Filepath.Join [RepoPath cfg; ".git"] in
  let roots := [gitDir; Filepath.Join [gitDir; "refs"]] in
  match Monitor.Start sw g cfg with
  | Monitor.Fatal t =>
      Monitor.stat sw gitDir = Monitor.StatNotExist
      \/ isNone (Monitor.newWatcher sw) = false
  | Monitor.EventLoop st watched t =>
      isStatNotExist (Monitor.stat sw gitDir) = false
      /\ Monitor.newWatcher sw = None
      /\ Monitor.processingMu st = false
      /\ (forall q, In q watched -> exists wt, Monitor.watcherAdd sw wt q = None)
      /\ (forall p e, In (Log (LogAddWatchFailed p e)) t ->
            In p roots /\ Monitor.stat sw p = Monitor.StatOk
            /\ exists wt, Monitor.watcherAdd sw wt p = Some e)
      /\ (forall p, In p roots -> Monitor.stat sw p = Monitor.StatOk ->
            (forall wt, Monitor.watcherAdd sw wt p <> None) ->
            exists e, In (Log (LogAddWatchFailed p e)) t)
      /\ (forall n, In (Log (LogWatchErrors n)) t
                    <-> n = List.length (filter isAddWatchFailed t) /\ 0 < n)
      /\ existsb isWatchErrors t = existsb isAddWatchFailed t
  end.
Proof.
  cbv zeta. pose proof (Start_cases sw g cfg) as H. cbv zeta in H.
  destruct (Monitor.Start sw g cfg) as [t|st watched t]; [exact H|].
  destruct H as (Hstat & Hnew & Hmu & t1 & Hf1 & He1 & -> & ->).
  set (gitDir := Filepath.Join [RepoPath cfg; ".git"]) in *.
  set (roots := [gitDir; Filepath.Join [gitDir; "refs"]]) in *.
  destruct (addWatches_watches sw roots ([], t1) 0) as (Hadded & Hwarned & _ & Hwarns).
  destruct (addWatches_counts sw roots ([], t1) 0) as (_ & Hlen & Hnone).
  destruct (Monitor.addWatches sw roots ([], t1) 0) as [w n]. cbn [fst snd] in *.
  rewrite Hf1 in Hlen. rewrite He1 in Hnone. cbn [List.length] in Hlen.
  rewrite Nat.add_0_l, Nat.sub_0_r in Hlen.
  assert (Hnowarn : forall l, filter isAddWatchFailed l = [] ->
            forall p e, ~ In (Log (LogAddWatchFailed p e)) l).
  { intros l Hl p e Hin.
    assert (Hin' : In (Log (LogAddWatchFailed p e)) (filter isAddWatchFailed l))
      by (apply filter_In; now split).
    now rewrite Hl in Hin'. }
  assert (Hcount : List.length (filter isAddWatchFailed
            (snd w ++ (if Nat.ltb 0 n then [Log (LogWatchErrors n)] else [])
                   ++ [Log LogWatcherStarted])) = n).
  { rewrite !filter_app, !length_app, Hlen. destruct (Nat.ltb 0 n); cbn; lia. }
  split; [exact Hstat|]. split; [exact Hnew|]. split; [exact Hmu|].
  split; [apply Hadded; intros q []|].
  split; [|split; [|split]].
  - intros p e Hin. apply in_app_or in Hin. destruct Hin as [Hin|Hin].
    + destruct (Hwarned p e Hin) as [Hold|Hok]; [|exact Hok].
      exfalso. exact (Hnowarn t1 Hf1 p e Hold).
    + exfalso. apply in_app_or in Hin.
      destruct Hin as [Hin|[Hin|[]]]; [|discriminate].
      destruct (Nat.ltb 0 n); [destruct Hin as [Hin|[]]; discriminate | destruct Hin].
  - intros p Hp Hs Hall. destruct (Hwarns p Hp Hs Hall) as [e He].
    exists e. apply in_or_app. now left.
  - intros m. rewrite Hcount. split.
    + intros Hin. apply in_app_or in Hin. destruct Hin as [Hin|Hin].
      * exfalso.
        assert (Hin' : In (Log (LogWatchErrors m)) (filter isWatchErrors (snd w)))
          by (apply filter_In; now split).
        now rewrite Hnone in Hin'.
      * apply in_app_or in Hin. destruct Hin as [Hin|[Hin|[]]]; [|discriminate].
        destruct (Nat.ltb 0 n) eqn:Hn; [|destruct Hin].
        destruct Hin as [Hin|[]]. injection Hin as <-.
        apply Nat.ltb_lt in Hn. now split.
    + intros [-> Hpos]. apply in_or_app. right. apply in_or_app. left.
      apply Nat.ltb_lt in Hpos. rewrite Hpos. now left.
  - rewrite !existsb_app, !existsb_filter, Hnone.
    destruct n as [|n].
    + apply length_zero_iff_nil in Hlen. now rewrite Hlen.
    + destruct (filter isAddWatchFailed (snd w)); [discriminate Hlen | reflexivity].
Qed.

(* ================================================================== *)
(** ** The properties at work on the examples *)

(** C1 on a repository where [git show] fails for the new commit
    [abc123] while [000] is tracked. *)
Lemma enumeration_failure_rolls_back_witness :
  Monitor.processingMu (exampleState "000") = false
  /\ Gitutil.GetCurrentCommitHash (Monitor.git failingShowWorld) exampleRepo = Ok "abc123"
  /\ Gitutil.GetChangedFilesInCommit (Monitor.git failingShowWorld) exampleRepo "abc123"
     = Err (Wrapf "git show failed for commit abc123" showFailure)
  /\ Monitor.lastKnownHash (fst (Monitor.handleCommitCheck failingShowWorld (exampleState "000")))
     = "000"
  /\ fst (Monitor.handleCommitCheck failingShowWorld (exampleState "000")) = exampleState "000"
  /\ snd (Monitor.handleCommitCheck failingShowWorld (exampleState "000"))
     = [TryLock true; Log LogDebounceTriggered; CallGetCurrentCommitHash exampleRepo;
        Log (LogNewCommit "000" "abc123");
        SetLastKnownHash "abc123"; CallGetChangedFiles exampleRepo "abc123";
        Log (LogChangedFilesError "abc123"
               (Wrapf "git show failed for commit abc123" showFailure));
        SetLastKnownHash "000";
        Unlock].
Proof.
  split; [reflexivity|]. split; [vm_compute; reflexivity|]. split; [reflexivity|].
  assert (Hcur :
    Gitutil.GetCurrentCommitHash (Monitor.git failingShowWorld)
      (Monitor.repoPath (exampleState "000")) = Ok "abc123") by (vm_compute; reflexivity).
  assert (Hne : "abc123" <> EmptyString) by discriminate.
  assert (Hnew : "abc123" <> Monitor.lastKnownHash (exampleState "000")) by discriminate.
  destruct (enumeration_failure_rolls_back failingShowWorld (exampleState "000") "abc123"
              (Wrapf "git show failed for commit abc123" showFailure)
              eq_refl Hcur Hne Hnew eq_refl)
    as (Hhash & Hstate & Htrace & _).
  split; [exact Hhash|]. split; [exact Hstate | exact Htrace].
Defined.

(** C2 on the commit with [song.flp], which the validator rejects. *)
Lemma no_rollback_after_enumeration_witness :
  Gitutil.GetChangedFilesInCommit (Monitor.git songFlpWorld) exampleRepo "abc123"
  = Ok (changeSetOf commitSongFlp)
  /\ Monitor.lastKnownHash (fst (Monitor.handleCommitCheck songFlpWorld (exampleState "000")))
     = "abc123"
  /\ filter isSetHash (snd (Monitor.handleCommitCheck songFlpWorld (exampleState "000")))
     = [SetLastKnownHash "abc123"]
  /\ filter isPipelineEvent (snd (Monitor.handleCommitCheck songFlpWorld (exampleState "000")))
     = [].
Proof.
  assert (Hfiles :
    Gitutil.GetChangedFilesInCommit (Monitor.git songFlpWorld) exampleRepo "abc123"
    = Ok (changeSetOf commitSongFlp)) by (vm_compute; reflexivity).
  split; [exact Hfiles|].
  assert (Hcur :
    Gitutil.GetCurrentCommitHash (Monitor.git songFlpWorld)
      (Monitor.repoPath (exampleState "000")) = Ok "abc123") by (vm_compute; reflexivity).
  assert (Hne : "abc123" <> EmptyString) by discriminate.
  assert (Hnew : "abc123" <> Monitor.lastKnownHash (exampleState "000")) by discriminate.
  destruct (no_rollback_after_enumeration songFlpWorld (exampleState "000") "abc123"
              (changeSetOf commitSongFlp) eq_refl Hcur Hne Hnew Hfiles)
    as (Hhash & Hset & Hreject & _ & _).
  split; [exact Hhash|]. split; [exact Hset|].
  apply Hreject. vm_compute; reflexivity.
Defined.

(** C3: the commit of the specification, with [song.flp], is rejected for
    the name of its project file, which is not the name of its folder, and
    nothing is uploaded. *)
Lemma song_flp_commit_is_rejected :
  Gitutil.GetCurrentCommitHash (Monitor.git songFlpWorld) exampleRepo = Ok "abc123"
  /\ Gitutil.GetChangedFilesInCommit (Monitor.git songFlpWorld) exampleRepo "abc123"
     = Ok songFlpFiles
  /\ Gitutil.CheckFileExists (Monitor.git songFlpWorld) exampleRepo "README.md" = true
  /\ Gitutil.CheckFileExists (Monitor.git songFlpWorld) exampleRepo ".gitignore" = true
  /\ healthyPipeline (Monitor.store songFlpWorld) exampleBackup exampleRepo "abc123"
  /\ Validator.Validate (Monitor.git songFlpWorld) exampleRepo songFlpFiles
     = (false,
        ["Project filename base must match folder name. Expected 'song-artist-feat-x-120bpm-prodby.me.*', found 'song.flp' in path 'src/projects/song-artist-feat-x-120bpm-prodby.me/song.flp'"])
  /\ filter isPutObject (snd (Monitor.handleCommitCheck songFlpWorld (exampleState "000")))
     = []
  /\ filter isCallRunBackup (snd (Monitor.handleCommitCheck songFlpWorld (exampleState "000")))
     = [].
Proof.
  repeat split; try (vm_compute; reflexivity).
  - discriminate.
  - exists tarStream. split; reflexivity.
Qed.

(** C3, amended, on the commit whose project file is named after its
    folder. *)
Lemma end_to_end_backup_witness :
  Gitutil.GetChangedFilesInCommit (Monitor.git folderFlpWorld) exampleRepo "abc123"
  = Ok folderFlpFiles
  /\ Validator.Validate (Monitor.git folderFlpWorld) exampleRepo folderFlpFiles = (true, [])
  /\ exists body,
       filter isPutObject (snd (Monitor.handleCommitCheck folderFlpWorld (exampleState "000")))
       = [PutObject "prodby-backups" "commit-abc123.tar.gz" body None]
       /\ In (Log (LogBackupSucceeded "abc123"))
             (snd (Monitor.handleCommitCheck folderFlpWorld (exampleState "000"))).
Proof.
  split; [vm_compute; reflexivity|].
  apply (end_to_end_backup folderFlpWorld (exampleState "000")).
  - reflexivity.
  - discriminate.
  - vm_compute; reflexivity.
  - vm_compute; reflexivity.
  - intros reqFile [<-|[<-|[]]]; reflexivity.
  - repeat split; try reflexivity.
    + discriminate.
    + exists tarStream. split; reflexivity.
Defined.

(** C4: with a watcher that cannot add any watch, the startup does not
    end the process: the event loop is entered with nothing watched. *)
Lemma startup_without_any_watch_enters_loop :
  Monitor.stat noWatchFs (Filepath.Join [RepoPath exampleConfig; ".git"]) = Monitor.StatOk
  /\ (forall watched path, isNone (Monitor.watcherAdd noWatchFs watched path) = false)
  /\ exists st t,
       Monitor.Start noWatchFs (Monitor.git songFlpWorld) exampleConfig
       = Monitor.EventLoop st [] t
       /\ existsb isWatchErrors t = true.
Proof.
  split; [reflexivity|]. split; [reflexivity|].
  eexists. eexists. split; [vm_compute; reflexivity | reflexivity].
Qed.

(** C4 on a watcher that cannot watch [refs]: the event loop is entered
    with the two other directories watched, the failure line of [refs] and
    the warning about one watch error. *)
Lemma startup_continues_whatever_watches_witness :
  exists st t,
    Monitor.Start partialWatchFs (Monitor.git songFlpWorld) exampleConfig
    = Monitor.EventLoop st ["/srv/music/.git"; "/srv/music/.git/refs/heads"] t
    /\ In (Log (LogAddWatchFailed "/srv/music/.git/refs" (Errorf "permission denied"))) t
    /\ In (Log (LogWatchErrors 1)) t.
Proof.
  pose proof (startup_continues_whatever_watches partialWatchFs (Monitor.git songFlpWorld)
                exampleConfig) as H.
  cbv zeta in H.
  destruct (Monitor.Start partialWatchFs (Monitor.git songFlpWorld) exampleConfig)
    as [t|st watched t] eqn:Hstart; [vm_compute in Hstart; discriminate|].
  destruct H as (_ & _ & _ & _ & Hwarned & Hwarns & Hcount & _).
  exists st, t.
  assert (Hwatched : watched = ["/srv/music/.git"; "/srv/music/.git/refs/heads"]).
  { vm_compute in Hstart. now injection Hstart as _ <- _. }
  subst watched. split; [reflexivity|].
  destruct (Hwarns "/srv/music/.git/refs") as [e He].
  - right. left. reflexivity.
  - reflexivity.
  - intros wt. discriminate.
  - destruct (Hwarned _ _ He) as (_ & _ & wt & Hadd). cbn in Hadd.
    injection Hadd as <-. split; [exact He|].
    apply Hcount. vm_compute in Hstart. injection Hstart as _ <-.
    split; [reflexivity | repeat constructor].
Defined.

(** C5.  The token is not released on every path of the cycle.  On the
    commit [abc123], whose changes are valid, with an archive of 96 KiB
    after its first entry and an upload that breaks off after five bytes of
    its body, [handleCommitCheck] takes the mutex, advances the tracked
    hash, gets the error of the upload and then waits for the archive
    process, which never exits: the compression goroutine waits in its
    write to the pipe, whose read end is closed only when [RunBackup]
    returns, and nobody reads the rest of the archive.  There is no
    [Unlock]; the mutex stays held, and every later cycle is dropped. *)
Theorem broken_upload_keeps_mutex :
  Monitor.handleCommitCheck brokenUploadWorld (exampleState "000")
  = ({| Monitor.lastKnownHash := "abc123";
        Monitor.repoPath := exampleRepo;
        Monitor.processingMu := true;
        Monitor.appConfig := exampleConfig |},
     [TryLock true; Log LogDebounceTriggered; CallGetCurrentCommitHash exampleRepo;
      Log (LogNewCommit "000" "abc123");
      SetLastKnownHash "abc123"; CallGetChangedFiles exampleRepo "abc123";
      Log (LogValidationStart "abc123"); CallValidate exampleRepo folderFlpFiles;
      Log (LogValidationPassed "abc123"); Log (LogBackupStart "abc123");
      CallRunBackup exampleRepo "abc123";
      Log (LogBackupProcess "abc123"); Log LogConfiguringS3; Log LogDefaultCredentials;
      Log (LogTargetKey "s3://prodby-backups/commit-abc123.tar.gz");
      Log LogCreatingArchive; ArchiveStarted exampleRepo "abc123";
      Log LogStartingUpload;
      PutObject "prodby-backups" "commit-abc123.tar.gz" (list_ascii_of_string "READM")
        (Some (Errorf "connection reset by peer"));
      ArchiveWaitBlocks])
  /\ forall w',
       Monitor.handleCommitCheck w'
         (fst (Monitor.handleCommitCheck brokenUploadWorld (exampleState "000")))
       = (fst (Monitor.handleCommitCheck brokenUploadWorld (exampleState "000")),
          [TryLock false; Log LogAlreadyInProgress]).
Proof.
  split; [vm_compute; reflexivity|].
  intros w'. apply dropped_cycle. vm_compute; reflexivity.
Qed.

(** C6 on a stream whose last read fails, with an upload that reads to
    the end. *)
Lemma source_failure_poisons_pipe_witness :
  snd (fst (Backup.gzipGoroutine storingCompressor brokenStream (Pipe.newPipe None)))
  = Backup.SrcFailed (Errorf "read |0: file already closed")
  /\ Pipe.werr
       (fst (fst (Backup.gzipGoroutine storingCompressor brokenStream (Pipe.newPipe None))))
     = Some (Errorf "read |0: file already closed")
  /\ Pipe.readAtEnd
       (fst (fst (Backup.gzipGoroutine storingCompressor brokenStream (Pipe.newPipe None))))
     = Errorf "read |0: file already closed".
Proof.
  destruct (source_failure_poisons_pipe storingCompressor brokenStream None
              (Errorf "read |0: file already closed")) as [Hfailed Hunbounded].
  destruct (Hunbounded eq_refl eq_refl) as [Hstop Hread]; [discriminate|].
  destruct (Hfailed Hstop) as (_ & Hwerr & _ & _).
  split; [exact Hstop|]. split; [exact Hwerr | exact Hread].
Defined.



(** C10 on an index without [.gitignore] and a commit without changes. *)
Lemma Validate_checks_required_files_witness :
  Gitutil.CheckFileExists noGitignoreGit exampleRepo ".gitignore" = false
  /\ fst (Validator.Validate noGitignoreGit exampleRepo []) = false
  /\ In (missingRequired ".gitignore")
        (snd (Validator.Validate noGitignoreGit exampleRepo [])).
Proof.
  split; [reflexivity|].
  apply (proj2 (proj2 (Validate_checks_required_files noGitignoreGit exampleRepo))
           [] ".gitignore").
  - right. left. reflexivity.
  - reflexivity.
Defined.

(* ================================================================== *)
(** ** More on the check cycle *)

Section CycleMore.

Import Monitor.

Variable w : world.

(** A verdict without violation. *)
Lemma Validate_true_no_errors (g : gitWorld) (repo : string) (files errs : list string) :
  Validator.Validate g repo files = (true, errs) -> errs = [].
Proof.
  intros H.
  assert (Hc : consistent (Validator.checkRequired g repo (pathChecks files))).
  { apply consistent_checkRequired, consistent_fold_checkFile. reflexivity. }
  unfold Validator.Validate in H. fold (pathChecks files) in H.
  injection H as Hv He. unfold consistent in Hc. rewrite Hv, He in Hc.
  destruct errs; [reflexivity | discriminate].
Qed.

(** The uploads of [RunBackup] go to the configured bucket, under the key
    of the commit. *)
Lemma RunBackup_put_target (b : Backup.backupWorld) (repo h : string)
  (cfg : BackupConfig) (bucket key : string) (body : list byte) (res : option error) :
  In (PutObject bucket key body res) (snd (Backup.RunBackup b repo h cfg)) ->
  bucket = Bucket cfg /\ key = Backup.s3Key cfg h.
Proof.
  unfold Backup.RunBackup, Backup.GzipPipe.
  pose proof (startGoroutine_logs (Backup.gzip b)) as Hg.
  destruct (String.eqb (Bucket cfg) EmptyString).
  { cbn. intros [H|[]]; discriminate. }
  destruct (Backup.loadDefaultConfig b cfg).
  { cbn. intros H. repeat (destruct H as [H|H]; [discriminate|]). destruct H. }
  destruct (Backup.stdoutPipeErr b).
  { cbn. intros H. repeat (destruct H as [H|H]; [discriminate|]). destruct H. }
  destruct (Backup.archiveStart b repo h) as [src|].
  2:{ cbn. intros H. repeat (destruct H as [H|H]; [discriminate|]). destruct H. }
  specialize (Hg src (Pipe.newPipe (Backup.uploadBudget b))).
  set (g := Backup.startGoroutine (Backup.gzip b) src _) in *.
  assert (Htg : ~ In (PutObject bucket key body res) (Backup.logsOf g)).
  { intros Hin. rewrite Forall_forall in Hg. apply Hg in Hin. discriminate. }
  destruct (Backup.archiveExits b g);
    [destruct (Backup.uploadResult b (Bucket cfg) (Backup.s3Key cfg h) g);
     destruct (Backup.archiveWait b repo h)|];
    cbn [snd];
    rewrite ?in_app_iff; cbn [In]; rewrite ?in_app_iff; cbn [In];
    intros H;
    repeat match type of H with
           | _ \/ _ => destruct H as [H|H]
           | False => destruct H
           | _ = _ => first [discriminate H | injection H as <- <- _ _; now split]
           | In _ (Backup.logsOf g) => now apply Htg in H
           end.
Qed.

End CycleMore.


Section BackupShape.

Import Backup.

Lemma filter_logs_none (Q : event -> bool) (l : list event) :
  (forall ev, isLog ev = true -> Q ev = false) ->
  Forall (fun ev => isLog ev = true) l -> filter Q l = [].
Proof. intros HQ Hl. exact (filter_none Q isLog Hl HQ). Qed.

(** [RunBackup] either fails before the archive process is started, or
    starts it, attempts the upload once and waits for the process, in this
    order.  When the wait returns, its result follows from the two
    outcomes; the wait does not return only after an upload that stopped
    reading its body, and then [RunBackup] does not return. *)
Lemma RunBackup_shape (b : backupWorld) (repo h : string) (cfg : BackupConfig) :
  (filter isPipelineEvent (snd (RunBackup b repo h cfg)) = []
   /\ exists e, fst (RunBackup b repo h cfg) = Returns (Some e))
  \/ exists body ue,
       (exists ae,
           filter isPipelineEvent (snd (RunBackup b repo h cfg))
           = [ArchiveStarted repo h; PutObject (Bucket cfg) (s3Key cfg h) body ue;
              ArchiveWaited ae]
           /\ fst (RunBackup b repo h cfg) = Returns (backupResult b cfg repo h ue ae)
           /\ (forall a, ue <> None -> ae = Some a ->
                 In (Log (LogArchiveAlsoFailed (archiveStderr b repo h) a))
                    (snd (RunBackup b repo h cfg))))
       \/ (filter isPipelineEvent (snd (RunBackup b repo h cfg))
           = [ArchiveStarted repo h; PutObject (Bucket cfg) (s3Key cfg h) body ue;
              ArchiveWaitBlocks]
           /\ fst (RunBackup b repo h cfg) = Blocks
           /\ ue = Some (uploadAbort b)).
Proof.
  unfold RunBackup, GzipPipe, backupResult, s3PathOf.
  pose proof (startGoroutine_logs (gzip b)) as Hg.
  destruct (String.eqb (Bucket cfg) EmptyString); [left; split; [reflexivity | cbn; eauto]|].
  destruct (loadDefaultConfig b cfg); [left; split; [reflexivity | cbn; eauto]|].
  destruct (stdoutPipeErr b); [left; split; [reflexivity | cbn; eauto]|].
  destruct (archiveStart b repo h) as [src|]; [|left; split; [reflexivity | cbn; eauto]].
  specialize (Hg src (Pipe.newPipe (uploadBudget b))).
  set (g := startGoroutine (gzip b) src _) in *.
  pose proof (filter_logs_none isPipelineEvent (logsOf g)
                (fun ev => match ev with Log _ => fun _ => eq_refl
                                    | _ => fun H => ltac:(discriminate H) end) Hg) as Htg.
  right. exists (Pipe.delivered (pipeOf g)), (uploadResult b (Bucket cfg) (s3Key cfg h) g).
  destruct (archiveExits b g) eqn:Hexits.
  - left. exists (archiveWait b repo h).
    destruct (uploadResult b (Bucket cfg) (s3Key cfg h) g) as [ue|];
      destruct (archiveWait b repo h) as [ae|]; cbn [fst snd];
      (split; [rewrite !filter_app, Htg; reflexivity|]);
      (split; [reflexivity|]); intros a Hue Hae; try congruence.
    injection Hae as ->. rewrite !in_app_iff. cbn. tauto.
  - right. cbn [fst snd]. split; [rewrite !filter_app, Htg; reflexivity|].
    split; [reflexivity|].
    destruct g; cbn in Hexits |- *; try discriminate. reflexivity.
Qed.

End BackupShape.


Section CycleCases.

Import Monitor.

Variable w : world.

Lemma filter_agree {A : Type} (P P' Q : A -> bool) (l : list A) :
  Forall (fun x => Q x = true) l ->
  (forall x, Q x = true -> P x = P' x) ->
  filter P l = filter P' l.
Proof.
  intros H HPQ. induction H as [|x l Hx _ IH]; simpl; [reflexivity|].
  now rewrite (HPQ x Hx), IH.
Qed.

Lemma filter_work_violations (errs : list string) :
  filter isWorkEvent (map (fun verr => Log (LogViolation verr)) errs) = [].
Proof. induction errs; simpl; auto. Qed.

(** The ways a cycle goes, with what it leaves of the package variables
    and the work it does. *)
Lemma cycle_cases (st : monitorState) :
  let r := handleCommitCheck w st in
  let repo := repoPath st in
  (processingMu st = true /\ r = (st, [TryLock false; Log LogAlreadyInProgress]))
  \/ (processingMu st = false
      /\ ((exists e, Gitutil.GetCurrentCommitHash (git w) repo = Err e
                     /\ fst r = st /\ filter isWorkEvent (snd r) = [])
          \/ (exists h, Gitutil.GetCurrentCommitHash (git w) repo = Ok h
                        /\ (h = EmptyString \/ h = lastKnownHash st)
                        /\ fst r = st /\ filter isWorkEvent (snd r) = [])
          \/ (exists h,
                 Gitutil.GetCurrentCommitHash (git w) repo = Ok h
                 /\ h <> EmptyString /\ h <> lastKnownHash st
                 /\ ((exists e,
                         Gitutil.GetChangedFilesInCommit (git w) repo h = Err e
                         /\ fst r = st
                         /\ filter isWorkEvent (snd r)
                            = [SetLastKnownHash h; CallGetChangedFiles repo h;
                               SetLastKnownHash (lastKnownHash st)])
                     \/ (exists files,
                            Gitutil.GetChangedFilesInCommit (git w) repo h = Ok files
                            /\ ((exists errs,
                                    Validator.Validate (git w) repo files = (false, errs)
                                    /\ fst r = setLastKnownHash h st
                                    /\ filter isWorkEvent (snd r)
                                       = [SetLastKnownHash h; CallGetChangedFiles repo h;
                                          CallValidate repo files])
                                \/ (Validator.Validate (git w) repo files = (true, [])
                                    /\ fst r
                                       = match fst (Backup.RunBackup (store w) repo h
                                                      (Backup (appConfig st))) with
                                         | Returns _ => setLastKnownHash h st
                                         | Blocks =>
                                             setProcessingMu true (setLastKnownHash h st)
                                         end
                                    /\ filter isWorkEvent (snd r)
                                       = [SetLastKnownHash h; CallGetChangedFiles repo h;
                                          CallValidate repo files; CallRunBackup repo h]
                                         ++ filter isPipelineEvent
                                              (snd (Backup.RunBackup (store w) repo h
                                                      (Backup (appConfig st))))))))))).
Proof.
  cbv zeta. destruct st as [P repo mu cfg]. record_simpl.
  unfold handleCommitCheck. record_simpl.
  destruct mu; [left; now split | right; split; [reflexivity|]].
  unfold checkCommit. record_simpl.
  destruct (Gitutil.GetCurrentCommitHash (git w) repo) as [h|e].
  2:{ left. exists e. now repeat split. }
  right.
  destruct (String.eqb h EmptyString) eqn:Ee.
  { left. exists h. apply String.eqb_eq in Ee. subst h. cbn [negb andb].
    destruct (String.eqb EmptyString P); now repeat split; auto. }
  destruct (String.eqb h P) eqn:Ep.
  { left. exists h. apply String.eqb_eq in Ep. subst h. cbn [negb andb].
    now repeat split; auto. }
  right. exists h. cbn [negb andb].
  apply String.eqb_neq in Ee, Ep.
  split; [reflexivity|]. split; [exact Ee|]. split; [exact Ep|].
  unfold processNewCommit. record_simpl.
  destruct (Gitutil.GetChangedFilesInCommit (git w) repo h) as [files|e].
  2:{ left. exists e. now repeat split. }
  right. exists files. split; [reflexivity|].
  destruct (Validator.Validate (git w) repo files) as [[|] errs] eqn:Ev.
  - apply Validate_true_no_errors in Ev as Hnil. subst errs.
    pose proof (RunBackup_events (store w) repo h (Backup cfg)) as Hev.
    assert (Hagree : filter isWorkEvent (snd (Backup.RunBackup (store w) repo h (Backup cfg)))
                     = filter isPipelineEvent
                         (snd (Backup.RunBackup (store w) repo h (Backup cfg)))).
    { apply (filter_agree isWorkEvent isPipelineEvent isBackupEvent _ Hev).
      intros []; cbn; congruence. }
    destruct (Backup.RunBackup (store w) repo h (Backup cfg)) as [[[e|]|] tb];
      cbn [fst snd] in *; right; (split; [reflexivity|]); (split; [reflexivity|]);
      cbn; rewrite ?filter_app, Hagree; cbn; now rewrite ?app_nil_r.
  - left. exists errs. split; [reflexivity|]. split; [reflexivity|].
    cbn. rewrite !filter_app, filter_work_violations. reflexivity.
Qed.

End CycleCases.


Section BackupOutcomes.

Import Backup.

Lemma filter_filter_sub {A : Type} (P Q : A -> bool) (l : list A) :
  (forall x, P x = true -> Q x = true) -> filter P (filter Q l) = filter P l.
Proof.
  intros H. induction l as [|x l IH]; simpl; [reflexivity|].
  destruct (Q x) eqn:EQ; simpl.
  - now rewrite IH.
  - destruct (P x) eqn:EP; [|exact IH]. apply H in EP. congruence.
Qed.

Lemma In_filter_pipeline (ev : event) (l : list event) :
  isPipelineEvent ev = true -> In ev l -> In ev (filter isPipelineEvent l).
Proof. intros H Hin. apply filter_In. now split. Qed.

End BackupOutcomes.

(** X1.  [RunBackup] returns no error exactly when the archive process was
    started, the one upload to the key of the commit succeeded and the
    process exited without error. *)
Theorem RunBackup_succeeds_iff_stored
  (b : Backup.backupWorld) (repo h : string) (cfg : BackupConfig) :
  fst (Backup.RunBackup b repo h cfg) = Returns None
  <-> exists body,
        filter isPipelineEvent (snd (Backup.RunBackup b repo h cfg))
        = [ArchiveStarted repo h;
           PutObject (Bucket cfg) (Backup.s3Key cfg h) body None;
           ArchiveWaited None].
Proof.
  destruct (RunBackup_shape b repo h cfg)
    as [[Hnone (e & He)]
       | (body & ue & [(ae & Hshape & Hres & _) | (Hshape & Hres & _)])].
  - rewrite He, Hnone. split; [discriminate | intros (body & Hb); discriminate].
  - rewrite Hres, Hshape. split.
    + destruct ue, ae; cbn; try discriminate. intros _. now exists body.
    + intros (body' & Heq). inversion Heq; subst. reflexivity.
  - rewrite Hres, Hshape. split; [discriminate | intros (body' & Heq); discriminate].
Qed.

(** X2.  When the upload fails, the error [RunBackup] returns is the error
    of the upload, whatever the archive process did; the error of the
    process, if any, is only logged.  [RunBackup] returns when its wait for
    the archive process does, and only then. *)
Theorem upload_error_has_priority
  (b : Backup.backupWorld) (repo h : string) (cfg : BackupConfig)
  (bucket key : string) (body : list byte) (ue : error) :
  In (PutObject bucket key body (Some ue)) (snd (Backup.RunBackup b repo h cfg)) ->
  (((exists ae, In (ArchiveWaited ae) (snd (Backup.RunBackup b repo h cfg)))
    /\ fst (Backup.RunBackup b repo h cfg)
       = Returns (Some (Wrapf ("failed to upload to S3 (" ++ s3PathOf cfg h ++ ")") ue)))
   \/ (In ArchiveWaitBlocks (snd (Backup.RunBackup b repo h cfg))
       /\ (forall ae, ~ In (ArchiveWaited ae) (snd (Backup.RunBackup b repo h cfg)))
       /\ fst (Backup.RunBackup b repo h cfg) = Blocks))
  /\ forall ae,
       In (ArchiveWaited (Some ae)) (snd (Backup.RunBackup b repo h cfg)) ->
       In (Log (LogArchiveAlsoFailed (Backup.archiveStderr b repo h) ae))
          (snd (Backup.RunBackup b repo h cfg)).
Proof.
  intros Hin. apply In_filter_pipeline in Hin; [|reflexivity].
  assert (Hpipe : forall ev, isPipelineEvent ev = true ->
            (In ev (snd (Backup.RunBackup b repo h cfg))
             <-> In ev (filter isPipelineEvent (snd (Backup.RunBackup b repo h cfg))))).
  { intros ev Hev. rewrite filter_In. tauto. }
  destruct (RunBackup_shape b repo h cfg)
    as [[Hnone _]
       | (body' & ue' & [(ae' & Hshape & Hres & Hlog) | (Hshape & Hres & _)])].
  - rewrite Hnone in Hin. destruct Hin.
  - rewrite Hshape in Hin. cbn in Hin.
    destruct Hin as [Hin|[Hin|[Hin|[]]]]; try discriminate.
    injection Hin as _ _ _ ->. split.
    + left. split; [|rewrite Hres; reflexivity].
      exists ae'. apply Hpipe; [reflexivity|]. rewrite Hshape. cbn. tauto.
    + intros ae Hw. apply Hpipe in Hw; [|reflexivity].
      rewrite Hshape in Hw. cbn in Hw.
      destruct Hw as [Hw|[Hw|[Hw|[]]]]; try discriminate.
      injection Hw as ->. apply Hlog; [discriminate | reflexivity].
  - split.
    + right. split; [|split; [|exact Hres]].
      * apply Hpipe; [reflexivity|]. rewrite Hshape. cbn. tauto.
      * intros ae Hw. apply Hpipe in Hw; [|reflexivity].
        rewrite Hshape in Hw. cbn in Hw.
        destruct Hw as [Hw|[Hw|[Hw|[]]]]; discriminate.
    + intros ae Hw. apply Hpipe in Hw; [|reflexivity].
      rewrite Hshape in Hw. cbn in Hw.
      destruct Hw as [Hw|[Hw|[Hw|[]]]]; discriminate.
Qed.

(** X3.  When the upload succeeded but the archive process exits with an
    error, [RunBackup] returns that error: the object is in the store and
    the backup is reported as failed. *)
Theorem archive_error_after_upload
  (b : Backup.backupWorld) (repo h : string) (cfg : BackupConfig)
  (bucket key : string) (body : list byte) (ae : error) :
  In (PutObject bucket key body None) (snd (Backup.RunBackup b repo h cfg)) ->
  In (ArchiveWaited (Some ae)) (snd (Backup.RunBackup b repo h cfg)) ->
  fst (Backup.RunBackup b repo h cfg)
  = Returns (Some (Wrapf ("git archive command failed after upload (stderr: "
                          ++ Backup.archiveStderr b repo h ++ ")") ae))
  /\ bucket = Bucket cfg /\ key = Backup.s3Key cfg h.
Proof.
  intros Hput Hwait.
  apply In_filter_pipeline in Hput; [|reflexivity].
  apply In_filter_pipeline in Hwait; [|reflexivity].
  destruct (RunBackup_shape b repo h cfg)
    as [[Hnone _]
       | (body' & ue' & [(ae' & Hshape & Hres & _) | (Hshape & _ & _)])].
  - rewrite Hnone in Hput. destruct Hput.
  - rewrite Hshape in Hput, Hwait. cbn in Hput, Hwait.
    destruct Hput as [Hput|[Hput|[Hput|[]]]]; try discriminate.
    destruct Hwait as [Hwait|[Hwait|[Hwait|[]]]]; try discriminate.
    inversion Hput; inversion Hwait; subst.
    rewrite Hres. repeat split.
  - rewrite Hshape in Hwait. cbn in Hwait.
    destruct Hwait as [Hwait|[Hwait|[Hwait|[]]]]; discriminate.
Qed.

(** X4.  [RunBackup] starts the archive process at most once, attempts one
    upload for a started process and none otherwise, and waits for every
    process it started. *)
Theorem RunBackup_waits_for_started_archive
  (b : Backup.backupWorld) (repo h : string) (cfg : BackupConfig) :
  let t := snd (Backup.RunBackup b repo h cfg) in
  List.length (filter isArchiveStarted t) <= 1
  /\ List.length (filter isPutObject t) = List.length (filter isArchiveStarted t)
  /\ List.length (filter isArchiveWaited t) = List.length (filter isArchiveStarted t).
Proof.
  cbv zeta.
  rewrite <- (filter_filter_sub isArchiveStarted isPipelineEvent)
    by (intros []; cbn; congruence).
  rewrite <- (filter_filter_sub isPutObject isPipelineEvent)
    by (intros []; cbn; congruence).
  rewrite <- (filter_filter_sub isArchiveWaited isPipelineEvent)
    by (intros []; cbn; congruence).
  destruct (RunBackup_shape b repo h cfg)
    as [[Hnone _]
       | (body & ue & [(ae & Hshape & _ & _) | (Hshape & _ & _)])].
  - rewrite Hnone. cbn. lia.
  - rewrite Hshape. cbn. lia.
  - rewrite Hshape. cbn. lia.
Qed.


(** X5.  Every object a cycle puts is for the commit it found new, whose
    changes were enumerated and passed validation without any violation,
    and goes to the configured bucket under the key of that commit. *)
Theorem put_only_for_validated_commit
  (w : Monitor.world) (st : Monitor.monitorState)
  (bucket key : string) (body : list byte) (res : option error) :
  In (PutObject bucket key body res) (snd (Monitor.handleCommitCheck w st)) ->
  exists h files,
    Monitor.processingMu st = false
    /\ Gitutil.GetCurrentCommitHash (Monitor.git w) (Monitor.repoPath st) = Ok h
    /\ h <> EmptyString /\ h <> Monitor.lastKnownHash st
    /\ Gitutil.GetChangedFilesInCommit (Monitor.git w) (Monitor.repoPath st) h = Ok files
    /\ Validator.Validate (Monitor.git w) (Monitor.repoPath st) files = (true, [])
    /\ bucket = Bucket (Backup (Monitor.appConfig st))
    /\ key = Backup.s3Key (Backup (Monitor.appConfig st)) h.
Proof.
  intros Hin.
  assert (Hwork : In (PutObject bucket key body res)
                     (filter isWorkEvent (snd (Monitor.handleCommitCheck w st)))).
  { apply filter_In. now split. }
  destruct (cycle_cases w st) as [[_ Hr] | [Hmu Hcases]].
  - rewrite Hr in Hin. cbn in Hin. destruct Hin as [Hin|[Hin|[]]]; discriminate.
  - destruct Hcases as [(e & _ & _ & Hnone) | [(h & _ & _ & _ & Hnone) | Hnew]].
    + rewrite Hnone in Hwork. destruct Hwork.
    + rewrite Hnone in Hwork. destruct Hwork.
    + destruct Hnew as (h & Hcur & Hne & Hnew & Hrest).
      destruct Hrest as [(e & _ & _ & Ht) | (files & Hfiles & Hv)].
      * rewrite Ht in Hwork. cbn in Hwork.
        destruct Hwork as [H|[H|[H|[]]]]; discriminate.
      * destruct Hv as [(errs & _ & _ & Ht) | (Hvalid & _ & Ht)].
        -- rewrite Ht in Hwork. cbn in Hwork.
           destruct Hwork as [H|[H|[H|[]]]]; discriminate.
        -- rewrite Ht in Hwork. cbn in Hwork.
           destruct Hwork as [H|[H|[H|[H|H]]]]; try discriminate.
           apply filter_In in H as [H _].
           apply RunBackup_put_target in H as [-> ->].
           exists h, files. now repeat split.
Qed.

(** X6.  A cycle changes nothing of the package variables but the tracked
    hash, and leaves the tracked hash as it was unless it found a hash that
    is not empty, differs from the tracked one, and whose changes it could
    enumerate: then the tracked hash is that hash.  The mutex is as it was
    before the cycle, but for a cycle that is stuck in its wait for the
    archive process: that one holds the mutex. *)
Theorem cycle_changes_only_tracked_hash
  (w : Monitor.world) (st : Monitor.monitorState) :
  let r := Monitor.handleCommitCheck w st in
  Monitor.repoPath (fst r) = Monitor.repoPath st
  /\ Monitor.appConfig (fst r) = Monitor.appConfig st
  /\ (~ In ArchiveWaitBlocks (snd r) ->
      Monitor.processingMu (fst r) = Monitor.processingMu st)
  /\ (In ArchiveWaitBlocks (snd r) ->
      Monitor.processingMu st = false /\ Monitor.processingMu (fst r) = true)
  /\ (Monitor.lastKnownHash (fst r) = Monitor.lastKnownHash st
      \/ exists h files,
           Gitutil.GetCurrentCommitHash (Monitor.git w) (Monitor.repoPath st) = Ok h
           /\ Gitutil.GetChangedFilesInCommit (Monitor.git w) (Monitor.repoPath st) h
              = Ok files
           /\ isEmpty h = false
           /\ Monitor.lastKnownHash (fst r) = h).
Proof.
  cbv zeta.
  assert (Hmutex :
    (~ In ArchiveWaitBlocks (snd (Monitor.handleCommitCheck w st)) ->
     Monitor.processingMu (fst (Monitor.handleCommitCheck w st)) = Monitor.processingMu st)
    /\ (In ArchiveWaitBlocks (snd (Monitor.handleCommitCheck w st)) ->
        Monitor.processingMu st = false
        /\ Monitor.processingMu (fst (Monitor.handleCommitCheck w st)) = true)).
  { pose proof (cycle_lock_discipline w st) as Hlock. cbv zeta in Hlock.
    destruct (Monitor.processingMu st) eqn:Hmu.
    - rewrite Hlock. cbn. split; [intros _; exact Hmu|].
      intros [H|[H|[]]]; discriminate.
    - destruct Hlock as (st' & body & returns & Hbody & _ & _ & Hret & Hstuck).
      pose proof (checkCommit_returned w (Monitor.setProcessingMu true st)) as Hno.
      rewrite Hbody in Hno. cbn [fst snd] in Hno.
      destruct returns.
      + destruct (Hret eq_refl) as (Hfree & _ & Htrace). rewrite Htrace.
        split; [intros _; exact Hfree|].
        intros Hin. exfalso. cbn in Hin. destruct Hin as [Hin|Hin]; [discriminate|].
        apply in_app_or in Hin. destruct Hin as [Hin|[Hin|[]]]; [|discriminate].
        now apply (Hno eq_refl).
      + destruct (Hstuck eq_refl) as (Hheld & _ & Htrace & front & Hfront).
        rewrite Htrace, Hfront. split; [|intros _; now split].
        intros Hnot. exfalso. apply Hnot.
        apply in_or_app. right. apply in_or_app. right. now left. }
  destruct Hmutex as [Hfree Hheld].
  assert (Hrest :
    Monitor.repoPath (fst (Monitor.handleCommitCheck w st)) = Monitor.repoPath st
    /\ Monitor.appConfig (fst (Monitor.handleCommitCheck w st)) = Monitor.appConfig st
    /\ (Monitor.lastKnownHash (fst (Monitor.handleCommitCheck w st))
        = Monitor.lastKnownHash st
        \/ exists h files,
             Gitutil.GetCurrentCommitHash (Monitor.git w) (Monitor.repoPath st) = Ok h
             /\ Gitutil.GetChangedFilesInCommit (Monitor.git w) (Monitor.repoPath st) h
                = Ok files
             /\ isEmpty h = false
             /\ Monitor.lastKnownHash (fst (Monitor.handleCommitCheck w st)) = h)).
  { destruct (cycle_cases w st) as [[_ Hr] | [Hmu Hcases]].
    - rewrite Hr. cbn. auto.
    - destruct Hcases as [(e & _ & Hst & _) | [(h & _ & _ & Hst & _) | Hnew]];
        try (rewrite Hst; now auto).
      destruct Hnew as (h & Hcur & Hne & Hnew & Hrest).
      destruct Hrest as [(e & _ & Hst & _) | (files & Hfiles & Hv)];
        [rewrite Hst; now auto|].
      assert (Hst : fst (Monitor.handleCommitCheck w st) = Monitor.setLastKnownHash h st
                    \/ fst (Monitor.handleCommitCheck w st)
                       = Monitor.setProcessingMu true (Monitor.setLastKnownHash h st)).
      { destruct Hv as [(errs & _ & Hst & _) | (_ & Hst & _)]; [now left|].
        destruct (fst (Backup.RunBackup _ _ _ _)); [now left | now right]. }
      assert (Hh : isEmpty h = false) by (destruct h; [congruence | reflexivity]).
      destruct Hst as [Hst|Hst]; rewrite Hst;
        (split; [now destruct st|]); (split; [now destruct st|]);
        right; exists h, files;
        (split; [exact Hcur|]); (split; [exact Hfiles|]); (split; [exact Hh|]);
        now destruct st. }
  destruct Hrest as (H1 & H2 & H3).
  split; [exact H1|]. split; [exact H2|]. split; [exact Hfree|].
  split; [exact Hheld | exact H3].
Qed.

(** X7.  A cycle never resets the tracked hash: a tracked hash that is not
    empty is not empty after the cycle. *)
Theorem tracked_hash_never_reset
  (w : Monitor.world) (st : Monitor.monitorState) :
  Monitor.lastKnownHash st <> EmptyString ->
  Monitor.lastKnownHash (fst (Monitor.handleCommitCheck w st)) <> EmptyString.
Proof.
  intros Hne.
  destruct (cycle_cases w st) as [[_ Hr] | [Hmu Hcases]].
  - now rewrite Hr.
  - destruct Hcases as [(e & _ & Hst & _) | [(h & _ & _ & Hst & _) | Hnew]];
      try (now rewrite Hst).
    destruct Hnew as (h & Hcur & Hh & Hnew & Hrest).
    destruct Hrest as [(e & _ & Hst & _) | (files & Hfiles & Hv)];
      [rewrite Hst; assumption|].
    destruct Hv as [(errs & _ & Hst & _) | (_ & Hst & _)]; rewrite Hst.
    + destruct st; exact Hh.
    + destruct (fst (Backup.RunBackup _ _ _ _)); destruct st; exact Hh.
Qed.

(** X8.  A cycle that finds no hash, an empty hash or the tracked hash
    does no work: the package variables are unchanged, and neither the
    enumeration, nor the validator, nor the pipeline is called. *)
Theorem cycle_without_new_commit_is_idle
  (w : Monitor.world) (st : Monitor.monitorState) :
  (forall h, Gitutil.GetCurrentCommitHash (Monitor.git w) (Monitor.repoPath st) = Ok h ->
             h = EmptyString \/ h = Monitor.lastKnownHash st) ->
  fst (Monitor.handleCommitCheck w st) = st
  /\ filter isWorkEvent (snd (Monitor.handleCommitCheck w st)) = [].
Proof.
  intros Hold.
  destruct (cycle_cases w st) as [[_ Hr] | [Hmu Hcases]].
  - rewrite Hr. now split.
  - destruct Hcases as [(e & _ & Hst & Ht) | [(h & _ & _ & Hst & Ht) | Hnew]];
      try (now split).
    destruct Hnew as (h & Hcur & Hne & Hnew & _).
    destruct (Hold h Hcur); contradiction.
Qed.

(** X9.  A cycle calls the validator at most once, the pipeline at most
    once and only when it called the validator, and puts at most one
    object, only when it called the pipeline. *)
Theorem cycle_runs_each_step_at_most_once
  (w : Monitor.world) (st : Monitor.monitorState) :
  let t := snd (Monitor.handleCommitCheck w st) in
  List.length (filter isCallValidate t) <= 1
  /\ List.length (filter isCallRunBackup t) <= List.length (filter isCallValidate t)
  /\ List.length (filter isPutObject t) <= List.length (filter isCallRunBackup t).
Proof.
  cbv zeta.
  rewrite <- (filter_filter_sub isCallValidate isWorkEvent)
    by (intros []; cbn; congruence).
  rewrite <- (filter_filter_sub isCallRunBackup isWorkEvent)
    by (intros []; cbn; congruence).
  rewrite <- (filter_filter_sub isPutObject isWorkEvent)
    by (intros []; cbn; congruence).
  destruct (cycle_cases w st) as [[_ Hr] | [Hmu Hcases]].
  - rewrite Hr. cbn. lia.
  - destruct Hcases as [(e & _ & _ & Ht) | [(h & _ & _ & _ & Ht) | Hnew]];
      try (rewrite Ht; cbn; lia).
    destruct Hnew as (h & Hcur & Hne & Hnew & Hrest).
    destruct Hrest as [(e & _ & _ & Ht) | (files & Hfiles & Hv)];
      [rewrite Ht; cbn; lia|].
    destruct Hv as [(errs & _ & _ & Ht) | (Hvalid & _ & Ht)]; [rewrite Ht; cbn; lia|].
    rewrite Ht. cbn [filter isCallValidate isCallRunBackup isPutObject app List.length].
    destruct (RunBackup_shape (Monitor.store w) (Monitor.repoPath st) h
                (Backup (Monitor.appConfig st)))
      as [[Hnone _]
         | (body & ue & [(ae & Hshape & _ & _) | (Hshape & _ & _)])].
    + rewrite Hnone. cbn. lia.
    + rewrite Hshape. cbn. lia.
    + rewrite Hshape. cbn. lia.
Qed.

(* ================================================================== *)
(** ** The stream through the pipe *)


(* ================================================================== *)
(** ** What the upload receives *)

Section StreamFacts.

Import Pipe Backup.

Lemma takeBudget_app (budget : option nat) (x y : list byte) :
  takeBudget budget (x ++ y)
  = takeBudget budget x ++ takeBudget (spend budget (List.length x)) y.
Proof. destruct budget as [k|]; cbn; [apply firstn_app | reflexivity]. Qed.

Lemma spend_spend (budget : option nat) (n m : nat) :
  spend (spend budget n) m = spend budget (n + m).
Proof. destruct budget as [k|]; cbn; [f_equal; lia | reflexivity]. Qed.

Lemma fitsb_app (budget : option nat) (n m : nat) :
  fitsb budget (n + m) = fitsb budget n && fitsb (spend budget n) m.
Proof.
  destruct budget as [k|]; cbn; [|reflexivity].
  destruct (Nat.leb_spec n k), (Nat.leb_spec m (k - n)), (Nat.leb_spec (n + m) k);
    cbn; try reflexivity; lia.
Qed.

Lemma takeBudget_fits (budget : option nat) (x : list byte) :
  fitsb budget (List.length x) = true -> takeBudget budget x = x.
Proof.
  destruct budget as [k|]; cbn; [|reflexivity].
  intros H. apply Nat.leb_le in H. now apply firstn_all2.
Qed.

Lemma takeBudget_short (budget : option nat) (x y : list byte) :
  fitsb budget (List.length x) = false ->
  takeBudget budget (x ++ y) = takeBudget budget x.
Proof.
  destruct budget as [k|]; cbn; [|discriminate].
  intros H. apply Nat.leb_gt in H. rewrite firstn_app.
  replace (k - List.length x) with 0 by lia. cbn. apply app_nil_r.
Qed.

(** One write on an open pipe: the reader takes what its budget allows. *)
Lemma write_delivers (b : list byte) (p : pipe) :
  done p = false ->
  delivered (fst (write b p)) = delivered p ++ takeBudget (readerBudget p) b
  /\ done (fst (write b p)) = false
  /\ taken (readerBudget p) (List.length b) (fst (write b p)) (snd (write b p)).
Proof.
  intros Hd. unfold write. rewrite Hd.
  destruct (readerBudget p) as [k|] eqn:Eb.
  - destruct (Nat.leb (List.length b) k) eqn:El; cbn [fst snd taken takeBudget fitsb].
    + pose proof El as El'. apply Nat.leb_le in El'.
      cbn. rewrite firstn_all2 by exact El'. now repeat split.
    + cbn. now repeat split.
  - cbn. now repeat split.
Qed.

Lemma writeAll_delivers (outs : list (list byte)) : forall p,
  done p = false ->
  delivered (fst (writeAll outs p))
  = delivered p ++ takeBudget (readerBudget p) (concat outs)
  /\ done (fst (writeAll outs p)) = false
  /\ taken (readerBudget p) (List.length (concat outs))
       (fst (writeAll outs p)) (snd (writeAll outs p)).
Proof.
  induction outs as [|b outs IH]; intros p Hd; cbn [writeAll concat].
  - cbn [fst snd List.length taken].
    destruct (readerBudget p) as [k|] eqn:Eb; cbn;
      rewrite ?firstn_nil, ?app_nil_r, ?Nat.sub_0_r; now repeat split.
  - destruct (write_delivers b p Hd) as (Hdl & Hd' & Ht).
    rewrite length_app.
    destruct (write b p) as [p' [|e|]]; cbn [fst snd] in *; unfold taken in Ht.
    + destruct Ht as [Hfit Hb].
      destruct (IH p' Hd') as (Hdl2 & Hd2 & Ht2). rewrite Hb in *.
      split; [|split; [exact Hd2|]].
      * rewrite Hdl2, Hdl, takeBudget_app, app_assoc. reflexivity.
      * unfold taken in *. rewrite fitsb_app, Hfit. cbn [andb].
        destruct (snd (writeAll outs p')).
        -- destruct Ht2 as [Hfit2 Hb2]. rewrite Hfit2, Hb2, spend_spend.
           now split.
        -- exact Ht2.
        -- exact Ht2.
    + destruct Ht.
    + split; [|split; [exact Hd'|]].
      * rewrite Hdl, takeBudget_short by exact Ht. reflexivity.
      * unfold taken. rewrite fitsb_app, Ht. reflexivity.
Qed.

Lemma closeWrite_copyError (last : error) (p : pipe) :
  done p = false ->
  readAtEnd
    (closeWrite (closingError
                   (copyError match last with EOF => SrcEOF | e => SrcFailed e end)
                   None) p)
  = last.
Proof.
  intros Hd. unfold done in Hd.
  destruct (rerr p) eqn:Hr; [discriminate|].
  destruct (werr p) eqn:Hw; [discriminate|].
  unfold readAtEnd, readCloseError.
  destruct last; cbn; rewrite Hr, Hw; reflexivity.
Qed.

Lemma done_false_werr (p : pipe) : done p = false -> werr p = None.
Proof.
  unfold done. destruct (rerr p); [discriminate|].
  destruct (werr p); [discriminate | reflexivity].
Qed.

(** The copy and the deferred close together, on an open pipe. *)
Lemma copy_close_delivers (c : compressor) (last : error) (reads : list (list byte)) :
  forall z p,
    done p = false -> zerr z = None -> closed z = false ->
    let g := match ioCopy c reads last z p with
             | (_, p1, CopyWaits unread) => WaitsInCopy p1 unread
             | (z1, p1, CopyStops stop) =>
                 let err := copyError stop in
                 let logs := match err with
                             | Some e => [Log (LogGzipCopyError e)]
                             | None => []
                             end ++ [Log LogGzipFinished] in
                 match gzipClose c z1 p1 with
                 | (_, p2, WriteWaits) => WaitsInClose p2 stop logs
                 | (_, p2, res) =>
                     Ended (closeWrite (closingError err (stickyError res)) p2) stop logs
                 end
             end in
    delivered (pipeOf g)
    = delivered p ++ takeBudget (readerBudget p) (concat (emitted c (consumed z) reads))
    /\ settledGoroutine c last (readerBudget p)
         (concat (emitted c (consumed z) reads)) g.
Proof.
  induction reads as [|b reads IH]; intros z p Hd Hz Hc; cbv zeta;
    cbn [ioCopy emitted].
  - assert (Hio : ioCopy c [] last z p
                  = (z, p, CopyStops match last with EOF => SrcEOF | e => SrcFailed e end))
      by (destruct last; reflexivity).
    cbn [ioCopy] in Hio. rewrite Hio. clear Hio.
    unfold gzipClose. rewrite Hz, Hc.
    destruct (writeAll_delivers (finish c (consumed z)) p Hd) as (Hdl & Hd' & Ht).
    unfold settledGoroutine.
    destruct (writeAll (finish c (consumed z)) p) as [p' [|e|]];
      cbn [fst snd taken pipeOf stickyError] in *.
    + destruct Ht as [Hfit _]. rewrite Hfit.
      split; [exact Hdl|].
      split; [rewrite rerr_closeWrite; now apply done_false_rerr|].
      eexists. eexists. split; [reflexivity|].
      now apply closeWrite_copyError.
    + destruct Ht.
    + rewrite Ht. split; [exact Hdl|].
      split; [now apply done_false_rerr | now apply done_false_werr].
  - unfold gzipWrite. rewrite Hz.
    destruct (writeAll_delivers (emit c (consumed z) b) p Hd) as (Hdl & Hd' & Ht).
    unfold settledGoroutine. rewrite !concat_app, length_app, fitsb_app.
    destruct (writeAll (emit c (consumed z) b) p) as [p' [|e|]];
      cbn [fst snd pipeOf stickyError] in *; unfold taken in Ht.
    + destruct Ht as [Hfit Hb]. rewrite Hfit. cbn [andb].
      specialize (IH {| consumed := consumed z ++ b; zerr := None; closed := closed z |}
                     p' Hd' eq_refl Hc).
      cbv zeta in IH. cbn [consumed] in IH. rewrite Hb in IH.
      destruct IH as [IHd IHs]. split; [|exact IHs].
      rewrite IHd, Hdl, takeBudget_app, app_assoc. reflexivity.
    + destruct Ht.
    + rewrite Ht. cbn [andb].
      split; [rewrite Hdl, takeBudget_short by exact Ht; reflexivity|].
      split; [now apply done_false_rerr | now apply done_false_werr].
Qed.

Lemma startGoroutine_settled (c : compressor) (src : source) (budget : option nat) :
  delivered (pipeOf (startGoroutine c src (newPipe budget)))
  = takeBudget budget (compressedStream c (chunks src))
  /\ settledGoroutine c (lastRead src) budget (compressedStream c (chunks src))
       (startGoroutine c src (newPipe budget)).
Proof.
  exact (copy_close_delivers c (lastRead src) (chunks src) NewWriter (newPipe budget)
           eq_refl eq_refl eq_refl).
Qed.

(** The release of the goroutine hands nothing more to the upload. *)
Lemma releaseGoroutine_delivered (g : goroutine) :
  delivered (fst (fst (releaseGoroutine g))) = delivered (pipeOf g).
Proof. destruct g; reflexivity. Qed.

(** The pipe the upload reads, when the goroutine is over. *)
Lemma goroutine_outcome (c : compressor) (src : source) (budget : option nat) :
  let p := fst (fst (gzipGoroutine c src (newPipe budget))) in
  if fitsb budget (List.length (compressedStream c (chunks src)))
  then rerr p = None /\ readAtEnd p = lastRead src
       /\ delivered p = compressedStream c (chunks src)
  else rerr p = Some ErrClosedPipe.
Proof.
  cbv zeta. unfold gzipGoroutine.
  destruct (startGoroutine_settled c src budget) as (Hdl & Hr & Hs).
  rewrite <- releaseGoroutine_delivered in Hdl.
  destruct (fitsb budget _) eqn:Hfit.
  - destruct Hs as (p & logs & Hg & He). rewrite Hg in *.
    cbn [releaseGoroutine fst pipeOf] in *.
    split; [exact Hr|]. split; [exact He|].
    rewrite Hdl. now apply takeBudget_fits.
  - destruct (startGoroutine c src (newPipe budget)); [destruct Hs| |];
      cbn [releaseGoroutine fst pipeOf] in *; cbn; now rewrite Hr.
Qed.

(** The upload of [RunBackup] gives what [PutObject] gives on the pipe as
    the goroutine leaves it in the end. *)
Lemma uploadResult_putObject (b : backupWorld) (bucket key : string)
  (c : compressor) (src : source) (budget : option nat) :
  uploadResult b bucket key (startGoroutine c src (newPipe budget))
  = putObject b bucket key (fst (fst (gzipGoroutine c src (newPipe budget)))).
Proof.
  unfold gzipGoroutine.
  destruct (startGoroutine_settled c src budget) as (_ & Hr & _).
  destruct (startGoroutine c src (newPipe budget));
    cbn [uploadResult releaseGoroutine fst pipeOf] in *; [reflexivity| |];
    unfold putObject; cbn; now rewrite Hr.
Qed.

End StreamFacts.

(** X10.  Whatever the source and the upload do, the bytes the upload has
    received when the compression goroutine ends are a prefix of the
    compressed stream of the chunks read, in order: all of it for an upload
    that reads to the end, its first [k] bytes for an upload that stops
    after [k] bytes.  The upload has them all when it is over: the
    goroutine hands over nothing more when it is released. *)
Theorem upload_receives_stream_prefix
  (c : Backup.compressor) (src : Backup.source) (budget : option nat) :
  Pipe.delivered (fst (fst (Backup.gzipGoroutine c src (Pipe.newPipe budget))))
  = takeBudget budget (compressedStream c (Backup.chunks src))
  /\ Pipe.delivered (Backup.pipeOf (Backup.startGoroutine c src (Pipe.newPipe budget)))
     = takeBudget budget (compressedStream c (Backup.chunks src)).
Proof.
  destruct (startGoroutine_settled c src budget) as (Hdl & _).
  split; [|exact Hdl].
  unfold Backup.gzipGoroutine. now rewrite releaseGoroutine_delivered.
Qed.

(** X11.  The outcome of the upload of [RunBackup], whatever the archive
    stream, the compressor and the store.  An upload that reads its body to
    the end hands the store exactly the compressed stream of everything
    [git archive] wrote, when that stream ended cleanly, and fails with the
    error of the read when it did not; an upload that stops before the end
    of its body fails and nothing is stored. *)
Theorem upload_outcome
  (b : Backup.backupWorld) (bucket key : string)
  (c : Backup.compressor) (src : Backup.source) (budget : option nat) :
  Backup.putObject b bucket key
    (fst (fst (Backup.gzipGoroutine c src (Pipe.newPipe budget))))
  = (if fitsb budget (List.length (compressedStream c (Backup.chunks src)))
     then match Backup.lastRead src with
          | EOF => Backup.storeObject b bucket key
                     (compressedStream c (Backup.chunks src))
          | e => Some (Backup.uploadBodyError b e)
          end
     else Some (Backup.uploadAbort b))
  /\ Backup.uploadResult b bucket key
       (Backup.startGoroutine c src (Pipe.newPipe budget))
     = Backup.putObject b bucket key
         (fst (fst (Backup.gzipGoroutine c src (Pipe.newPipe budget)))).
Proof.
  split; [|apply uploadResult_putObject].
  pose proof (goroutine_outcome c src budget) as H. cbv zeta in H.
  unfold Backup.putObject.
  destruct (fitsb budget _).
  - destruct H as (Hr & He & Hd). rewrite Hr, He, Hd. reflexivity.
  - rewrite H. reflexivity.
Qed.


(* ================================================================== *)
(** ** The object keys *)

Section KeyFacts.

Lemma append_cancel_l (a x y : string) : (a ++ x = a ++ y)%string -> x = y.
Proof.
  induction a as [|c a IH]; cbn; intros H; [exact H|].
  apply IH. now inversion H.
Qed.

Lemma length_append (x y : string) :
  String.length (x ++ y) = String.length x + String.length y.
Proof. induction x as [|c x IH]; cbn; [reflexivity | now rewrite IH]. Qed.

Lemma append_cancel_r (b : string) :
  forall x y : string, (x ++ b = y ++ b)%string -> x = y.
Proof.
  induction x as [|c x IH]; intros [|d y] H; cbn in H.
  - reflexivity.
  - apply (f_equal String.length) in H. cbn in H. rewrite length_append in H. lia.
  - apply (f_equal String.length) in H. cbn in H. rewrite length_append in H. lia.
  - inversion H; subst. f_equal. now apply IH.
Qed.

End KeyFacts.

Lemma s3Key_cancel (cfg : BackupConfig) (h1 h2 : string) :
  Backup.s3Key cfg h1 = Backup.s3Key cfg h2 -> h1 = h2.
Proof.
  unfold Backup.s3Key.
  assert (Hk : forall p : string,
             (p ++ "commit-" ++ h1 ++ ".tar.gz" = p ++ "commit-" ++ h2 ++ ".tar.gz")%string
             -> h1 = h2).
  { intros p H. apply append_cancel_l in H. apply (append_cancel_l "commit-") in H.
    now apply append_cancel_r in H. }
  destruct (negb (String.eqb (Prefix cfg) EmptyString)); [|apply (Hk EmptyString)].
  destruct (negb (String.eqb (Strings.Trim (Prefix cfg) slash) EmptyString));
    [|apply (Hk EmptyString)].
  intros H. apply append_cancel_l in H. apply (append_cancel_l "/") in H.
  apply (Hk EmptyString). exact H.
Qed.

(** X12.  Under one configuration, the object keys of two different commits
    are different, whatever the prefix: a backup never overwrites the
    object of another commit. *)
Theorem distinct_commits_distinct_keys (cfg : BackupConfig) (h1 h2 : string) :
  h1 <> h2 -> Backup.s3Key cfg h1 <> Backup.s3Key cfg h2.
Proof. intros Hne H. apply Hne. exact (s3Key_cancel cfg h1 h2 H). Qed.

(* ================================================================== *)
(** ** The directories that are not watched *)

Section QuietWatches.

Import Monitor.

Variable sw : startWorld.

(** The paths that may be watched whatever their name: the roots. *)
Variable R : string -> Prop.

Lemma addWatch_paths (path : string) (wt : list string) :
  (quietOrRoot R) path -> Forall (quietOrRoot R) wt ->
  Forall (quietOrRoot R) (fst (addWatch sw path wt)).
Proof.
  intros Hp Hwt. unfold addWatch.
  destruct (watcherAdd sw wt path); cbn [fst]; [exact Hwt|].
  destruct (existsb _ wt); [exact Hwt|].
  apply Forall_app. split; [exact Hwt | now constructor].
Qed.

Lemma visit_paths (path : string) (isDir : bool) (w : watcher) :
  Forall (quietOrRoot R) (fst w) ->
  Forall (quietOrRoot R) (fst (fst (visit sw path isDir w))).
Proof.
  intros Hw. unfold visit. destruct isDir; [|exact Hw].
  destruct (String.eqb (Filepath.Base path) "objects"
            || String.eqb (Filepath.Base path) "hooks") eqn:E; [exact Hw|].
  pose proof (addWatch_paths path (fst w) (or_intror E) Hw) as Ha.
  destruct (addWatch sw path (fst w)) as [wt [e|]]; exact Ha.
Qed.

Lemma walkDir_paths (d : fsnode) :
  forall (path : string) (w : watcher),
    Forall (quietOrRoot R) (fst w) ->
    Forall (quietOrRoot R) (fst (walkDir sw path d w)).
Proof.
  revert d. fix IH 1. intros [name | name readErr entries] path w Hw.
  - apply (visit_paths path false w Hw).
  - cbn [walkDir]. pose proof (visit_paths path true w Hw) as Hv.
    destruct (visit sw path true w) as [w1 [|]]; cbn [fst] in Hv; [exact Hv|].
    assert (Hfold : forall w2,
      Forall (quietOrRoot R) (fst w2) ->
      Forall (quietOrRoot R) (fst (fold_left
        (fun acc d1 => walkDir sw (Filepath.Join [path; nodeName d1]) d1 acc)
        entries w2))).
    { induction entries as [|d1 entries IHe]; intros w2 H2; cbn [fold_left].
      - exact H2.
      - apply IHe. now apply IH. }
    apply Hfold. destruct readErr; exact Hv.
Qed.

Lemma addRecursiveWatch_paths (rootPath : string) (w : watcher) :
  R rootPath -> Forall (quietOrRoot R) (fst w) ->
  Forall (quietOrRoot R) (fst (fst (addRecursiveWatch sw rootPath w))).
Proof.
  intros Hr Hw. unfold addRecursiveWatch, WalkDir.
  assert (H1 : Forall (quietOrRoot R) (fst match lstat sw rootPath with
                                       | Ok d => walkDir sw rootPath d w
                                       | Err e => visitError rootPath e w
                                       end)).
  { destruct (lstat sw rootPath); [now apply walkDir_paths | exact Hw]. }
  pose proof (addWatch_paths rootPath _ (or_introl Hr) H1) as Ha.
  destruct (addWatch sw rootPath _) as [wt [e|]]; exact Ha.
Qed.

Lemma addWatches_paths (pathsToWatch : list string) :
  forall (w : watcher) (n : nat),
    (forall p, In p pathsToWatch -> R p) ->
    Forall (quietOrRoot R) (fst w) ->
    Forall (quietOrRoot R) (fst (fst (addWatches sw pathsToWatch w n))).
Proof.
  induction pathsToWatch as [|p rest IH]; intros w n HR Hw; cbn [addWatches].
  - exact Hw.
  - assert (HR' : forall q, In q rest -> R q) by (intros q Hq; apply HR; now right).
    destruct (stat sw p); try (apply IH; [exact HR' | exact Hw]).
    pose proof (addRecursiveWatch_paths p (fst w, snd w ++ [Log (LogAddingWatch p)])
                  (HR p (or_introl eq_refl)) Hw) as Ha.
    destruct (addRecursiveWatch sw p _) as [w1 [e|]]; cbn [fst] in Ha;
      apply IH; assumption.
Qed.

End QuietWatches.

(** X13.  Whatever the file tree under [.git] and whatever the watcher
    answers, no directory named [objects] or [hooks] is among the paths
    watched when [Start] enters its event loop, the two listed roots
    apart. *)
Theorem Start_never_watches_noisy_directories
  (sw : Monitor.startWorld) (g : gitWorld) (cfg : Config)
  (st : Monitor.monitorState) (watched : list string) (t : list event) :
  Monitor.Start sw g cfg = Monitor.EventLoop st watched t ->
  forall p, In p watched ->
    p = Filepath.Join [RepoPath cfg; ".git"]
    \/ p = Filepath.Join [Filepath.Join [RepoPath cfg; ".git"]; "refs"]
    \/ isNoisyDir p = false.
Proof.
  unfold Monitor.Start. intros H p Hp.
  set (gitDir := Filepath.Join [RepoPath cfg; ".git"]) in *.
  set (roots := [gitDir; Filepath.Join [gitDir; "refs"]]) in *.
  assert (Hq : quietOrRoot (fun q => In q roots) p).
  { destruct (Monitor.stat sw gitDir); [|discriminate|];
      destruct (Gitutil.GetCurrentCommitHash g (RepoPath cfg)); cbv beta iota zeta in H;
      (destruct (Monitor.newWatcher sw); [discriminate|]);
      match type of H with
      | context [Monitor.addWatches sw roots ?w ?n] =>
          pose proof (addWatches_paths sw (fun q => In q roots) roots w n
                        (fun q Hq => Hq) (Forall_nil _)) as Hall;
          destruct (Monitor.addWatches sw roots w n) as [w1 n1]
      end;
      cbn [fst] in Hall; inversion H; subst;
      rewrite Forall_forall in Hall; now apply Hall. }
  destruct Hq as [[<-|[<-|[]]]|Hq]; auto.
Qed.

Section StartupState.

Import Monitor.

(** The package variables [Start] enters its event loop with. *)
Lemma Start_state (sw : startWorld) (g : gitWorld) (cfg : Config)
  (st : monitorState) (watched : list string) (t : list event) :
  Start sw g cfg = EventLoop st watched t ->
  repoPath st = RepoPath cfg
  /\ processingMu st = false
  /\ appConfig st = cfg
  /\ lastKnownHash st = match Gitutil.GetCurrentCommitHash g (RepoPath cfg) with
                        | Ok h => h
                        | Err _ => EmptyString
                        end.
Proof.
  unfold Start. intros H.
  destruct (stat sw _); [|discriminate|];
    destruct (Gitutil.GetCurrentCommitHash g (RepoPath cfg)); cbv beta iota zeta in H;
    (destruct (newWatcher sw); [discriminate|]);
    destruct (addWatches sw _ _ _) as [w1 n1]; inversion H; subst; now repeat split.
Qed.

End StartupState.

(** X27.  The commit the repository is at when [Start] runs is not
    processed: as long as the repository answers as it did at startup, a
    check cycle leaves the package variables as [Start] set them and calls
    neither the enumeration, nor the validator, nor the pipeline.  This
    holds as well when the hash could not be read at startup. *)
Theorem commit_at_startup_is_not_processed
  (sw : Monitor.startWorld) (cfg : Config) (w : Monitor.world)
  (st : Monitor.monitorState) (watched : list string) (t : list event) :
  Monitor.Start sw (Monitor.git w) cfg = Monitor.EventLoop st watched t ->
  fst (Monitor.handleCommitCheck w st) = st
  /\ filter isWorkEvent (snd (Monitor.handleCommitCheck w st)) = [].
Proof.
  intros H. destruct (Start_state sw (Monitor.git w) cfg st watched t H)
    as (Hrepo & Hmu & _ & Hhash).
  destruct (cycle_cases w st) as [[Hheld _] | [_ Hcases]]; [congruence|].
  rewrite Hrepo in Hcases.
  destruct Hcases as [(e & _ & Hst & Ht) | [(h & _ & _ & Hst & Ht) | Hnew]];
    try (now split).
  destruct Hnew as (h & Hcur & _ & Hne & _).
  rewrite Hcur in Hhash. congruence.
Qed.

(* ================================================================== *)
(** ** The debounce timer *)

Section LoopFacts.

Import EventLoop.

Variable cfg : Config.

(** The time a debounce timer is due, when nothing overflows. *)
Lemma debounce_due (now : Z) :
  (0 < DebounceSecs cfg)%Z ->
  (0 <= now)%Z ->
  (now + DebounceSecs cfg * Time.Second <= Time.maxInt64)%Z ->
  Time.when now (debounceDuration cfg) = (now + DebounceSecs cfg * Time.Second)%Z.
Proof.
  unfold debounceDuration, Time.mul, Time.when, Time.wrap64, Time.maxInt64, Time.Second.
  intros Hs Hn Hmax.
  assert (Hd : ((DebounceSecs cfg * 1000000000 + 9223372036854775808)
                mod 18446744073709551616 - 9223372036854775808
                = DebounceSecs cfg * 1000000000)%Z).
  { rewrite Z.mod_small; lia. }
  rewrite Hd.
  destruct (Z.leb_spec (DebounceSecs cfg * 1000000000) 0); [lia|].
  rewrite Z.mod_small by lia.
  destruct (Z.ltb_spec (now + DebounceSecs cfg * 1000000000 + 9223372036854775808
                        - 9223372036854775808) 0); lia.
Qed.

Lemma checkTimes_app (t1 t2 : list loopEvent) :
  checkTimes (t1 ++ t2) = checkTimes t1 ++ checkTimes t2.
Proof. unfold checkTimes. apply flat_map_app. Qed.

Lemma checkTimes_expire (debounceTimer : option Z) :
  checkTimes (expire debounceTimer)
  = match debounceTimer with Some due => [due] | None => [] end.
Proof. destruct debounceTimer; reflexivity. Qed.

Lemma nondecreasing_tail (t : Z) (ts : list Z) :
  nondecreasing (t :: ts) = true -> nondecreasing ts = true.
Proof.
  cbn [nondecreasing]. destruct ts as [|n ts]; [reflexivity|].
  intros H. apply andb_prop in H. apply H.
Qed.

Lemma nondecreasing_bound (t : Z) (ts : list Z) :
  nondecreasing (t :: ts) = true -> Forall (fun x => (t <= x)%Z) ts.
Proof.
  revert t. induction ts as [|n ts IH]; intros t H; constructor.
  - cbn in H. apply andb_prop in H. destruct H as [H _]. now apply Z.leb_le.
  - cbn [nondecreasing] in H. apply andb_prop in H. destruct H as [H1 H2].
    apply Z.leb_le in H1. specialize (IH n H2).
    eapply Forall_impl; [|exact IH]. cbn. intros; lia.
Qed.

(** The resets come from the inputs, in order. *)
Lemma resetTimes_bound (lo : Z) (inputs : list (Z * received)) :
  Forall (fun x => (lo <= x)%Z) (map fst inputs) ->
  Forall (fun x => (lo <= x)%Z) (resetTimes inputs).
Proof.
  induction inputs as [|[now r] rest IH]; intros H; cbn [resetTimes]; [constructor|].
  inversion H as [|? ? Hn Hr]; subst. cbn [fst] in Hn.
  destruct r as [event| | |]; try constructor; auto.
  destruct (resetsTimer event); [constructor|]; auto.
Qed.

Lemma resetTimes_nondecreasing (inputs : list (Z * received)) :
  nondecreasing (map fst inputs) = true -> nondecreasing (resetTimes inputs) = true.
Proof.
  induction inputs as [|[now r] rest IH]; intros H; [reflexivity|].
  cbn [map fst] in H.
  pose proof (nondecreasing_tail _ _ H) as Ht.
  pose proof (resetTimes_bound now rest (nondecreasing_bound _ _ H)) as Hb.
  cbn [resetTimes]. destruct r as [event| | |]; auto.
  destruct (resetsTimer event); auto.
  specialize (IH Ht). destruct (resetTimes rest) as [|n ts]; [reflexivity|].
  cbn [nondecreasing] in *. inversion Hb; subst.
  apply andb_true_intro. split; [now apply Z.leb_le | exact IH].
Qed.

(** A timer that is due by [now] survives the resets that come later. *)
Lemma survives_due (due now : Z) (later : list Z) :
  (due <= now)%Z -> Forall (fun x => (now <= x)%Z) later -> survives due later = [due].
Proof.
  intros Hd Hl. destruct later as [|n later]; [reflexivity|].
  cbn. inversion Hl; subst.
  destruct (Z.leb_spec due n); [reflexivity | lia].
Qed.

Lemma survives_pending (due now : Z) (later : list Z) :
  (now < due)%Z -> survives due (now :: later) = [].
Proof. intros H. cbn. destruct (Z.leb_spec due now); [lia | reflexivity]. Qed.

(** Sequences with elements left out. *)
Lemma subsequence_nil (ys : list Z) : subsequence [] ys = true.
Proof. destruct ys; reflexivity. Qed.

Lemma subsequence_refl (xs : list Z) : subsequence xs xs = true.
Proof. induction xs as [|x xs IH]; cbn; [reflexivity|]. now rewrite Z.eqb_refl. Qed.

Lemma subsequence_keep (x : Z) (xs ys : list Z) :
  subsequence xs ys = true -> subsequence (x :: xs) (x :: ys) = true.
Proof. intros H. cbn. now rewrite Z.eqb_refl. Qed.

Lemma subsequence_tail (ys : list Z) :
  forall x xs, subsequence (x :: xs) ys = true -> subsequence xs ys = true.
Proof.
  induction ys as [|y ys IH]; intros x xs H; [discriminate|].
  cbn [subsequence] in H. destruct xs as [|x' xs]; [reflexivity|].
  cbn [subsequence]. destruct (Z.eqb x y).
  - destruct (Z.eqb x' y); [now apply (IH x') | exact H].
  - pose proof (IH x (x' :: xs) H) as H'.
    destruct (Z.eqb x' y); [now apply (IH x') | exact H'].
Qed.

Lemma subsequence_skip (y : Z) (xs ys : list Z) :
  subsequence xs ys = true -> subsequence xs (y :: ys) = true.
Proof.
  intros H. destruct xs as [|x xs]; [reflexivity|].
  cbn [subsequence]. destruct (Z.eqb x y); [now apply (subsequence_tail ys x) | exact H].
Qed.

Lemma subsequence_one (x : Z) (front : list Z) :
  subsequence (front ++ [x]) [x] = true -> front = [].
Proof.
  destruct front as [|f front]; [reflexivity|].
  cbn [app subsequence]. destruct front; cbn; destruct (Z.eqb f x); discriminate.
Qed.

(** What [elapse] comes to: the timer is due and has started, and makes
    its call; or nothing happens. *)
Lemma elapse_cases (fired : bool) (now : Z) (debounceTimer : option Z) :
  (exists due, debounceTimer = Some due /\ (due <= now)%Z /\ fired = true
               /\ elapse fired now debounceTimer = ([CallHandleCommitCheck due], None))
  \/ elapse fired now debounceTimer = ([], debounceTimer).
Proof.
  unfold elapse. destruct debounceTimer as [due|]; [|now right].
  destruct (Z.leb_spec due now); cbn [andb]; [|now right].
  destruct fired; [|now right].
  left. exists due. now repeat split.
Qed.

(** Without an event that resets the timer, the loop starts none. *)
Lemma eventLoop_idle (inputs : list (Z * received)) :
  forall started,
    resetTimes inputs = [] -> checkTimes (eventLoop started cfg inputs None) = [].
Proof.
  induction inputs as [|[now r] rest IH]; intros started H; [reflexivity|].
  cbn [eventLoop elapse app]. cbn [resetTimes] in H.
  destruct r as [event| |err|]; try reflexivity.
  - destruct (resetsTimer event); [discriminate | now apply IH].
  - cbn [checkTimes flat_map app]. now apply IH.
Qed.

(** Every call of the loop is for a quiet interval, from any state of the
    timer and whenever the calls start. *)
Lemma eventLoop_calls_quiet (inputs : list (Z * received)) :
  forall started debounceTimer,
    nondecreasing (map fst inputs) = true ->
    subsequence
      (checkTimes (eventLoop started cfg inputs debounceTimer))
      (match debounceTimer with
       | Some due => survives due (resetTimes inputs)
       | None => []
       end ++ settled (debounceDuration cfg) (resetTimes inputs)) = true.
Proof.
  induction inputs as [|[now r] rest IH]; intros started debounceTimer Hs.
  - cbn [eventLoop resetTimes settled]. rewrite checkTimes_expire, app_nil_r.
    destruct debounceTimer; reflexivity || (cbn; now rewrite Z.eqb_refl).
  - cbn [map fst] in Hs.
    pose proof (nondecreasing_tail _ _ Hs) as Ht.
    pose proof (resetTimes_bound now rest (nondecreasing_bound _ _ Hs)) as Hb.
    cbn [eventLoop].
    destruct (elapse_cases (started 0) now debounceTimer)
      as [(due & -> & Hdue & _ & ->) | ->].
    + cbn [app]. destruct r as [event| |err|]; cbn [resetTimes].
      * destruct (resetsTimer event).
        -- cbn [survives settled]. destruct (Z.leb_spec due now); [|lia].
           cbn [app checkTimes flat_map].
           apply subsequence_keep. apply (IH _ (Some _) Ht).
        -- rewrite (survives_due due now _ Hdue Hb).
           cbn [app checkTimes flat_map].
           apply subsequence_keep. apply (IH _ None Ht).
      * cbn. now rewrite Z.eqb_refl.
      * rewrite (survives_due due now _ Hdue Hb).
        cbn [app checkTimes flat_map].
        apply subsequence_keep. apply (IH _ None Ht).
      * cbn. now rewrite Z.eqb_refl.
    + cbn [app]. destruct r as [event| |err|]; cbn [resetTimes].
      * destruct (resetsTimer event).
        -- pose proof (IH (fun k => started (S k))
                         (Some (Time.when now (debounceDuration cfg))) Ht) as H.
           cbn [settled].
           destruct debounceTimer as [due|]; [|exact H].
           cbn [survives]. destruct (Z.leb due now); [|exact H].
           cbn [app]. now apply subsequence_skip.
        -- apply (IH _ debounceTimer Ht).
      * cbn [app checkTimes flat_map settled]. fold (checkTimes (expire debounceTimer)).
        rewrite checkTimes_expire, app_nil_r.
        destruct debounceTimer; [cbn; now rewrite Z.eqb_refl | reflexivity].
      * cbn [checkTimes flat_map app].
        fold (checkTimes (eventLoop (fun k => started (S k)) cfg rest debounceTimer)).
        apply (IH _ debounceTimer Ht).
      * cbn [app checkTimes flat_map settled]. fold (checkTimes (expire debounceTimer)).
        rewrite checkTimes_expire, app_nil_r.
        destruct debounceTimer; [cbn; now rewrite Z.eqb_refl | reflexivity].
Qed.

(** The timer nothing resets any more makes its call, which is the last
    call of the loop: the timer of the last event that resets it or, when
    there is no such event, the timer there was. *)
Lemma eventLoop_last_call (inputs : list (Z * received)) :
  forall started debounceTimer x,
    match resetTimes inputs with
    | [] => debounceTimer
    | _ :: _ => Some (Time.when (last (resetTimes inputs) 0%Z) (debounceDuration cfg))
    end = Some x ->
    exists front,
      checkTimes (eventLoop started cfg inputs debounceTimer) = front ++ [x].
Proof.
  induction inputs as [|[now r] rest IH]; intros started debounceTimer x Hx.
  - cbn in Hx. subst debounceTimer. now exists [].
  - cbn [eventLoop].
    assert (Hreset : forall calls,
      match now :: resetTimes rest with
      | [] => debounceTimer
      | _ :: _ => Some (Time.when (last (now :: resetTimes rest) 0%Z) (debounceDuration cfg))
      end = Some x ->
      exists front,
        checkTimes (calls ++ eventLoop (fun k => started (S k)) cfg rest
                               (Some (Time.when now (debounceDuration cfg))))
        = front ++ [x]).
    { intros calls H.
      destruct (IH (fun k => started (S k))
                   (Some (Time.when now (debounceDuration cfg))) x) as [front Hfront].
      - destruct (resetTimes rest) as [|r1 rs]; exact H.
      - exists (checkTimes calls ++ front).
        rewrite checkTimes_app, Hfront, app_assoc. reflexivity. }
    destruct (elapse_cases (started 0) now debounceTimer)
      as [(due & -> & Hdue & _ & ->) | ->].
    + destruct r as [event| |err|]; cbn [resetTimes] in Hx.
      * destruct (resetsTimer event); [now apply Hreset|].
        destruct (resetTimes rest) as [|r1 rs] eqn:Hr.
        -- injection Hx as <-. exists []. cbn [app checkTimes flat_map].
           fold (checkTimes (eventLoop (fun k => started (S k)) cfg rest None)).
           now rewrite (eventLoop_idle rest _ Hr).
        -- destruct (IH (fun k => started (S k)) None x) as [front Hfront];
             [exact Hx|].
           exists (due :: front). cbn [app checkTimes flat_map].
           fold (checkTimes (eventLoop (fun k => started (S k)) cfg rest None)).
           now rewrite Hfront.
      * injection Hx as <-. now exists [].
      * destruct (resetTimes rest) as [|r1 rs] eqn:Hr.
        -- injection Hx as <-. exists []. cbn [app checkTimes flat_map].
           fold (checkTimes (eventLoop (fun k => started (S k)) cfg rest None)).
           now rewrite (eventLoop_idle rest _ Hr).
        -- destruct (IH (fun k => started (S k)) None x) as [front Hfront];
             [exact Hx|].
           exists (due :: front). cbn [app checkTimes flat_map].
           fold (checkTimes (eventLoop (fun k => started (S k)) cfg rest None)).
           now rewrite Hfront.
      * injection Hx as <-. now exists [].
    + cbn [app]. destruct r as [event| |err|]; cbn [resetTimes] in Hx.
      * destruct (resetsTimer event); [exact (Hreset [] Hx)|].
        now apply IH.
      * subst debounceTimer. now exists [].
      * cbn [checkTimes flat_map app].
        fold (checkTimes (eventLoop (fun k => started (S k)) cfg rest debounceTimer)).
        now apply IH.
      * subst debounceTimer. now exists [].
Qed.

(** The calls of the loop from any state of the timer, when the call of a
    timer that is due has always started when the next value is handled. *)
Lemma eventLoop_checks (inputs : list (Z * received)) :
  forall started debounceTimer,
    prompt started ->
    nondecreasing (map fst inputs) = true ->
    checkTimes (eventLoop started cfg inputs debounceTimer)
    = match debounceTimer with
      | Some due => survives due (resetTimes inputs)
      | None => []
      end ++ settled (debounceDuration cfg) (resetTimes inputs).
Proof.
  induction inputs as [|[now r] rest IH]; intros started debounceTimer Hp Hs.
  - cbn [eventLoop resetTimes settled]. rewrite checkTimes_expire, app_nil_r.
    destruct debounceTimer; reflexivity.
  - cbn [map fst] in Hs.
    pose proof (nondecreasing_tail _ _ Hs) as Ht.
    pose proof (resetTimes_bound now rest (nondecreasing_bound _ _ Hs)) as Hb.
    assert (Hlater : prompt (fun k => started (S k))) by (intros k; apply Hp).
    cbn [eventLoop]. rewrite (Hp 0).
    assert (Hel : forall rest' : list Z,
               Forall (fun x => (now <= x)%Z) rest' ->
               checkTimes (fst (elapse true now debounceTimer))
               ++ match snd (elapse true now debounceTimer) with
                  | Some due => survives due rest'
                  | None => []
                  end
               = match debounceTimer with
                 | Some due => survives due rest'
                 | None => []
                 end).
    { intros rest' Hr. unfold elapse. destruct debounceTimer as [due|]; [|reflexivity].
      rewrite andb_true_r.
      destruct (Z.leb_spec due now); cbn [fst snd checkTimes flat_map app].
      - now rewrite (survives_due due now rest').
      - reflexivity. }
    assert (Hreset :
      checkTimes (fst (elapse true now debounceTimer))
      = match debounceTimer with
        | Some due => survives due (now :: resetTimes rest)
        | None => []
        end).
    { unfold elapse. destruct debounceTimer as [due|]; [|reflexivity].
      rewrite andb_true_r. cbn [survives]. destruct (Z.leb due now); reflexivity. }
    assert (Hclosed :
      checkTimes (fst (elapse true now debounceTimer))
      ++ checkTimes (expire (snd (elapse true now debounceTimer)))
      = match debounceTimer with
        | Some due => survives due []
        | None => []
        end).
    { unfold elapse. destruct debounceTimer as [due|]; [|reflexivity].
      rewrite andb_true_r. destruct (Z.leb due now); reflexivity. }
    destruct (elapse true now debounceTimer) as [calls debounceTimer1].
    cbn [fst snd] in *. rewrite checkTimes_app.
    destruct r as [event| |err|]; cbn [resetTimes].
    + destruct (resetsTimer event).
      * rewrite (IH _ _ Hlater Ht), Hreset. cbn [settled]. reflexivity.
      * rewrite (IH _ _ Hlater Ht), app_assoc, (Hel _ Hb). reflexivity.
    + rewrite checkTimes_app. cbn [checkTimes flat_map app settled].
      fold (checkTimes (expire debounceTimer1)). rewrite Hclosed, app_nil_r. reflexivity.
    + change (LoopLog (LogWatcherError err)
              :: eventLoop (fun k => started (S k)) cfg rest debounceTimer1)
        with ([LoopLog (LogWatcherError err)]
              ++ eventLoop (fun k => started (S k)) cfg rest debounceTimer1).
      rewrite checkTimes_app. cbn [checkTimes flat_map app].
      fold (checkTimes (eventLoop (fun k => started (S k)) cfg rest debounceTimer1)).
      rewrite (IH _ _ Hlater Ht), app_assoc, (Hel _ Hb). reflexivity.
    + rewrite checkTimes_app. cbn [checkTimes flat_map app settled].
      fold (checkTimes (expire debounceTimer1)). rewrite Hclosed, app_nil_r. reflexivity.
Qed.

Lemma settled_burst (d : Z) (resets : list Z) :
  resets <> [] -> burst d resets = true ->
  settled d resets = [Time.when (last resets 0%Z) d].
Proof.
  induction resets as [|t later IH]; intros Hne Hb; [congruence|].
  destruct later as [|next later']; [reflexivity|].
  cbn [burst] in Hb. apply andb_prop in Hb. destruct Hb as [H1 H2].
  apply Z.ltb_lt in H1.
  transitivity (settled d (next :: later')).
  { change (settled d (t :: next :: later'))
      with (survives (Time.when t d) (next :: later') ++ settled d (next :: later')).
    rewrite survives_pending by exact H1. reflexivity. }
  rewrite IH; [reflexivity | discriminate | exact H2].
Qed.

Lemma settled_immediate (d : Z) (resets : list Z) :
  (d <= 0)%Z -> nondecreasing resets = true -> settled d resets = resets.
Proof.
  intros Hd. induction resets as [|t later IH]; intros Hs; [reflexivity|].
  cbn [settled]. unfold Time.when at 1.
  destruct (Z.leb_spec d 0); [|lia].
  rewrite (survives_due t t later (Z.le_refl t) (nondecreasing_bound _ _ Hs)).
  cbn [app]. f_equal. apply IH. exact (nondecreasing_tail _ _ Hs).
Qed.

Lemma when_immediate (d t : Z) : (d <= 0)%Z -> Time.when t d = t.
Proof. intros Hd. unfold Time.when. destruct (Z.leb_spec d 0); [reflexivity | lia]. Qed.

(** The three facts about the calls of the loop, from the start. *)
Lemma eventLoop_calls (started : nat -> bool) (inputs : list (Z * received)) :
  nondecreasing (map fst inputs) = true ->
  subsequence (checkTimes (eventLoop started cfg inputs None))
              (settled (debounceDuration cfg) (resetTimes inputs)) = true
  /\ (resetTimes inputs <> [] ->
      exists front,
        checkTimes (eventLoop started cfg inputs None)
        = front ++ [Time.when (last (resetTimes inputs) 0%Z) (debounceDuration cfg)])
  /\ (prompt started ->
      checkTimes (eventLoop started cfg inputs None)
      = settled (debounceDuration cfg) (resetTimes inputs)).
Proof.
  intros Hs. split; [|split].
  - exact (eventLoop_calls_quiet inputs started None Hs).
  - intros Hne. apply eventLoop_last_call.
    destruct (resetTimes inputs); [contradiction | reflexivity].
  - intros Hp. exact (eventLoop_checks inputs started None Hp Hs).
Qed.

End LoopFacts.

(** X14.  Coalescing.  When every event that resets the timer, the first
    apart, is received before the timer started by the one before it is
    due, [handleCommitCheck] is called once, when the timer of the last of
    them is due; events of other kinds and watcher errors received in
    between change nothing, and neither does the time the runtime takes to
    start the call of a timer that is due. *)
Theorem burst_gives_one_check (started : nat -> bool) (cfg : Config)
  (inputs : list (Z * EventLoop.received)) :
  nondecreasing (map fst inputs) = true ->
  resetTimes inputs <> [] ->
  burst (EventLoop.debounceDuration cfg) (resetTimes inputs) = true ->
  checkTimes (EventLoop.eventLoop started cfg inputs None)
  = [Time.when (last (resetTimes inputs) 0%Z) (EventLoop.debounceDuration cfg)].
Proof.
  intros Hs Hne Hb.
  destruct (eventLoop_calls cfg started inputs Hs) as (Hsub & Hlast & _).
  destruct (Hlast Hne) as [front Hfront].
  rewrite Hfront in *. rewrite (settled_burst _ _ Hne Hb) in Hsub.
  now rewrite (subsequence_one _ _ Hsub).
Qed.

(** X15.  The calls of [handleCommitCheck] the event loop causes are for
    quiet intervals of the events that reset the timer: every call is the
    call of the timer of such an event that is not followed by another one
    before the timer is due, in their order, and the timer of the last such
    event always makes its call.  There is one call for every quiet
    interval when the call of a timer that is due has always started when
    the loop handles the next value; otherwise the event that comes next
    may still stop the timer. *)
Theorem checks_are_quiet_intervals (started : nat -> bool) (cfg : Config)
  (inputs : list (Z * EventLoop.received)) :
  nondecreasing (map fst inputs) = true ->
  subsequence (checkTimes (EventLoop.eventLoop started cfg inputs None))
              (settled (EventLoop.debounceDuration cfg) (resetTimes inputs)) = true
  /\ (resetTimes inputs <> [] ->
      exists front,
        checkTimes (EventLoop.eventLoop started cfg inputs None)
        = front ++ [Time.when (last (resetTimes inputs) 0%Z)
                      (EventLoop.debounceDuration cfg)])
  /\ (prompt started ->
      checkTimes (EventLoop.eventLoop started cfg inputs None)
      = settled (EventLoop.debounceDuration cfg) (resetTimes inputs)).
Proof. apply eventLoop_calls. Qed.

(** X16.  With a debounce duration that is not positive the timer is due
    at once: every call of [handleCommitCheck] is for an event that resets
    the timer, at the time the event is received, and the last such event
    always gets its call.  Nothing is coalesced when the call of a timer
    that is due has always started when the loop handles the next value:
    then every such event causes a call. *)
Theorem no_debounce_checks_every_event (started : nat -> bool) (cfg : Config)
  (inputs : list (Z * EventLoop.received)) :
  (EventLoop.debounceDuration cfg <= 0)%Z ->
  nondecreasing (map fst inputs) = true ->
  subsequence (checkTimes (EventLoop.eventLoop started cfg inputs None))
              (resetTimes inputs) = true
  /\ (resetTimes inputs <> [] ->
      exists front,
        checkTimes (EventLoop.eventLoop started cfg inputs None)
        = front ++ [last (resetTimes inputs) 0%Z])
  /\ (prompt started ->
      checkTimes (EventLoop.eventLoop started cfg inputs None) = resetTimes inputs).
Proof.
  intros Hd Hs.
  destruct (eventLoop_calls cfg started inputs Hs) as (Hsub & Hlast & Hall).
  rewrite (settled_immediate _ _ Hd (resetTimes_nondecreasing _ Hs)) in *.
  rewrite (when_immediate _ _ Hd) in Hlast.
  now repeat split.
Qed.

(** X17.  Events that are neither a write, a creation nor a rename, and
    the errors of the watcher, never cause a call of [handleCommitCheck],
    whenever they are received. *)
Theorem other_events_never_check (started : nat -> bool) (cfg : Config)
  (inputs : list (Z * EventLoop.received)) :
  resetTimes inputs = [] ->
  checkTimes (EventLoop.eventLoop started cfg inputs None) = [].
Proof. apply eventLoop_idle. Qed.

(* ================================================================== *)
(** ** The validator, file by file *)

Section PerFile.

Import Validator.

Lemma errors_errorIf (c : bool) (m : string) (st : vstate) :
  errors (errorIf c m st) = errors st ++ (if c then [m] else []).
Proof. destruct c; cbn; [reflexivity | now rewrite app_nil_r]. Qed.

Lemma errors_addError (m : string) (st : vstate) :
  errors (addError m st) = errors st ++ [m].
Proof. reflexivity. Qed.

Ltac additive :=
  repeat first [rewrite errors_errorIf | rewrite errors_addError];
  cbn [errors app]; rewrite <- ?app_assoc, ?app_nil_r; reflexivity.

Lemma checkProjectFile_additive file folder parts st :
  errors (checkProjectFile file folder parts st)
  = errors st
    ++ errors (checkProjectFile file folder parts {| errors := []; isValid := true |}).
Proof. unfold checkProjectFile. additive. Qed.

Lemma checkExportFile_additive file folder parts st :
  errors (checkExportFile file folder parts st)
  = errors st
    ++ errors (checkExportFile file folder parts {| errors := []; isValid := true |}).
Proof.
  unfold checkExportFile.
  destruct (Nat.ltb 4 (List.length parts)); [|additive].
  destruct (exportNameSubmatch _) as [[exportBase exportStatus]|]; additive.
Qed.

Lemma checkProjectsPath_additive file parts st :
  errors (checkProjectsPath file parts st)
  = errors st
    ++ errors (checkProjectsPath file parts {| errors := []; isValid := true |}).
Proof.
  unfold checkProjectsPath.
  destruct (Nat.ltb 2 (List.length parts)); [|additive].
  destruct (negb (Regexp.MatchString projectFolderRegex _)); [additive|].
  destruct (String.eqb _ EmptyString); [additive|].
  destruct (negb (Strings.Contains _ "/")); [apply checkProjectFile_additive|].
  destruct (Strings.HasPrefix _ "exports/"); [apply checkExportFile_additive | additive].
Qed.

Lemma checkFile_additive file st :
  errors (checkFile file st) = errors st ++ fileViolations file.
Proof.
  unfold fileViolations, checkFile.
  destruct (String.eqb _ "."); [additive|].
  destruct (Strings.HasPrefix _ "src/"); [|cbn [negb]; additive].
  destruct (Nat.ltb 1 _ && String.eqb _ "projects"); [|additive].
  rewrite checkProjectsPath_additive.
  rewrite (checkProjectsPath_additive _ _ (errorIf _ _ (errorIf _ _ {| errors := [] |}))).
  rewrite !errors_errorIf. cbn [errors app]. rewrite <- !app_assoc. reflexivity.
Qed.

Lemma pathChecks_additive (files : list string) :
  forall st,
    errors (fold_left (fun st file => checkFile file st) files st)
    = errors st ++ flat_map fileViolations files.
Proof.
  induction files as [|f files IH]; intros st; cbn [fold_left flat_map].
  - now rewrite app_nil_r.
  - rewrite IH, checkFile_additive, <- app_assoc. reflexivity.
Qed.

Lemma checkRequired_additive g repo st :
  errors (checkRequired g repo st) = errors st ++ requiredViolations g repo.
Proof.
  unfold requiredViolations, checkRequired. cbn [fold_left requiredRootFiles].
  rewrite !errors_errorIf. cbn [errors app]. rewrite <- !app_assoc. reflexivity.
Qed.

Lemma Validate_violations (g : gitWorld) (repoPath : string) (files : list string) :
  snd (Validate g repoPath files)
  = flat_map fileViolations files ++ requiredViolations g repoPath.
Proof.
  unfold Validate. cbn [snd].
  rewrite checkRequired_additive, pathChecks_additive. reflexivity.
Qed.

Lemma isNil_app {A : Type} (l1 l2 : list A) : isNil (l1 ++ l2) = isNil l1 && isNil l2.
Proof. destruct l1; reflexivity. Qed.

Lemma isNil_flat_map {A B : Type} (f : A -> list B) (l : list A) :
  isNil (flat_map f l) = forallb (fun x => isNil (f x)) l.
Proof.
  induction l as [|x l IH]; [reflexivity|].
  cbn [flat_map forallb]. now rewrite isNil_app, IH.
Qed.

Lemma isValid_pathChecks (files : list string) :
  isValid (pathChecks files) = forallb (fun f => isNil (fileViolations f)) files.
Proof.
  assert (H : consistent (pathChecks files))
    by (apply consistent_fold_checkFile; reflexivity).
  unfold consistent in H. rewrite H. unfold pathChecks.
  rewrite pathChecks_additive. cbn [errors app]. apply isNil_flat_map.
Qed.

Lemma Validate_nil (g : gitWorld) (repoPath : string) (files : list string) :
  fst (Validate g repoPath files) = isNil (snd (Validate g repoPath files)).
Proof.
  unfold Validate. cbn [fst snd].
  apply consistent_checkRequired, consistent_fold_checkFile. reflexivity.
Qed.

End PerFile.

(** X18.  [Validate] judges every changed file by itself: the violations it
    returns are those of the first file, then those of the second, and so
    on, followed by those for the required files missing from the index;
    and it accepts a commit exactly when every changed file is without
    violation on its own and the required files are in the index. *)
Theorem Validate_is_per_file (g : gitWorld) (repoPath : string) (files : list string) :
  snd (Validator.Validate g repoPath files)
  = flat_map fileViolations files ++ requiredViolations g repoPath
  /\ fst (Validator.Validate g repoPath files)
     = forallb (fun f => isNil (fileViolations f)) files
       && forallb (Gitutil.CheckFileExists g repoPath) Validator.requiredRootFiles.
Proof.
  split; [apply Validate_violations|].
  rewrite Validate_verdict, isValid_pathChecks. reflexivity.
Qed.

(** X19.  A changed path with a space in it makes the commit invalid,
    wherever the path is and whatever else the commit changes, and the
    violation is reported. *)
Theorem path_with_space_is_rejected (g : gitWorld) (repoPath : string)
  (files : list string) (file : string) :
  In file files -> Strings.Contains file " " = true ->
  fst (Validator.Validate g repoPath files) = false
  /\ In (spaceViolation file) (snd (Validator.Validate g repoPath files)).
Proof.
  intros Hin Hsp.
  assert (Hv : In (spaceViolation file) (fileViolations file)).
  { unfold fileViolations, Validator.checkFile. rewrite Hsp.
    assert (H0 : In (spaceViolation file)
                   (Validator.errors
                      (Validator.errorIf true ("Path contains spaces: '" ++ file ++ "'")
                         {| Validator.errors := []; Validator.isValid := true |})))
      by (left; reflexivity).
    revert H0. generalize (Validator.errorIf true ("Path contains spaces: '" ++ file ++ "'")
                         {| Validator.errors := []; Validator.isValid := true |}).
    intros st0 H0.
    destruct (String.eqb _ "."); [now apply errors_errorIf_mono|].
    destruct (Strings.HasPrefix _ "src/").
    - destruct (Nat.ltb 1 _ && String.eqb _ "projects");
        [|now apply errors_errorIf_mono].
      rewrite checkProjectsPath_additive. apply in_or_app. left.
      now apply errors_errorIf_mono.
    - cbn [negb]. rewrite errors_addError. apply in_or_app. now left. }
  assert (Hall : In (spaceViolation file) (snd (Validator.Validate g repoPath files))).
  { rewrite Validate_violations. apply in_or_app. left.
    apply in_flat_map. exists file. now split. }
  split; [|exact Hall].
  rewrite Validate_nil.
  destruct (snd (Validator.Validate g repoPath files)); [destruct Hall | reflexivity].
Qed.

Section DeadChecks.

Import Strings Validator.

Lemma Split_no_sep (sep : ascii) (s : string) :
  Forall (fun e => hasByte sep e = false) (Split s sep).
Proof.
  induction s as [|a s IH]; cbn [Split].
  - now repeat constructor.
  - destruct (Ascii.eqb a sep) eqn:E.
    + constructor; [reflexivity | exact IH].
    + destruct (Split s sep) as [|h t].
      * constructor; [|constructor]. cbn. now rewrite E.
      * inversion IH; subst. constructor; [|assumption]. cbn. now rewrite E.
Qed.

Lemma HasPrefix_elem (sep : ascii) (tail : string) :
  (tail = EmptyString \/ exists r, tail = String sep r) ->
  forall q p : string,
    hasByte sep p = false -> hasByte sep q = false ->
    HasPrefix (p ++ tail) (q ++ str1 sep) = true -> p = q.
Proof.
  intros Htail. induction q as [|b q IH]; intros [|a p] Hp Hq H; cbn in *.
  - reflexivity.
  - apply andb_prop in H. destruct H as [H _].
    apply orb_false_elim in Hp. destruct Hp as [Hp _]. congruence.
  - apply orb_false_elim in Hq. destruct Hq as [Hq _].
    destruct Htail as [->|[r ->]]; [discriminate|].
    apply andb_prop in H. destruct H as [H _].
    rewrite Ascii.eqb_sym in H. congruence.
  - apply andb_prop in H. destruct H as [H1 H2]. apply Ascii.eqb_eq in H1. subst b.
    apply orb_false_elim in Hp. apply orb_false_elim in Hq.
    f_equal. apply IH; tauto.
Qed.

(** The element after which the joined path goes on is [exports]. *)
Lemma exports_element (parts : list string) :
  Forall (fun e => hasByte slash e = false) parts ->
  HasPrefix (Join (skipn 3 parts) "/") "exports/" = true ->
  nth 3 parts EmptyString = "exports".
Proof.
  intros Hall H.
  destruct parts as [|p0 [|p1 [|p2 [|p3 rest]]]]; try discriminate H.
  cbn [skipn nth] in *.
  assert (H3 : hasByte slash p3 = false).
  { inversion Hall as [|? ? _ H1]; subst. inversion H1 as [|? ? _ H2]; subst.
    inversion H2 as [|? ? _ H4]; subst. now inversion H4. }
  destruct rest as [|p4 rest].
  - cbn [Join] in H. rewrite <- (append_empty_r p3) in H.
    apply (HasPrefix_elem slash EmptyString (or_introl eq_refl) "exports" p3 H3 eq_refl H).
  - change (Join (p3 :: p4 :: rest) "/") with (p3 ++ "/" ++ Join (p4 :: rest) "/")%string in H.
    apply (HasPrefix_elem slash ("/" ++ Join (p4 :: rest) "/")
             (or_intror (ex_intro _ _ eq_refl)) "exports" p3 H3 eq_refl H).
Qed.

Lemma HasPrefix_append (s p : string) :
  HasPrefix s p = true -> s = (p ++ drop (String.length p) s)%string.
Proof.
  revert s. induction p as [|b p IH]; intros s H; [reflexivity|].
  destruct s as [|a s]; [discriminate|]. cbn in H.
  apply andb_prop in H. destruct H as [H1 H2]. apply Ascii.eqb_eq in H1. subst b.
  cbn. f_equal. now apply IH.
Qed.

Lemma src_element (filePath : string) :
  HasPrefix filePath "src/" = true -> nth 0 (Split filePath slash) EmptyString = "src".
Proof.
  intros H. rewrite (HasPrefix_append _ _ H).
  generalize (drop (String.length "src/") filePath). intros r.
  cbn. reflexivity.
Qed.

Lemma notCase_errorIf (c : bool) (m : string) (st : vstate) :
  (c = true -> notCase m) -> Forall notCase (errors st) ->
  Forall notCase (errors (errorIf c m st)).
Proof.
  intros Hm Hst. destruct c; [|exact Hst].
  cbn. apply Forall_app. split; [exact Hst | constructor; [now apply Hm | constructor]].
Qed.

Lemma notCase_addError (m : string) (st : vstate) :
  notCase m -> Forall notCase (errors st) -> Forall notCase (errors (addError m st)).
Proof.
  intros Hm Hst. cbn. apply Forall_app. split; [exact Hst | now repeat constructor].
Qed.

Ltac not_case :=
  repeat first
    [ assumption
    | apply notCase_addError; [reflexivity|]
    | apply notCase_errorIf; [intros _; reflexivity|] ].

Lemma notCase_checkProjectFile file folder parts st :
  Forall notCase (errors st) ->
  Forall notCase (errors (checkProjectFile file folder parts st)).
Proof. intros H. unfold checkProjectFile. not_case. Qed.

Lemma notCase_checkExportFile file folder parts st :
  nth 3 parts EmptyString = "exports" ->
  Forall notCase (errors st) ->
  Forall notCase (errors (checkExportFile file folder parts st)).
Proof.
  intros H3 H. unfold checkExportFile. rewrite H3. cbn [String.eqb Ascii.eqb Bool.eqb negb errorIf].
  destruct (Nat.ltb 4 (List.length parts)); [|exact H].
  destruct (exportNameSubmatch _) as [[exportBase exportStatus]|]; not_case.
Qed.

Lemma notCase_checkProjectsPath file parts st :
  Forall (fun e => hasByte slash e = false) parts ->
  Forall notCase (errors st) ->
  Forall notCase (errors (checkProjectsPath file parts st)).
Proof.
  intros Hp H. unfold checkProjectsPath.
  destruct (Nat.ltb 2 (List.length parts)); [|not_case].
  destruct (negb (Regexp.MatchString projectFolderRegex _)); [not_case|].
  destruct (String.eqb _ EmptyString); [exact H|].
  destruct (negb (Contains _ "/")); [now apply notCase_checkProjectFile|].
  destruct (HasPrefix _ "exports/") eqn:E; [|not_case].
  apply notCase_checkExportFile; [now apply exports_element | exact H].
Qed.

Lemma notCase_checkFile file st :
  Forall notCase (errors st) -> Forall notCase (errors (checkFile file st)).
Proof.
  intros H. unfold checkFile.
  destruct (String.eqb _ "."); [not_case|].
  destruct (HasPrefix _ "src/") eqn:E; [|cbn [negb]; not_case].
  rewrite (src_element _ E). cbn [String.eqb Ascii.eqb Bool.eqb negb].
  cbn [errorIf].
  destruct (Nat.ltb 1 _ && String.eqb _ "projects"); [|not_case].
  apply notCase_checkProjectsPath; [apply Split_no_sep | not_case].
Qed.

Lemma notCase_fold_checkFile (files : list string) :
  forall st,
    Forall notCase (errors st) ->
    Forall notCase (errors (fold_left (fun st file => checkFile file st) files st)).
Proof.
  induction files as [|f files IH]; intros st Hst; cbn [fold_left]; [exact Hst|].
  apply IH. now apply notCase_checkFile.
Qed.

Lemma notCase_Validate (g : gitWorld) (repoPath : string) (files : list string) :
  Forall notCase (snd (Validate g repoPath files)).
Proof.
  unfold Validate. cbn [snd]. unfold checkRequired. cbn [fold_left requiredRootFiles].
  not_case. apply notCase_fold_checkFile. constructor.
Qed.

End DeadChecks.

(** X20.  [Validate] never reports that the [src] or the [exports]
    directory component must be lowercase: the two checks are made where the
    path starts with [src/], and where the path inside the project folder
    starts with [exports/], and there the component is what it must be.  A
    path such as [SRC/x] is reported as an unexpected top-level path. *)
Theorem case_violations_are_never_reported (g : gitWorld) (repoPath : string)
  (files : list string) (m : string) :
  In m (snd (Validator.Validate g repoPath files)) -> isCaseViolation m = false.
Proof.
  intros H. pose proof (notCase_Validate g repoPath files) as Hall.
  rewrite Forall_forall in Hall. now apply Hall.
Qed.

Section RootFiles.

Import Strings Validator.

Lemma throughLastSlash_none (s : string) :
  hasByte slash s = false -> Filepath.throughLastSlash s = EmptyString.
Proof.
  induction s as [|a s IH]; intros H; [reflexivity|].
  cbn in H. apply orb_false_elim in H. destruct H as [Ha Hs].
  cbn [Filepath.throughLastSlash]. rewrite (IH Hs), Ha. reflexivity.
Qed.

Lemma afterLastSlash_none (s : string) :
  hasByte slash s = false -> Filepath.afterLastSlash s = s.
Proof.
  destruct s as [|a s]; intros H; [reflexivity|].
  cbn in H. apply orb_false_elim in H. destruct H as [Ha Hs].
  cbn [Filepath.afterLastSlash]. now rewrite Hs, Ha.
Qed.

Lemma trimRightByte_none (c : ascii) (s : string) :
  hasByte c s = false -> trimRightByte c s = s.
Proof.
  induction s as [|a s IH]; intros H; [reflexivity|].
  cbn in H. apply orb_false_elim in H. destruct H as [Ha Hs].
  cbn [trimRightByte]. rewrite (IH Hs), Ha, andb_false_r. reflexivity.
Qed.

Lemma Dir_none (s : string) : hasByte slash s = false -> Filepath.Dir s = ".".
Proof. intros H. unfold Filepath.Dir. now rewrite throughLastSlash_none. Qed.

Lemma Base_none (s : string) :
  hasByte slash s = false -> s <> EmptyString -> Filepath.Base s = s.
Proof.
  intros H Hne. destruct s as [|a s]; [congruence|].
  unfold Filepath.Base. rewrite trimRightByte_none, afterLastSlash_none by exact H.
  reflexivity.
Qed.

Lemma Contains_byte (c : ascii) (s : string) : Contains s (str1 c) = hasByte c s.
Proof.
  induction s as [|a s IH]; [reflexivity|].
  cbn [Contains hasByte HasPrefix str1]. now rewrite IH, andb_true_r.
Qed.

Lemma allowedRootFiles_plain (s : string) :
  allowedRootFiles s = true -> hasByte space s = false /\ s <> EmptyString.
Proof.
  unfold allowedRootFiles. cbn [existsb]. rewrite orb_false_r.
  intros H. apply orb_prop in H. destruct H as [H|H];
    [|apply orb_prop in H; destruct H as [H|H]];
    apply String.eqb_eq in H; subst s; split; (reflexivity || discriminate).
Qed.

Lemma root_file_violations (file : string) :
  hasByte slash file = false ->
  isNil (fileViolations file) = allowedRootFiles file.
Proof.
  intros Hs. unfold fileViolations, checkFile, Filepath.ToSlash.
  rewrite (Dir_none file Hs). cbn [String.eqb Ascii.eqb Bool.eqb].
  rewrite !errors_errorIf. cbn [errors app].
  change " " with (str1 space). rewrite Contains_byte.
  destruct (allowedRootFiles file) eqn:Ha.
  - destruct (allowedRootFiles_plain file Ha) as [Hsp Hne].
    rewrite Hsp, (Base_none file Hs Hne), Ha. reflexivity.
  - destruct (hasByte space file); [reflexivity|]. cbn [app].
    destruct file as [|a file]; [reflexivity|].
    rewrite (Base_none _ Hs) by discriminate. now rewrite Ha.
Qed.

End RootFiles.

(** X21.  A changed path without a slash, a file at the root of the
    repository, is without violation exactly when it is [README.md],
    [.gitignore] or [config.toml]. *)
Theorem root_file_accepted_iff_allowed (file : string) :
  Strings.hasByte slash file = false ->
  (fileViolations file = [] <-> In file ["README.md"; ".gitignore"; "config.toml"]).
Proof.
  intros Hs. pose proof (root_file_violations file Hs) as H.
  unfold Validator.allowedRootFiles in H. split.
  - intros Hnil. rewrite Hnil in H. cbn [isNil] in H. symmetry in H.
    apply existsb_exists in H. destruct H as (x & Hx & He).
    apply String.eqb_eq in He. now subst x.
  - intros Hin. destruct (fileViolations file); [reflexivity|].
    cbn [isNil] in H. symmetry in H.
    assert (Ht : existsb (String.eqb file) ["README.md"; ".gitignore"; "config.toml"] = true).
    { apply existsb_exists. exists file. split; [exact Hin | apply String.eqb_refl]. }
    congruence.
Qed.

Section NameFacts.

Import Strings Regexp Validator.

Lemma allAscii_complete (c : ascii) : In c allAscii.
Proof.
  unfold allAscii. rewrite <- (ascii_nat_embedding c).
  apply in_map, in_seq. pose proof (nat_ascii_bounded c). lia.
Qed.

Lemma forallBytes_app (f : ascii -> bool) (a b : string) :
  forallBytes f (a ++ b) = forallBytes f a && forallBytes f b.
Proof.
  induction a as [|c a IH]; cbn [append forallBytes]; [reflexivity|].
  now rewrite IH, andb_assoc.
Qed.

Lemma lang_within (P : ascii -> bool) (r : re) (s : string) :
  lang r s -> reWithin P r = true -> forallBytes P s = true.
Proof.
  induction 1 as [ | neg ranges c Hc | r1 r2 s1 s2 _ IH1 _ IH2 | r1 r2 s _ IH
                   | r1 r2 s _ IH | r | r s1 s2 _ IH1 _ IH2 ];
    cbn [reWithin]; intros Hw.
  - reflexivity.
  - cbn [forallBytes str1]. rewrite andb_true_r.
    rewrite forallb_forall in Hw. specialize (Hw c (allAscii_complete c)).
    rewrite Hc in Hw. exact Hw.
  - apply andb_prop in Hw. rewrite forallBytes_app, IH1, IH2; tauto.
  - apply andb_prop in Hw. apply IH. tauto.
  - apply andb_prop in Hw. apply IH. tauto.
  - reflexivity.
  - rewrite forallBytes_app, IH1, IH2; auto.
Qed.

Lemma forallBytes_impl (P Q : ascii -> bool) (s : string) :
  (forall c, P c = true -> Q c = true) ->
  forallBytes P s = true -> forallBytes Q s = true.
Proof.
  intros HPQ. induction s as [|c s IH]; cbn [forallBytes]; [reflexivity|].
  intros H. apply andb_prop in H. destruct H as [H1 H2].
  now rewrite (HPQ c H1), IH.
Qed.

Lemma isNameByte_plain (c : ascii) : isNameByte c = true -> isPlainByte c = true.
Proof.
  intros H. pose proof (allAscii_complete c) as Hin.
  assert (Hall : forallb (fun c => implb (isNameByte c) (isPlainByte c)) allAscii = true)
    by (vm_compute; reflexivity).
  rewrite forallb_forall in Hall. specialize (Hall c Hin). now rewrite H in Hall.
Qed.

(** The names of the project folders are made of name bytes. *)
Lemma projectFolder_bytes (folder : string) :
  MatchString projectFolderRegex folder = true ->
  forallBytes isNameByte folder = true.
Proof.
  unfold MatchString. intros H. apply matches_lang in H.
  apply (lang_within isNameByte _ _ H). vm_compute. reflexivity.
Qed.

Lemma projectFolder_plain (folder : string) :
  MatchString projectFolderRegex folder = true ->
  forallBytes isPlainByte folder = true.
Proof.
  intros H. apply (forallBytes_impl isNameByte); [apply isNameByte_plain|].
  now apply projectFolder_bytes.
Qed.

Lemma forallBytes_hasByte (P : ascii -> bool) (c : ascii) (s : string) :
  forallBytes P s = true -> P c = false -> hasByte c s = false.
Proof.
  intros Hs Hc. induction s as [|a s IH]; [reflexivity|].
  cbn [forallBytes] in Hs. apply andb_prop in Hs. destruct Hs as [Ha Hs].
  cbn [hasByte]. rewrite (IH Hs), orb_false_r.
  destruct (Ascii.eqb a c) eqn:E; [|reflexivity].
  apply Ascii.eqb_eq in E. congruence.
Qed.

End NameFacts.

Section PathFacts.

Import Strings Regexp Validator.

Lemma Split_none (sep : ascii) (q : string) :
  hasByte sep q = false -> Split q sep = [q].
Proof.
  induction q as [|a q IH]; intros H; [reflexivity|].
  cbn in H. apply orb_false_elim in H. destruct H as [Ha Hq].
  cbn [Split]. now rewrite Ha, (IH Hq).
Qed.

Lemma Split_app_sep (sep : ascii) (q r : string) :
  hasByte sep q = false -> Split (q ++ String sep r) sep = q :: Split r sep.
Proof.
  induction q as [|a q IH]; intros H; cbn [append Split].
  - now rewrite Ascii.eqb_refl.
  - cbn in H. apply orb_false_elim in H. destruct H as [Ha Hq].
    now rewrite Ha, (IH Hq).
Qed.

Lemma Split_project (folder tail : string) :
  hasByte slash folder = false ->
  Split ("src/projects/" ++ folder ++ "/" ++ tail) slash
  = "src" :: "projects" :: folder :: Split tail slash.
Proof.
  intros H.
  change ("src/projects/" ++ folder ++ "/" ++ tail)%string
    with ("src" ++ String slash ("projects" ++ String slash (folder ++ String slash tail)))%string.
  rewrite !Split_app_sep by (reflexivity || exact H). reflexivity.
Qed.

Lemma throughLastSlash_app (p name : string) :
  hasByte slash name = false ->
  Filepath.throughLastSlash (p ++ String slash name) = (p ++ "/")%string.
Proof.
  intros H. induction p as [|a p IH]; cbn [append Filepath.throughLastSlash].
  - rewrite (throughLastSlash_none name H). unfold slash. cbn. reflexivity.
  - rewrite IH. rewrite isEmpty_app_String. reflexivity.
Qed.

End PathFacts.

Section ProjectPaths.

Import Strings Regexp Validator.

Variable folder : string.
Hypothesis Hfolder : MatchString projectFolderRegex folder = true.

Lemma folder_no_slash : hasByte slash folder = false.
Proof. apply (forallBytes_hasByte isPlainByte); [now apply projectFolder_plain | reflexivity]. Qed.

Lemma folder_no_space : hasByte space folder = false.
Proof. apply (forallBytes_hasByte isPlainByte); [now apply projectFolder_plain | reflexivity]. Qed.

Lemma folder_no_newline : hasByte nl folder = false.
Proof. apply (forallBytes_hasByte isPlainByte); [now apply projectFolder_plain | reflexivity]. Qed.

Lemma folder_not_special :
  isEmpty folder = false /\ String.eqb folder "." = false /\ String.eqb folder ".." = false.
Proof.
  repeat split.
  - destruct folder; [discriminate Hfolder | reflexivity].
  - destruct (String.eqb folder ".") eqn:E; [|reflexivity].
    apply String.eqb_eq in E. rewrite E in Hfolder. discriminate Hfolder.
  - destruct (String.eqb folder "..") eqn:E; [|reflexivity].
    apply String.eqb_eq in E. rewrite E in Hfolder. discriminate Hfolder.
Qed.

Lemma Clean_cons (c : ascii) (s : string) :
  Filepath.Clean (String c s)
  = let rooted := Ascii.eqb c slash in
    let out := Filepath.cleanElems rooted (Split (String c s) slash) [] in
    let r := ((if rooted then "/" else EmptyString) ++ Join out "/")%string in
    if isEmpty r then "." else r.
Proof. reflexivity. Qed.

(** The directory of a path that goes into the project folder. *)
Lemma Dir_in_project (name : string) :
  hasByte slash name = false ->
  Filepath.Dir ("src/projects/" ++ folder ++ "/" ++ name)
  = ("src/projects/" ++ folder)%string.
Proof.
  intros Hn. unfold Filepath.Dir.
  change ("src/projects/" ++ folder ++ "/" ++ name)%string
    with (("src/projects/" ++ folder) ++ String slash name)%string.
  rewrite (throughLastSlash_app _ name Hn).
  change (("src/projects/" ++ folder) ++ "/")%string
    with (String "s" ("rc/projects/" ++ folder ++ "/")).
  rewrite Clean_cons.
  change (String "s" ("rc/projects/" ++ folder ++ "/"))
    with ("src/projects/" ++ folder ++ "/" ++ EmptyString)%string.
  rewrite (Split_project folder EmptyString folder_no_slash).
  destruct folder_not_special as (H1 & H2 & H3).
  cbv zeta. cbn [Split Filepath.cleanElems isEmpty String.eqb Ascii.eqb Bool.eqb orb].
  rewrite H1, H2, H3. cbn [orb rev app Join append isEmpty]. reflexivity.
Qed.

Lemma Dir_in_exports (name : string) :
  hasByte slash name = false ->
  Filepath.Dir ("src/projects/" ++ folder ++ "/exports/" ++ name)
  = ("src/projects/" ++ folder ++ "/exports")%string.
Proof.
  intros Hn. unfold Filepath.Dir.
  replace ("src/projects/" ++ folder ++ "/exports/" ++ name)%string
    with (("src/projects/" ++ folder ++ "/exports") ++ String slash name)%string
    by (rewrite !append_assoc; reflexivity).
  rewrite (throughLastSlash_app _ name Hn).
  replace (("src/projects/" ++ folder ++ "/exports") ++ "/")%string
    with (String "s" ("rc/projects/" ++ folder ++ "/exports/"))
    by (rewrite !append_assoc; reflexivity).
  rewrite Clean_cons.
  change (String "s" ("rc/projects/" ++ folder ++ "/exports/"))
    with ("src/projects/" ++ folder ++ "/" ++ "exports/")%string.
  rewrite (Split_project folder "exports/" folder_no_slash).
  destruct folder_not_special as (H1 & H2 & H3).
  cbv zeta. cbn [Split Filepath.cleanElems isEmpty String.eqb Ascii.eqb Bool.eqb orb
                 slash].
  rewrite H1, H2, H3. cbn [orb rev app Join append isEmpty]. reflexivity.
Qed.

End ProjectPaths.

Section NamedFiles.

Import Strings Regexp Validator.

Lemma Ext_none (e : string) :
  hasByte dot e = false -> hasByte slash e = false -> Filepath.Ext e = EmptyString.
Proof.
  induction e as [|a e IH]; intros Hd Hs; [reflexivity|].
  cbn in Hd, Hs. apply orb_false_elim in Hd. apply orb_false_elim in Hs.
  destruct Hd as [Hd1 Hd2]. destruct Hs as [Hs1 Hs2].
  cbn [Filepath.Ext]. rewrite Hs1, Hs2, (IH Hd2 Hs2), Hd1. reflexivity.
Qed.

Lemma Ext_app (f e : string) :
  hasByte slash f = false -> hasByte slash e = false -> hasByte dot e = false ->
  Filepath.Ext (f ++ String dot e) = String dot e.
Proof.
  intros Hf Hs Hd. induction f as [|a f IH]; cbn [append Filepath.Ext].
  - rewrite Hs, (Ext_none e Hd Hs). cbn. reflexivity.
  - cbn in Hf. apply orb_false_elim in Hf. destruct Hf as [Ha Hf].
    rewrite hasByte_app, Hf. cbn [hasByte]. rewrite Hs, Ha. cbn [orb].
    rewrite (IH Hf). reflexivity.
Qed.

Lemma drop_app (a b : string) : drop (String.length a) (a ++ b) = b.
Proof. induction a as [|c a IH]; [apply drop_0 | exact IH]. Qed.

Lemma take_app (a b : string) : take (String.length a) (a ++ b) = a.
Proof.
  induction a as [|c a IH]; cbn [String.length take append].
  - destruct b; reflexivity.
  - now rewrite IH.
Qed.

Lemma TrimSuffix_app (a b : string) : TrimSuffix (a ++ b) b = a.
Proof.
  unfold TrimSuffix, HasSuffix. rewrite length_append.
  replace (String.length a + String.length b - String.length b) with (String.length a) by lia.
  rewrite drop_app, String.eqb_refl, take_app.
  destruct (Nat.leb_spec (String.length b) (String.length a + String.length b));
    [reflexivity | lia].
Qed.

(** [ToLower] goes byte by byte over plain bytes. *)
Lemma ToLower_plain (a : ascii) (s : string) :
  isPlainByte a = true -> ToLower (String a s) = String (lowerByte a) (ToLower s).
Proof.
  intros H. unfold isPlainByte in H. apply andb_prop in H. destruct H as [_ H].
  apply Nat.ltb_lt in H.
  assert (H1 : isByte 196 a = false) by (unfold isByte; apply Nat.eqb_neq; lia).
  assert (H2 : isByte 226 a = false) by (unfold isByte; apply Nat.eqb_neq; lia).
  destruct s as [|b [|c s]]; cbn [ToLower]; rewrite ?H1, ?H2; reflexivity.
Qed.

Lemma ToLower_app (s t : string) :
  forallBytes isPlainByte s = true ->
  exists x, ToLower (s ++ t) = (x ++ ToLower t)%string.
Proof.
  induction s as [|a s IH]; intros H.
  - exists EmptyString. reflexivity.
  - cbn [forallBytes] in H. apply andb_prop in H. destruct H as [Ha Hs].
    destruct (IH Hs) as [x Hx]. exists (String (lowerByte a) x).
    change (String a s ++ t)%string with (String a (s ++ t)).
    rewrite (ToLower_plain a _ Ha), Hx. reflexivity.
Qed.

Lemma lang_anything (s : string) : lang (Star anyByte) s.
Proof. apply lang_Star_Cls. induction s as [|c s IH]; [reflexivity | exact IH]. Qed.

(** A pattern that is not anchored at its start matches a text as soon as
    it matches the end of it. *)
Lemma MatchString_suffix (p : Regexp) (x y : string) :
  anchoredStart p = false -> MatchString p y = true -> MatchString p (x ++ y) = true.
Proof.
  unfold MatchString. intros Ha H. rewrite Ha in *.
  apply matches_lang. apply matches_lang in H.
  apply lang_Cat in H as (y1 & y2 & -> & H1 & H2).
  apply lang_Cat. exists (x ++ y1)%string, y2.
  split; [now rewrite append_assoc|]. split; [apply lang_anything | exact H2].
Qed.

Variable folder : string.
Hypothesis Hfolder : MatchString projectFolderRegex folder = true.

(** A file directly in the project folder is checked as a project file. *)
Lemma projectFile_violations (name : string) :
  hasByte slash name = false -> hasByte space name = false -> name <> EmptyString ->
  fileViolations ("src/projects/" ++ folder ++ "/" ++ name)
  = errors (checkProjectFile ("src/projects/" ++ folder ++ "/" ++ name) folder
              ["src"; "projects"; folder; name]
              {| errors := []; isValid := true |}).
Proof.
  intros Hs Hsp Hne. unfold fileViolations, checkFile, Filepath.ToSlash.
  change " " with (str1 space). rewrite Contains_byte.
  rewrite !hasByte_app, (folder_no_space folder Hfolder), Hsp.
  cbn [hasByte orb Ascii.eqb Bool.eqb space errorIf].
  rewrite (Dir_in_project folder Hfolder name Hs).
  cbn [append String.eqb Ascii.eqb Bool.eqb].
  change (String "s" (String "r" (String "c" (String "/" (String "p" (String "r"
           (String "o" (String "j" (String "e" (String "c" (String "t" (String "s"
           (String "/" (folder ++ String "/" name))))))))))))))
    with ("src/projects/" ++ folder ++ "/" ++ name)%string.
  assert (Hp : HasPrefix ("src/projects/" ++ folder ++ "/" ++ name) "src/" = true)
    by reflexivity.
  rewrite Hp, (Split_project folder name (folder_no_slash folder Hfolder)),
    (Split_none slash name Hs).
  cbn [nth String.eqb Ascii.eqb Bool.eqb negb errorIf List.length Nat.ltb Nat.leb andb].
  unfold checkProjectsPath.
  cbn [nth List.length Nat.ltb Nat.leb skipn Join].
  rewrite Hfolder. cbn [negb].
  destruct name as [|a name]; [congruence|]. cbn [String.eqb].
  change "/" with (str1 slash). rewrite Contains_byte, Hs. reflexivity.
Qed.

(** A file in the [exports] directory of the project folder is checked as
    an export. *)
Lemma exportFile_violations (name : string) :
  hasByte slash name = false -> hasByte space name = false -> name <> EmptyString ->
  fileViolations ("src/projects/" ++ folder ++ "/exports/" ++ name)
  = errors (checkExportFile ("src/projects/" ++ folder ++ "/exports/" ++ name) folder
              ["src"; "projects"; folder; "exports"; name]
              {| errors := []; isValid := true |}).
Proof.
  intros Hs Hsp Hne. unfold fileViolations, checkFile, Filepath.ToSlash.
  change " " with (str1 space). rewrite Contains_byte.
  rewrite !hasByte_app, (folder_no_space folder Hfolder), Hsp.
  cbn [hasByte orb Ascii.eqb Bool.eqb space errorIf].
  rewrite (Dir_in_exports folder Hfolder name Hs).
  cbn [append String.eqb Ascii.eqb Bool.eqb].
  change (String "s" (String "r" (String "c" (String "/" (String "p" (String "r"
           (String "o" (String "j" (String "e" (String "c" (String "t" (String "s"
           (String "/" (folder ++ String "/" (String "e" (String "x" (String "p"
           (String "o" (String "r" (String "t" (String "s" (String "/" name
           ))))))))))))))))))))))
    with ("src/projects/" ++ folder ++ "/" ++ ("exports" ++ String slash name))%string.
  assert (Hp : HasPrefix ("src/projects/" ++ folder ++ "/" ++ ("exports" ++ String slash name))
                 "src/" = true) by reflexivity.
  rewrite Hp, (Split_project folder _ (folder_no_slash folder Hfolder)),
    (Split_app_sep slash "exports" name eq_refl), (Split_none slash name Hs).
  cbn [nth String.eqb Ascii.eqb Bool.eqb negb errorIf List.length Nat.ltb Nat.leb andb].
  unfold checkProjectsPath.
  cbn [nth List.length Nat.ltb Nat.leb skipn].
  rewrite Hfolder. cbn [negb Join append String.eqb Contains HasPrefix Ascii.eqb Bool.eqb
                        andb orb].
  reflexivity.
Qed.

End NamedFiles.

Section AcceptedNames.

Import Strings Regexp Validator.

Lemma projectExtension_facts (ext : string) :
  In ext projectExtensions ->
  hasByte slash ext = false /\ hasByte dot ext = false /\ hasByte space ext = false
  /\ MatchString projectExtRegex (ToLower (String dot ext)) = true.
Proof.
  intros H. repeat (destruct H as [<-|H]; [repeat split; vm_compute; reflexivity|]).
  destruct H.
Qed.

Lemma exportExtension_facts (ext : string) :
  In ext exportExtensions ->
  hasByte slash ext = false /\ hasByte dot ext = false /\ hasByte space ext = false
  /\ MatchString exportExtRegex (ToLower (String dot ext)) = true.
Proof.
  intros H. repeat (destruct H as [<-|H]; [repeat split; vm_compute; reflexivity|]).
  destruct H.
Qed.

Lemma exportStatus_facts (status : string) :
  In status exportStatuses ->
  forallBytes isPlainByte status = true /\ hasByte dash status = false
  /\ isEmpty status = false
  /\ MatchString exportStatusRegex status = true.
Proof.
  intros H. repeat (destruct H as [<-|H]; [repeat split; vm_compute; reflexivity|]).
  destruct H.
Qed.

Lemma plain_no_slash (s : string) :
  forallBytes isPlainByte s = true -> hasByte slash s = false.
Proof. intros H. now apply (forallBytes_hasByte isPlainByte). Qed.

Lemma plain_no_space (s : string) :
  forallBytes isPlainByte s = true -> hasByte space s = false.
Proof. intros H. now apply (forallBytes_hasByte isPlainByte). Qed.

(** A name made of plain bytes, a dot and an extension. *)
Lemma named_file (stem ext : string) (p : Regexp) :
  forallBytes isPlainByte stem = true ->
  hasByte slash ext = false -> hasByte dot ext = false -> hasByte space ext = false ->
  anchoredStart p = false ->
  MatchString p (ToLower (String dot ext)) = true ->
  let name := (stem ++ String dot ext)%string in
  hasByte slash name = false /\ hasByte space name = false /\ name <> EmptyString
  /\ TrimSuffix name (Filepath.Ext name) = stem
  /\ MatchString p (ToLower name) = true.
Proof.
  intros Hstem Hs Hd Hsp Ha Hm name. subst name.
  pose proof (plain_no_slash stem Hstem) as Hss.
  pose proof (plain_no_space stem Hstem) as Hssp.
  repeat split.
  - rewrite hasByte_app, Hss. cbn [hasByte orb]. now rewrite Hs.
  - rewrite hasByte_app, Hssp. cbn [hasByte orb]. now rewrite Hsp.
  - destruct stem; discriminate.
  - rewrite (Ext_app stem ext Hss Hs Hd). apply TrimSuffix_app.
  - destruct (ToLower_app stem (String dot ext) Hstem) as [x ->].
    now apply MatchString_suffix.
Qed.

End AcceptedNames.

(** X22.  The project file of a project is accepted: for every folder name
    of the form the policy asks for and every project extension, the file
    named after the folder, directly in the folder, is without
    violation. *)
Theorem well_named_project_file_is_accepted (folder ext : string) :
  Regexp.MatchString Validator.projectFolderRegex folder = true ->
  In ext projectExtensions ->
  fileViolations (projectFilePath folder ext) = [].
Proof.
  intros Hf He.
  destruct (projectExtension_facts ext He) as (Hs & Hd & Hsp & Hm).
  destruct (named_file folder ext Validator.projectExtRegex
              (projectFolder_plain folder Hf) Hs Hd Hsp eq_refl Hm)
    as (N1 & N2 & N3 & N4 & N5).
  unfold projectFilePath.
  change (folder ++ "." ++ ext)%string with (folder ++ String dot ext)%string.
  rewrite (projectFile_violations folder Hf _ N1 N2 N3).
  unfold Validator.checkProjectFile. cbn [nth List.length Nat.sub].
  rewrite N4, N5, String.eqb_refl. reflexivity.
Qed.

(** X23.  An export of a project is accepted: for every folder name of the
    form the policy asks for, every status and every export extension, the
    file [folder-status.ext] in the [exports] directory of the folder is
    without violation. *)
Theorem well_named_export_is_accepted (folder status ext : string) :
  Regexp.MatchString Validator.projectFolderRegex folder = true ->
  In status exportStatuses ->
  In ext exportExtensions ->
  fileViolations (exportFilePath folder status ext) = [].
Proof.
  intros Hf Hst He.
  destruct (exportExtension_facts ext He) as (Hs & Hd & Hsp & Hm).
  destruct (exportStatus_facts status Hst) as (S1 & S2 & S3 & S4).
  assert (Hstem : forallBytes isPlainByte (folder ++ String dash status) = true).
  { rewrite forallBytes_app, (projectFolder_plain folder Hf). cbn [forallBytes andb].
    rewrite S1. reflexivity. }
  destruct (named_file (folder ++ String dash status) ext Validator.exportExtRegex
              Hstem Hs Hd Hsp eq_refl Hm)
    as (N1 & N2 & N3 & N4 & N5).
  unfold exportFilePath.
  replace (folder ++ "-" ++ status ++ "." ++ ext)%string
    with ((folder ++ String dash status) ++ String dot ext)%string
    by (rewrite append_assoc; reflexivity).
  rewrite (exportFile_violations folder Hf _ N1 N2 N3).
  unfold Validator.checkExportFile.
  cbn [nth List.length Nat.sub Nat.ltb Nat.leb String.eqb Ascii.eqb Bool.eqb negb
       Validator.errorIf].
  rewrite N4, N5.
  unfold Validator.exportNameSubmatch.
  rewrite (cutLast_app dash folder status S2), (folder_no_newline folder Hf), S3.
  cbn [orb]. rewrite String.eqb_refl, S4. reflexivity.
Qed.

(* ================================================================== *)
(** ** What the repository plumbing returns *)

Section TrimFacts.

Import Strings Gitutil.

Lemma HasSuffix_cons_inv (a : ascii) (t w : string) :
  HasSuffix (String a t) w = true -> HasSuffix t w = true \/ w = String a t.
Proof.
  unfold HasSuffix. cbn [String.length]. intros H.
  apply andb_prop in H. destruct H as [Hl He]. apply Nat.leb_le in Hl.
  destruct (Nat.eq_dec (String.length w) (S (String.length t))) as [E|E].
  - right. rewrite E, Nat.sub_diag in He. cbn [drop] in He.
    apply String.eqb_eq in He. now symmetry.
  - left. assert (Hl' : String.length w <= String.length t) by lia.
    replace (S (String.length t) - String.length w)
      with (S (String.length t - String.length w)) in He by lia.
    cbn [drop] in He. rewrite He, andb_true_r. now apply Nat.leb_le.
Qed.

Lemma endsWithSpace_String (a : ascii) (t : string) :
  endsWithSpace t = false -> isSpaceRune (String a t) = false ->
  endsWithSpace (String a t) = false.
Proof.
  intros Ht Hr. destruct (endsWithSpace (String a t)) eqn:E; [|reflexivity].
  unfold endsWithSpace in E. apply existsb_exists in E as (w & Hin & Hw).
  destruct (HasSuffix_cons_inv a t w Hw) as [H|H].
  - assert (endsWithSpace t = true)
      by (apply existsb_exists; exists w; now split).
    congruence.
  - subst w. assert (isSpaceRune (String a t) = true).
    { apply existsb_exists. exists (String a t). split; [exact Hin | apply String.eqb_refl]. }
    congruence.
Qed.

Lemma trimRightSpace_trimmed (s : string) : endsWithSpace (trimRightSpace s) = false.
Proof.
  induction s as [|a s IH]; [reflexivity|].
  cbn [trimRightSpace].
  destruct (isSpaceRune (String a (trimRightSpace s))) eqn:E; [reflexivity|].
  now apply endsWithSpace_String.
Qed.

Lemma trimRightSpace_prefix (s : string) :
  exists y, s = (trimRightSpace s ++ y)%string.
Proof.
  induction s as [|a s [y IH]]; [now exists EmptyString|].
  cbn [trimRightSpace]. destruct (isSpaceRune _).
  - now exists (String a s).
  - exists y. cbn [append]. now rewrite <- IH.
Qed.

Lemma HasPrefix_app_l (t y w : string) :
  HasPrefix t w = true -> HasPrefix (t ++ y) w = true.
Proof.
  revert t. induction w as [|b w IH]; intros t H; [reflexivity|].
  destruct t as [|a t]; [discriminate|]. cbn in *.
  apply andb_prop in H. destruct H as [H1 H2]. now rewrite H1, (IH t H2).
Qed.

Lemma startsWithSpace_trimRight (s : string) :
  startsWithSpace s = false -> startsWithSpace (trimRightSpace s) = false.
Proof.
  intros H. destruct (startsWithSpace (trimRightSpace s)) eqn:E; [|reflexivity].
  unfold startsWithSpace in E. apply existsb_exists in E as (w & Hin & Hw).
  destruct (trimRightSpace_prefix s) as [y Hy].
  assert (startsWithSpace s = true).
  { apply existsb_exists. exists w. split; [exact Hin|].
    rewrite Hy. now apply HasPrefix_app_l. }
  congruence.
Qed.

Lemma length_drop (n : nat) (s : string) :
  String.length (drop n s) = String.length s - n.
Proof.
  revert s. induction n as [|n IH]; intros s; cbn [drop]; [lia|].
  destruct s as [|a s]; [reflexivity|]. cbn [String.length]. now rewrite IH.
Qed.

Lemma stripSpaceRune_shorter (s s' : string) :
  stripSpaceRune s = Some s' -> String.length s' < String.length s.
Proof.
  unfold stripSpaceRune. destruct (find _ spaceRunes) as [w|] eqn:E; [|discriminate].
  intros [= <-]. apply find_some in E. destruct E as [Hin Hp].
  assert (Hw : 1 <= String.length w).
  { assert (Hall : forallb (fun w => Nat.leb 1 (String.length w)) spaceRunes = true)
      by reflexivity.
    rewrite forallb_forall in Hall. apply Nat.leb_le. now apply Hall. }
  rewrite length_drop.
  destruct s as [|a s]; [destruct w; [cbn in Hw; lia | discriminate]|].
  cbn [String.length]. lia.
Qed.

Lemma stripSpaceRune_None (s : string) :
  stripSpaceRune s = None -> startsWithSpace s = false.
Proof.
  unfold stripSpaceRune, startsWithSpace.
  destruct (find _ spaceRunes) as [w|] eqn:E; [discriminate|]. intros _.
  destruct (existsb _ spaceRunes) eqn:Ex; [|reflexivity].
  apply existsb_exists in Ex as (w & Hin & Hw).
  now rewrite (find_none _ _ E w Hin) in Hw.
Qed.

Lemma trimLeftSpaceFuel_trimmed (fuel : nat) :
  forall s, String.length s <= fuel ->
            startsWithSpace (trimLeftSpaceFuel fuel s) = false.
Proof.
  induction fuel as [|fuel IH]; intros s Hl.
  - destruct s; [reflexivity | cbn in Hl; lia].
  - cbn [trimLeftSpaceFuel]. destruct (stripSpaceRune s) as [s'|] eqn:E.
    + apply IH. apply stripSpaceRune_shorter in E. lia.
    + now apply stripSpaceRune_None.
Qed.

(** [TrimSpace] leaves no white space at either end. *)
Lemma TrimSpace_trimmed (s : string) :
  startsWithSpace (TrimSpace s) = false /\ endsWithSpace (TrimSpace s) = false.
Proof.
  unfold TrimSpace. split; [|apply trimRightSpace_trimmed].
  apply startsWithSpace_trimRight. unfold trimLeftSpace.
  now apply trimLeftSpaceFuel_trimmed.
Qed.

Lemma TrimSpace_idempotent (s : string) : TrimSpace (TrimSpace s) = TrimSpace s.
Proof. destruct (TrimSpace_trimmed s) as [H1 H2]. now apply TrimSpace_id. Qed.

Lemma Cut_Some (sep : ascii) (s x y : string) :
  Cut sep s = Some (x, y) -> s = (x ++ String sep y)%string.
Proof.
  revert x. induction s as [|a s IH]; intros x; cbn [Cut]; [discriminate|].
  destruct (Ascii.eqb a sep) eqn:E.
  - intros [= <- <-]. apply Ascii.eqb_eq in E. now subst.
  - destruct (Cut sep s) as [[x' y']|]; [|discriminate].
    intros [= <- <-]. cbn [append]. now rewrite (IH x' eq_refl).
Qed.

(** The text after a tab of a trimmed line. *)
Lemma field_after_tab (x y : string) :
  endsWithSpace (x ++ String tab y) = false ->
  y <> EmptyString /\ endsWithSpace y = false.
Proof.
  induction x as [|a x IH]; cbn [append]; intros H.
  - split; [|now apply endsWithSpace_cons in H].
    intros ->. discriminate H.
  - apply IH. now apply endsWithSpace_cons in H.
Qed.

Lemma lineFiles_fields (text f : string) :
  In f (lineFiles text) -> f <> EmptyString /\ endsWithSpace f = false.
Proof.
  unfold lineFiles.
  destruct (TrimSpace_trimmed text) as [_ He]. revert He.
  generalize (TrimSpace text). intros line He.
  destruct (negb (isEmpty line)); [|intros []].
  assert (H2 : forall status fileName,
             SplitN line tab 2 = [status; fileName] ->
             fileName <> EmptyString /\ endsWithSpace fileName = false).
  { intros status fileName H. cbn [SplitN] in H.
    destruct (Cut tab line) as [[x y]|] eqn:E; [|discriminate].
    inversion H; subst. apply Cut_Some in E. subst line.
    now apply field_after_tab in He. }
  assert (H3 : forall a b newPath,
             SplitN line tab 3 = [a; b; newPath] ->
             newPath <> EmptyString /\ endsWithSpace newPath = false).
  { intros a b newPath H. cbn [SplitN] in H.
    destruct (Cut tab line) as [[x y]|] eqn:E; [|discriminate].
    destruct (Cut tab y) as [[x2 y2]|] eqn:E2; [|discriminate].
    inversion H; subst. apply Cut_Some in E. apply Cut_Some in E2. subst.
    apply field_after_tab in He. destruct He as [_ He].
    now apply field_after_tab in He. }
  destruct (SplitN line tab 2) as [|status [|fileName [|? ?]]] eqn:E2; try solve [intros []].
  specialize (H2 status fileName eq_refl).
  destruct (HasPrefix status "R").
  { destruct (SplitN line tab 3) as [|a [|b [|newPath [|? ?]]]] eqn:E3; try solve [intros []].
    intros [<-|[]]. exact (H3 a b newPath eq_refl). }
  destruct (HasPrefix status "C").
  { destruct (SplitN line tab 3) as [|a [|b [|newPath [|? ?]]]] eqn:E3; try solve [intros []].
    intros [<-|[]]. exact (H3 a b newPath eq_refl). }
  destruct (negb (String.eqb status "D")); [|intros []].
  intros [<-|[]]. exact H2.
Qed.

End TrimFacts.

(** X24.  No path of the list [GetChangedFilesInCommit] returns is empty,
    and none ends with white space, whatever [git show] prints. *)
Theorem changed_paths_are_not_blank (g : gitWorld) (repoPath commitHash : string)
  (files : list string) (f : string) :
  Gitutil.GetChangedFilesInCommit g repoPath commitHash = Ok files ->
  In f files ->
  f <> EmptyString /\ endsWithSpace f = false.
Proof.
  unfold Gitutil.GetChangedFilesInCommit, Gitutil.scanNameStatus.
  destruct (gitShow g repoPath commitHash) as [out|e|e]; try discriminate.
  destruct (existsb _ _); [discriminate|].
  intros [= <-] Hin. apply in_flat_map in Hin. destruct Hin as (l & _ & Hf).
  exact (lineFiles_fields _ f Hf).
Qed.

(** X25.  The hash [GetCurrentCommitHash] returns has no white space
    around it, wherever it was read from: the [HEAD] file, the file of the
    reference, or the output of [git rev-parse]. *)
Theorem current_hash_is_trimmed (g : gitWorld) (repoPath h : string) :
  Gitutil.GetCurrentCommitHash g repoPath = Ok h ->
  startsWithSpace h = false /\ endsWithSpace h = false.
Proof.
  assert (Hrev : forall revision,
             Gitutil.runGitRevParse g repoPath revision = Ok h ->
             startsWithSpace h = false /\ endsWithSpace h = false).
  { intros revision. unfold Gitutil.runGitRevParse.
    destruct (gitRevParse g repoPath revision); try discriminate.
    intros [= <-]. apply TrimSpace_trimmed. }
  unfold Gitutil.GetCurrentCommitHash.
  destruct (readFile g _) as [contentBytes|e]; [|apply Hrev].
  destruct (Strings.HasPrefix _ "ref: ").
  - destruct (readFile g _) as [hashBytes|e]; [|apply Hrev].
    intros [= <-]. apply TrimSpace_trimmed.
  - destruct (Nat.eqb _ 40); [|apply Hrev].
    intros [= <-]. apply TrimSpace_trimmed.
Qed.

(* ================================================================== *)
(** ** A backup that succeeds *)

(** X26.  A backup that succeeds has stored the whole archive: the archive
    stream ended cleanly, and the body of the one object put, under the key
    of the commit, is the compressed stream of everything the archive
    process wrote. *)
Theorem successful_backup_stores_whole_archive
  (b : Backup.backupWorld) (repo h : string) (cfg : BackupConfig) :
  fst (Backup.RunBackup b repo h cfg) = Returns None ->
  exists src,
    Backup.archiveStart b repo h = Ok src
    /\ Backup.lastRead src = EOF
    /\ In (PutObject (Bucket cfg) (Backup.s3Key cfg h)
             (compressedStream (Backup.gzip b) (Backup.chunks src)) None)
          (snd (Backup.RunBackup b repo h cfg)).
Proof.
  unfold Backup.RunBackup, Backup.GzipPipe.
  destruct (String.eqb (Bucket cfg) EmptyString); [discriminate|].
  destruct (Backup.loadDefaultConfig b cfg); [discriminate|].
  destruct (Backup.stdoutPipeErr b); [discriminate|].
  destruct (Backup.archiveStart b repo h) as [src|]; [|discriminate].
  destruct (startGoroutine_settled (Backup.gzip b) src (Backup.uploadBudget b))
    as (Hdl & Hr & Hs).
  destruct (Backup.archiveExits b _); [|discriminate].
  destruct (fitsb (Backup.uploadBudget b) _) eqn:Hfit.
  - destruct Hs as (p & logs & Hg & He). rewrite Hg in *.
    cbn [Backup.uploadResult Backup.pipeOf Backup.logsOf] in *.
    rewrite (takeBudget_fits _ _ Hfit) in Hdl.
    unfold Backup.putObject. rewrite Hr, He, Hdl.
    destruct (Backup.lastRead src) eqn:El; try discriminate.
    destruct (Backup.storeObject b _ _ _); [discriminate|].
    destruct (Backup.archiveWait b repo h); [discriminate|].
    intros _. exists src. repeat split; [exact El|].
    cbn [snd]. rewrite !in_app_iff. cbn [In]. tauto.
  - destruct (Backup.startGoroutine (Backup.gzip b) src _); [destruct Hs| |];
      cbn [Backup.uploadResult]; discriminate.
Qed.


(* ================================================================== *)
(** ** A backup that does not return *)


(* ================================================================== *)
(** ** More properties at work on the examples *)

(** X1 on a backup that goes well. *)
Lemma RunBackup_succeeds_iff_stored_witness :
  exists body,
    filter isPipelineEvent
      (snd (Backup.RunBackup (exampleStore tarStream) exampleRepo "abc123" exampleBackup))
    = [ArchiveStarted exampleRepo "abc123";
       PutObject "prodby-backups" (Backup.s3Key exampleBackup "abc123") body None;
       ArchiveWaited None].
Proof.
  apply (proj1 (RunBackup_succeeds_iff_stored (exampleStore tarStream) exampleRepo
                  "abc123" exampleBackup)).
  vm_compute; reflexivity.
Defined.

(** X2 on a store that refuses the object while the archive process fails
    as well. *)
Lemma upload_error_has_priority_witness :
  fst (Backup.RunBackup refusingStore exampleRepo "abc123" exampleBackup)
  = Returns (Some (Wrapf "failed to upload to S3 (s3://prodby-backups/commit-abc123.tar.gz)"
                     (Errorf "AccessDenied")))
  /\ In (Log (LogArchiveAlsoFailed "fatal: not a tree object" (Errorf "exit status 128")))
        (snd (Backup.RunBackup refusingStore exampleRepo "abc123" exampleBackup)).
Proof.
  destruct (upload_error_has_priority refusingStore exampleRepo "abc123" exampleBackup
              "prodby-backups" exampleKey tarBody (Errorf "AccessDenied"))
    as [[[_ Hres] | (_ & _ & Hblocks)] Hlog].
  - vm_compute. repeat (first [left; reflexivity | right]).
  - split; [exact Hres|]. apply Hlog.
    vm_compute. repeat (first [left; reflexivity | right]).
  - vm_compute in Hblocks. discriminate Hblocks.
Defined.

(** X3 on a store that accepts the object while the archive process exits
    with an error. *)
Lemma archive_error_after_upload_witness :
  fst (Backup.RunBackup lateFailureStore exampleRepo "abc123" exampleBackup)
  = Returns (Some (Wrapf "git archive command failed after upload (stderr: warning)"
                     (Errorf "exit status 1"))).
Proof.
  destruct (archive_error_after_upload lateFailureStore exampleRepo "abc123" exampleBackup
              "prodby-backups" exampleKey tarBody (Errorf "exit status 1"))
    as [Hres _].
  - vm_compute. repeat (first [left; reflexivity | right]).
  - vm_compute. repeat (first [left; reflexivity | right]).
  - exact Hres.
Defined.

(** X5 on the commit whose project file is named after its folder. *)
Lemma put_only_for_validated_commit_witness :
  exists h files,
    Monitor.processingMu (exampleState "000") = false
    /\ Gitutil.GetCurrentCommitHash (Monitor.git folderFlpWorld) exampleRepo = Ok h
    /\ h <> EmptyString /\ h <> "000"
    /\ Gitutil.GetChangedFilesInCommit (Monitor.git folderFlpWorld) exampleRepo h = Ok files
    /\ Validator.Validate (Monitor.git folderFlpWorld) exampleRepo files = (true, [])
    /\ "prodby-backups" = Bucket exampleBackup
    /\ exampleKey = Backup.s3Key exampleBackup h.
Proof.
  apply (put_only_for_validated_commit folderFlpWorld (exampleState "000")
           "prodby-backups" exampleKey tarBody None).
  vm_compute. repeat (first [left; reflexivity | right]).
Defined.

(** X7 on the same commit. *)
Lemma tracked_hash_never_reset_witness :
  Monitor.lastKnownHash (fst (Monitor.handleCommitCheck folderFlpWorld (exampleState "000")))
  <> EmptyString.
Proof.
  apply (tracked_hash_never_reset folderFlpWorld (exampleState "000")).
  discriminate.
Defined.

(** X8 when the commit found is the tracked one. *)
Lemma cycle_without_new_commit_is_idle_witness :
  fst (Monitor.handleCommitCheck folderFlpWorld (exampleState "abc123"))
  = exampleState "abc123"
  /\ filter isWorkEvent (snd (Monitor.handleCommitCheck folderFlpWorld (exampleState "abc123")))
     = [].
Proof.
  apply (cycle_without_new_commit_is_idle folderFlpWorld (exampleState "abc123")).
  intros h H. right.
  assert (Hc : Gitutil.GetCurrentCommitHash (Monitor.git folderFlpWorld)
                 (Monitor.repoPath (exampleState "abc123")) = Ok "abc123")
    by (vm_compute; reflexivity).
  rewrite Hc in H. injection H as <-. reflexivity.
Defined.

(** X12 on two commits. *)
Lemma distinct_commits_distinct_keys_witness :
  Backup.s3Key exampleBackup "abc123" <> Backup.s3Key exampleBackup "abc124".
Proof.
  apply (distinct_commits_distinct_keys exampleBackup "abc123" "abc124").
  discriminate.
Defined.

(** X13 on the example tree, which has an [objects] directory: the
    directory [refs/heads] is watched, and it is not a noisy one. *)
Lemma Start_never_watches_noisy_directories_witness :
  In "/srv/music/.git/refs/heads" startedWatches
  /\ ~ In "/srv/music/.git/objects" startedWatches
  /\ ("/srv/music/.git/refs/heads" = Filepath.Join [RepoPath exampleConfig; ".git"]
      \/ "/srv/music/.git/refs/heads"
         = Filepath.Join [Filepath.Join [RepoPath exampleConfig; ".git"]; "refs"]
      \/ isNoisyDir "/srv/music/.git/refs/heads" = false).
Proof.
  assert (Hin : In "/srv/music/.git/refs/heads" startedWatches)
    by (vm_compute; repeat (first [left; reflexivity | right])).
  split; [exact Hin|]. split.
  - vm_compute. intros H. repeat (destruct H as [H|H]; [discriminate|]). exact H.
  - eapply (Start_never_watches_noisy_directories allWatchFs
              (exampleGit "abc123" (CmdOut EmptyString) requiredInIndex) exampleConfig
              _ startedWatches).
    + vm_compute. reflexivity.
    + exact Hin.
Defined.

(** X14 on the events of one commit, with the two seconds of the example
    configuration: one check, three and a half seconds after the first
    event, however late the runtime starts the calls. *)
Lemma burst_gives_one_check_witness :
  checkTimes (EventLoop.eventLoop lateStart exampleConfig commitBurst None)
  = [3500000000%Z].
Proof.
  apply (burst_gives_one_check lateStart exampleConfig commitBurst).
  - reflexivity.
  - discriminate.
  - vm_compute; reflexivity.
Defined.

(** X15 on the events of two commits, the loop ending after the second. *)
Lemma checks_are_quiet_intervals_witness :
  checkTimes (EventLoop.eventLoop promptStart exampleConfig twoCommits None)
  = [3500000000%Z; 9000000000%Z]
  /\ subsequence (checkTimes (EventLoop.eventLoop lateStart exampleConfig twoCommits None))
       [3500000000%Z; 9000000000%Z] = true.
Proof.
  split.
  - apply (checks_are_quiet_intervals promptStart exampleConfig twoCommits).
    + vm_compute; reflexivity.
    + intros k. reflexivity.
  - apply (checks_are_quiet_intervals lateStart exampleConfig twoCommits).
    vm_compute; reflexivity.
Defined.

(** X16 on the same events without debounce. *)
Lemma no_debounce_checks_every_event_witness :
  checkTimes (EventLoop.eventLoop promptStart noDebounceConfig commitBurst None)
  = [0%Z; 900000000%Z; 1500000000%Z]
  /\ exists front,
       checkTimes (EventLoop.eventLoop lateStart noDebounceConfig commitBurst None)
       = front ++ [1500000000%Z].
Proof.
  split.
  - apply (no_debounce_checks_every_event promptStart noDebounceConfig commitBurst).
    + vm_compute; discriminate.
    + vm_compute; reflexivity.
    + intros k. reflexivity.
  - apply (no_debounce_checks_every_event lateStart noDebounceConfig commitBurst).
    + vm_compute; discriminate.
    + vm_compute; reflexivity.
    + discriminate.
Defined.

(** X17 on events that change permissions and remove files. *)
Lemma other_events_never_check_witness :
  checkTimes (EventLoop.eventLoop promptStart exampleConfig housekeeping None) = [].
Proof.
  apply (other_events_never_check promptStart exampleConfig housekeeping).
  vm_compute; reflexivity.
Defined.

(** X19 on a commit with a path that has a space. *)
Lemma path_with_space_is_rejected_witness :
  fst (Validator.Validate (exampleGit "abc123" (CmdOut EmptyString) requiredInIndex)
         exampleRepo ["README.md"; "src/notes/first take.txt"]) = false
  /\ In (spaceViolation "src/notes/first take.txt")
        (snd (Validator.Validate (exampleGit "abc123" (CmdOut EmptyString) requiredInIndex)
                exampleRepo ["README.md"; "src/notes/first take.txt"])).
Proof.
  apply (path_with_space_is_rejected
           (exampleGit "abc123" (CmdOut EmptyString) requiredInIndex) exampleRepo
           ["README.md"; "src/notes/first take.txt"] "src/notes/first take.txt").
  - right. left. reflexivity.
  - vm_compute; reflexivity.
Defined.

(** X20 on a path under [SRC]. *)
Lemma case_violations_are_never_reported_witness :
  isCaseViolation upperSrcViolation = false.
Proof.
  apply (case_violations_are_never_reported
           (exampleGit "abc123" (CmdOut EmptyString) requiredInIndex) exampleRepo
           ["SRC/x"] upperSrcViolation).
  vm_compute. left. reflexivity.
Defined.

(** X21 on [notes.txt] at the root. *)
Lemma root_file_accepted_iff_allowed_witness :
  fileViolations "README.md" = [] /\ fileViolations "notes.txt" <> [].
Proof.
  split.
  - apply (proj2 (root_file_accepted_iff_allowed "README.md" eq_refl)).
    left. reflexivity.
  - intros H. apply (proj1 (root_file_accepted_iff_allowed "notes.txt" eq_refl)) in H.
    destruct H as [H|[H|[H|[]]]]; discriminate.
Defined.

(** X22 and X23 on the folder of the examples. *)
Lemma well_named_project_file_is_accepted_witness :
  fileViolations (projectFilePath songFolder "flp") = [].
Proof.
  apply (well_named_project_file_is_accepted songFolder "flp").
  - vm_compute; reflexivity.
  - left. reflexivity.
Defined.

Lemma well_named_export_is_accepted_witness :
  fileViolations (exportFilePath songFolder "finalmix" "wav") = [].
Proof.
  apply (well_named_export_is_accepted songFolder "finalmix" "wav").
  - vm_compute; reflexivity.
  - do 4 right. left. reflexivity.
  - right. left. reflexivity.
Defined.

(** X24 on the listing with every kind of line. *)
Lemma changed_paths_are_not_blank_witness :
  "src/new.txt" <> EmptyString /\ endsWithSpace "src/new.txt" = false.
Proof.
  apply (changed_paths_are_not_blank mixedGit exampleRepo "abc123"
           ["README.md"; "src/new.txt"; "b.cfg"; ".gitignore"] "src/new.txt").
  - vm_compute; reflexivity.
  - right. left. reflexivity.
Defined.

(** X25 on a reference file that ends with a newline. *)
Lemma current_hash_is_trimmed_witness :
  startsWithSpace "abc123" = false /\ endsWithSpace "abc123" = false.
Proof.
  apply (current_hash_is_trimmed mixedGit exampleRepo "abc123").
  vm_compute; reflexivity.
Defined.

(** X26 on a backup that goes well. *)
Lemma successful_backup_stores_whole_archive_witness :
  exists src,
    Backup.archiveStart (exampleStore tarStream) exampleRepo "abc123" = Ok src
    /\ Backup.lastRead src = EOF
    /\ In (PutObject (Bucket exampleBackup) (Backup.s3Key exampleBackup "abc123")
             (compressedStream (Backup.gzip (exampleStore tarStream)) (Backup.chunks src))
             None)
          (snd (Backup.RunBackup (exampleStore tarStream) exampleRepo "abc123" exampleBackup)).
Proof.
  apply (successful_backup_stores_whole_archive (exampleStore tarStream) exampleRepo
           "abc123" exampleBackup).
  vm_compute; reflexivity.
Defined.

(** X27 on the repository at the commit [abc123], whose project file
    has a name the validator would reject. *)
Lemma commit_at_startup_is_not_processed_witness :
  fst (Monitor.handleCommitCheck songFlpWorld (exampleState "abc123"))
  = exampleState "abc123"
  /\ filter isWorkEvent
       (snd (Monitor.handleCommitCheck songFlpWorld (exampleState "abc123"))) = [].
Proof.
  eapply (commit_at_startup_is_not_processed allWatchFs exampleConfig songFlpWorld
            (exampleState "abc123")).
  vm_compute. reflexivity.
Defined.

